(** * xangi: the process-based execution engine

    A shallow embedding of
    - [mergeTexts]            (src/agent-runner.ts),
    - [PersistentRunner]      (src/persistent-runner.ts),
    - [RunnerManager]         (src/runner-manager.ts),
    and the properties of the specification that concern them.

    Conventions of the embedding
    - JavaScript strings are [string]; only their sequence structure is used.
    - [Date.now()] is an argument [now : Z] of every operation that reads it.
    - A JavaScript exception is the [Throw] outcome of the small monad [M];
      the state reached at the point of the throw is kept, as it is in
      JavaScript.
    - Every observable action of a runner (spawn, kill, write, promise
      resolve/reject, callbacks, timers) is appended to the ghost field
      [log] of the runner. *)

From Stdlib Require Import ZArith List String Ascii Bool Lia Arith Sorted.
Import ListNotations.

(* ===================================================================== *)
(** * JavaScript strings                                                   *)
(* ===================================================================== *)

Module JsString.
#[local] Open Scope string_scope.

(** [!s] is true exactly for the empty string. *)
Definition truthy (s : string) : bool :=
  match s with
  | EmptyString => false
  | String _ _ => true
  end.

(** The one-character string of the escape [\n]. *)
Definition nl : string := String (ascii_of_nat 10) EmptyString.

(** [String.prototype.endsWith(search)] with the default end position:
    [start = len - searchLength]; a negative [start] gives [false];
    otherwise the code units from [start] are compared with [search]. *)
Definition endsWith (s search : string) : bool :=
  let len := String.length s in
  let searchLength := String.length search in
  if Nat.ltb len searchLength then false
  else String.eqb (substring (len - searchLength) searchLength s) search.

Lemma truthy_false_iff (s : string) : truthy s = false <-> s = "".
Proof. destruct s; simpl; split; congruence. Qed.

Lemma truthy_true_iff (s : string) : truthy s = true <-> s <> "".
Proof. destruct s; simpl; split; congruence. Qed.

Lemma length_app (p q : string) :
  String.length (p ++ q) = String.length p + String.length q.
Proof. induction p as [|c p IH]; simpl; [reflexivity | now rewrite IH]. Qed.

Lemma substring_all (s : string) : substring 0 (String.length s) s = s.
Proof. induction s as [|c s IH]; simpl; [reflexivity | now rewrite IH]. Qed.

Lemma substring_skip (p q : string) (m : nat) :
  substring (String.length p) m (p ++ q) = substring 0 m q.
Proof. induction p as [|c p IH]; simpl; [reflexivity | exact IH]. Qed.

(** Cutting a string at position [n] loses nothing. *)
Lemma substring_split (s : string) :
  forall n, n <= String.length s ->
  s = substring 0 n s ++ substring n (String.length s - n) s.
Proof.
  induction s as [|c s IH]; intros n Hn.
  - simpl in Hn. assert (n = 0) by lia. subst n. reflexivity.
  - destruct n as [|n].
    + simpl. now rewrite substring_all.
    + simpl in Hn. simpl. f_equal. apply IH. lia.
Qed.

(** [endsWith] decides "is a suffix of". *)
Lemma endsWith_spec (s search : string) :
  endsWith s search = true <-> exists p, s = p ++ search.
Proof.
  unfold endsWith. split.
  - destruct (Nat.ltb_spec (String.length s) (String.length search)) as [Hlt|Hle];
      [discriminate|].
    intros H. apply String.eqb_eq in H.
    exists (substring 0 (String.length s - String.length search) s).
    pose proof (substring_split s (String.length s - String.length search)
                  ltac:(lia)) as Hs.
    replace (String.length s - (String.length s - String.length search))
      with (String.length search) in Hs by lia.
    now rewrite H in Hs.
  - intros [p ->]. rewrite length_app.
    destruct (Nat.ltb_spec (String.length p + String.length search)
                (String.length search)) as [Hlt|Hle]; [lia|].
    replace (String.length p + String.length search - String.length search)
      with (String.length p) by lia.
    rewrite substring_skip, substring_all. apply String.eqb_refl.
Qed.

Lemma endsWith_refl (s : string) : endsWith s s = true.
Proof. apply endsWith_spec. exists "". reflexivity. Qed.

Lemma endsWith_false_iff (s search : string) :
  endsWith s search = false <-> ~ exists p, s = p ++ search.
Proof.
  rewrite <- endsWith_spec. destruct (endsWith s search); split; intros H;
    congruence || (exfalso; now apply H) || reflexivity.
Qed.

End JsString.

Import JsString.
#[local] Open Scope string_scope.

(* ===================================================================== *)
(** * agent-runner.ts: mergeTexts                                          *)
(* ===================================================================== *)

(** [mergeTexts(streamed, result)], line by line. *)
Definition mergeTexts (streamed result : string) : string :=
  if negb (truthy result) then streamed
  else if negb (truthy streamed) then result
  else if endsWith streamed result then streamed
  else if endsWith result streamed then result
  else streamed ++ nl ++ result.

(** The merge rule in the words of the specification, as a relation: the
    five cases in order, "ends with" read as "has as a suffix". *)
Definition ends_with (s t : string) : Prop := exists p, s = p ++ t.

Inductive merge_rule (streamed final : string) : string -> Prop :=
| merge_final_empty :
    final = "" -> merge_rule streamed final streamed
| merge_streamed_empty :
    final <> "" -> streamed = "" -> merge_rule streamed final final
| merge_redundant_suffix :
    final <> "" -> streamed <> "" -> ends_with streamed final ->
    merge_rule streamed final streamed
| merge_streamed_prefix :
    final <> "" -> streamed <> "" -> ~ ends_with streamed final ->
    ends_with final streamed -> merge_rule streamed final final
| merge_disjoint :
    final <> "" -> streamed <> "" -> ~ ends_with streamed final ->
    ~ ends_with final streamed ->
    merge_rule streamed final (streamed ++ nl ++ final).

(* ===================================================================== *)
(** * agent-runner.ts: the interfaces shared by the runners                *)
(* ===================================================================== *)

Module RunOptions.
Record t : Type := mk
  { skipPermissions : option bool;
    sessionId : option string;
    channelId : option string }.
End RunOptions.

Module RunResult.
Record t : Type := mk { result : string; sessionId : string }.
End RunResult.

(** The three callbacks are optional; what a callback does is the
    caller's business, so only its presence is recorded. *)
Module StreamCallbacks.
Record t : Type := mk { onText : bool; onComplete : bool; onError : bool }.
End StreamCallbacks.

(* ===================================================================== *)
(** * persistent-runner.ts: PersistentRunner                               *)
(* ===================================================================== *)

Module PersistentRunner.
#[local] Open Scope Z_scope.

Definition MAX_CRASHES : Z := 3.
Definition CRASH_WINDOW_MS : Z := 60000.

(** The [Error] values the runner creates, one constructor per message. *)
Inductive Error : Type :=
| CircuitOpenCooldown (crashes elapsed : Z)
    (* `Circuit breaker open: ${crashCount} crashes in ${elapsed}ms. ...` *)
| CircuitOpenQueued
    (* 'Circuit breaker open: too many process crashes' *)
| ProcessExited (code : option Z)
    (* `Process exited unexpectedly with code ${code}` *)
| ProcessError (err : string)
    (* the error object of the child's 'error' event *)
| TimedOut (ms : Z)
    (* `Request timed out after ${this.timeoutMs}ms` *)
| CancelledByUser
    (* 'Request cancelled by user' *)
| ShuttingDown
    (* 'Runner is shutting down' *)
| Upstream (msg : string).
    (* new Error(json.result || 'Unknown error') *)

(** What the runner does to the outside world.  A request is identified by
    the number [id] of its promise (the n-th promise created by [run] or
    [runStream] has number n), a child process by its number [pid]. *)
Inductive Effect : Type :=
| Spawn (pid : nat) (args : list string)
| StdinWrite (pid : nat) (content : string)
| StdinEnd (pid : nat)
| Kill (pid : nat)
| SetTimeout (id : nat) (ms : Z)
| ClearTimeout (id : nat)
| Resolve (id : nat) (r : RunResult.t)
| Reject (id : nat) (e : Error)
| OnText (id : nat) (text fullText : string)
| OnComplete (id : nat) (r : RunResult.t)
| OnError (id : nat) (e : Error).

(** [interface QueueItem].  [resolve] and [reject] are the settling
    functions of promise [id]; [wrapped] says that [processNext] has
    replaced them by the versions that first clear the request's timer. *)
Record QueueItem : Type := mkItem
  { id : nat;
    prompt : string;
    options : option RunOptions.t;
    callbacks : option StreamCallbacks.t;
    wrapped : bool }.

(** The constructor's options after defaulting ([timeoutMs] is
    [options?.timeoutMs ?? DEFAULT_TIMEOUT_MS], [skipPermissions] is
    [?? false]); [systemPrompt] is what [buildSystemPrompt] read from disk. *)
Record Config : Type := mkConfig
  { model : option string;
    timeoutMs : Z;
    workdir : option string;
    skipPermissions : bool;
    systemPrompt : string }.

(** The private fields of the class, and four ghost fields:
    [log] (newest effect first), [timers] (the armed request timers),
    [nextPid] and [nextReq] (fresh numbers for processes and promises). *)
Record t : Type := mkRunner
  { cfg : Config;
    process : option nat;
    processAlive : bool;
    queue : list QueueItem;
    currentItem : option QueueItem;
    buffer : string;
    sessionId : string;
    fullText : string;
    shuttingDown : bool;
    cancelling : bool;
    crashCount : Z;
    lastCrashTime : Z;
    log : list Effect;
    timers : list nat;
    nextPid : nat;
    nextReq : nat }.

(** [new PersistentRunner(options)]. *)
Definition new (c : Config) : t :=
  {| cfg := c; process := None; processAlive := false; queue := [];
     currentItem := None; buffer := ""; sessionId := ""; fullText := "";
     shuttingDown := false; cancelling := false; crashCount := 0;
     lastCrashTime := 0; log := []; timers := []; nextPid := 0;
     nextReq := 0 |}.

(** Field assignment [this.f = v]. *)
Definition set_process (v : option nat) (s : t) : t :=
  {| cfg := cfg s; process := v; processAlive := processAlive s;
     queue := queue s; currentItem := currentItem s; buffer := buffer s;
     sessionId := sessionId s; fullText := fullText s;
     shuttingDown := shuttingDown s; cancelling := cancelling s;
     crashCount := crashCount s; lastCrashTime := lastCrashTime s;
     log := log s; timers := timers s; nextPid := nextPid s;
     nextReq := nextReq s |}.

Definition set_processAlive (v : bool) (s : t) : t :=
  {| cfg := cfg s; process := process s; processAlive := v; queue := queue s;
     currentItem := currentItem s; buffer := buffer s;
     sessionId := sessionId s; fullText := fullText s;
     shuttingDown := shuttingDown s; cancelling := cancelling s;
     crashCount := crashCount s; lastCrashTime := lastCrashTime s;
     log := log s; timers := timers s; nextPid := nextPid s;
     nextReq := nextReq s |}.

Definition set_queue (v : list QueueItem) (s : t) : t :=
  {| cfg := cfg s; process := process s; processAlive := processAlive s;
     queue := v; currentItem := currentItem s; buffer := buffer s;
     sessionId := sessionId s; fullText := fullText s;
     shuttingDown := shuttingDown s; cancelling := cancelling s;
     crashCount := crashCount s; lastCrashTime := lastCrashTime s;
     log := log s; timers := timers s; nextPid := nextPid s;
     nextReq := nextReq s |}.

Definition set_currentItem (v : option QueueItem) (s : t) : t :=
  {| cfg := cfg s; process := process s; processAlive := processAlive s;
     queue := queue s; currentItem := v; buffer := buffer s;
     sessionId := sessionId s; fullText := fullText s;
     shuttingDown := shuttingDown s; cancelling := cancelling s;
     crashCount := crashCount s; lastCrashTime := lastCrashTime s;
     log := log s; timers := timers s; nextPid := nextPid s;
     nextReq := nextReq s |}.

Definition set_buffer (v : string) (s : t) : t :=
  {| cfg := cfg s; process := process s; processAlive := processAlive s;
     queue := queue s; currentItem := currentItem s; buffer := v;
     sessionId := sessionId s; fullText := fullText s;
     shuttingDown := shuttingDown s; cancelling := cancelling s;
     crashCount := crashCount s; lastCrashTime := lastCrashTime s;
     log := log s; timers := timers s; nextPid := nextPid s;
     nextReq := nextReq s |}.

Definition set_sessionId (v : string) (s : t) : t :=
  {| cfg := cfg s; process := process s; processAlive := processAlive s;
     queue := queue s; currentItem := currentItem s; buffer := buffer s;
     sessionId := v; fullText := fullText s; shuttingDown := shuttingDown s;
     cancelling := cancelling s; crashCount := crashCount s;
     lastCrashTime := lastCrashTime s; log := log s; timers := timers s;
     nextPid := nextPid s; nextReq := nextReq s |}.

Definition set_fullText (v : string) (s : t) : t :=
  {| cfg := cfg s; process := process s; processAlive := processAlive s;
     queue := queue s; currentItem := currentItem s; buffer := buffer s;
     sessionId := sessionId s; fullText := v; shuttingDown := shuttingDown s;
     cancelling := cancelling s; crashCount := crashCount s;
     lastCrashTime := lastCrashTime s; log := log s; timers := timers s;
     nextPid := nextPid s; nextReq := nextReq s |}.

Definition set_shuttingDown (v : bool) (s : t) : t :=
  {| cfg := cfg s; process := process s; processAlive := processAlive s;
     queue := queue s; currentItem := currentItem s; buffer := buffer s;
     sessionId := sessionId s; fullText := fullText s; shuttingDown := v;
     cancelling := cancelling s; crashCount := crashCount s;
     lastCrashTime := lastCrashTime s; log := log s; timers := timers s;
     nextPid := nextPid s; nextReq := nextReq s |}.

Definition set_cancelling (v : bool) (s : t) : t :=
  {| cfg := cfg s; process := process s; processAlive := processAlive s;
     queue := queue s; currentItem := currentItem s; buffer := buffer s;
     sessionId := sessionId s; fullText := fullText s;
     shuttingDown := shuttingDown s; cancelling := v;
     crashCount := crashCount s; lastCrashTime := lastCrashTime s;
     log := log s; timers := timers s; nextPid := nextPid s;
     nextReq := nextReq s |}.

Definition set_crashCount (v : Z) (s : t) : t :=
  {| cfg := cfg s; process := process s; processAlive := processAlive s;
     queue := queue s; currentItem := currentItem s; buffer := buffer s;
     sessionId := sessionId s; fullText := fullText s;
     shuttingDown := shuttingDown s; cancelling := cancelling s;
     crashCount := v; lastCrashTime := lastCrashTime s; log := log s;
     timers := timers s; nextPid := nextPid s; nextReq := nextReq s |}.

Definition set_lastCrashTime (v : Z) (s : t) : t :=
  {| cfg := cfg s; process := process s; processAlive := processAlive s;
     queue := queue s; currentItem := currentItem s; buffer := buffer s;
     sessionId := sessionId s; fullText := fullText s;
     shuttingDown := shuttingDown s; cancelling := cancelling s;
     crashCount := crashCount s; lastCrashTime := v; log := log s;
     timers := timers s; nextPid := nextPid s; nextReq := nextReq s |}.

Definition set_log (v : list Effect) (s : t) : t :=
  {| cfg := cfg s; process := process s; processAlive := processAlive s;
     queue := queue s; currentItem := currentItem s; buffer := buffer s;
     sessionId := sessionId s; fullText := fullText s;
     shuttingDown := shuttingDown s; cancelling := cancelling s;
     crashCount := crashCount s; lastCrashTime := lastCrashTime s; log := v;
     timers := timers s; nextPid := nextPid s; nextReq := nextReq s |}.

Definition set_timers (v : list nat) (s : t) : t :=
  {| cfg := cfg s; process := process s; processAlive := processAlive s;
     queue := queue s; currentItem := currentItem s; buffer := buffer s;
     sessionId := sessionId s; fullText := fullText s;
     shuttingDown := shuttingDown s; cancelling := cancelling s;
     crashCount := crashCount s; lastCrashTime := lastCrashTime s;
     log := log s; timers := v; nextPid := nextPid s; nextReq := nextReq s |}.

Definition set_nextPid (v : nat) (s : t) : t :=
  {| cfg := cfg s; process := process s; processAlive := processAlive s;
     queue := queue s; currentItem := currentItem s; buffer := buffer s;
     sessionId := sessionId s; fullText := fullText s;
     shuttingDown := shuttingDown s; cancelling := cancelling s;
     crashCount := crashCount s; lastCrashTime := lastCrashTime s;
     log := log s; timers := timers s; nextPid := v; nextReq := nextReq s |}.

Definition set_nextReq (v : nat) (s : t) : t :=
  {| cfg := cfg s; process := process s; processAlive := processAlive s;
     queue := queue s; currentItem := currentItem s; buffer := buffer s;
     sessionId := sessionId s; fullText := fullText s;
     shuttingDown := shuttingDown s; cancelling := cancelling s;
     crashCount := crashCount s; lastCrashTime := lastCrashTime s;
     log := log s; timers := timers s; nextPid := nextPid s; nextReq := v |}.

(** ** Control: state, exceptions, effects *)

Inductive Res (A : Type) : Type :=
| Ret (a : A) (s : t)
| Throw (e : Error) (s : t).
Arguments Ret {A} a s.
Arguments Throw {A} e s.

Definition M (A : Type) : Type := t -> Res A.

Definition ret {A} (a : A) : M A := fun s => Ret a s.
Definition throw {A} (e : Error) : M A := fun s => Throw e s.
Definition bind {A B} (m : M A) (k : A -> M B) : M B :=
  fun s => match m s with
           | Ret a s' => k a s'
           | Throw e s' => Throw e s'
           end.
Definition get : M t := fun s => Ret s s.
Definition modify (f : t -> t) : M unit := fun s => Ret tt (f s).
Definition emit (e : Effect) : M unit :=
  modify (fun s => set_log (e :: log s) s).

Notation "x <- m ;; k" := (bind m (fun x => k))
  (at level 61, m at next level, right associativity).
Notation "m ;; k" := (bind m (fun _ => k))
  (at level 61, right associativity).

Definition when (b : bool) (m : M unit) : M unit :=
  if b then m else ret tt.

(** [for (const x of l) body(x)] *)
Fixpoint for_each {A} (l : list A) (body : A -> M unit) : M unit :=
  match l with
  | [] => ret tt
  | x :: l' => body x ;; for_each l' body
  end.

(** The state a computation ends in, whether it returns or throws. *)
Definition state_of {A} (r : Res A) : t :=
  match r with
  | Ret _ s => s
  | Throw _ s => s
  end.

Definition isSome {A} (o : option A) : bool :=
  match o with Some _ => true | None => false end.

(** Truthiness of an optional string ([undefined] and [''] are falsy). *)
Definition truthy_opt (o : option string) : bool :=
  match o with Some s => truthy s | None => false end.

(** ** Settling a request *)

Definition clearTimeout (i : nat) : M unit :=
  emit (ClearTimeout i) ;;
  modify (fun s => set_timers (List.remove Nat.eq_dec i (timers s)) s).

(** [item.reject(e)]: the wrapped version clears the timer first. *)
Definition item_reject (item : QueueItem) (e : Error) : M unit :=
  when (wrapped item) (clearTimeout (id item)) ;;
  emit (Reject (id item) e).

(** [item.resolve(r)] *)
Definition item_resolve (item : QueueItem) (r : RunResult.t) : M unit :=
  when (wrapped item) (clearTimeout (id item)) ;;
  emit (Resolve (id item) r).

(** [item.callbacks?.onError?.(e)] and its two siblings *)
Definition call_onError (item : QueueItem) (e : Error) : M unit :=
  match callbacks item with
  | Some cb => when (StreamCallbacks.onError cb) (emit (OnError (id item) e))
  | None => ret tt
  end.

Definition call_onComplete (item : QueueItem) (r : RunResult.t) : M unit :=
  match callbacks item with
  | Some cb => when (StreamCallbacks.onComplete cb) (emit (OnComplete (id item) r))
  | None => ret tt
  end.

Definition call_onText (item : QueueItem) (text full : string) : M unit :=
  match callbacks item with
  | Some cb => when (StreamCallbacks.onText cb) (emit (OnText (id item) text full))
  | None => ret tt
  end.

(** [this.currentItem?.f(...)] *)
Definition with_current (f : QueueItem -> M unit) : M unit :=
  s <- get ;;
  match currentItem s with
  | Some item => f item
  | None => ret tt
  end.

(** ** ensureProcess *)

(** The argument vector handed to [spawn('claude', args, ...)]. *)
Definition spawn_args (c : Config) : list string :=
  (["-p"; "--input-format"; "stream-json"; "--output-format"; "stream-json";
    "--verbose"]
   ++ (if skipPermissions c then ["--dangerously-skip-permissions"] else [])
   ++ (match model c with
       | Some m => if truthy m then ["--model"; m] else []
       | None => []
       end)
   ++ ["--append-system-prompt"; systemPrompt c])%list.

(** The part of [ensureProcess] after the early return: the circuit
    breaker check, then the spawn. *)
Definition ensureProcess_start (now : Z) : M nat :=
  s <- get ;;
  (if MAX_CRASHES <=? crashCount s then
     let elapsed := now - lastCrashTime s in
     if elapsed <? CRASH_WINDOW_MS
     then throw (CircuitOpenCooldown (crashCount s) elapsed)
     else modify (set_crashCount 0)
   else ret tt) ;;
  s <- get ;;
  let pid := nextPid s in
  modify (set_nextPid (S pid)) ;;
  emit (Spawn pid (spawn_args (cfg s))) ;;
  modify (set_process (Some pid)) ;;
  modify (set_processAlive true) ;;
  ret pid.

Definition ensureProcess (now : Z) : M nat :=
  s <- get ;;
  match process s with
  | Some p => if processAlive s then ret p else ensureProcess_start now
  | None => ensureProcess_start now
  end.

(** ** processNext *)

Definition wrap (item : QueueItem) : QueueItem :=
  {| id := id item; prompt := prompt item; options := options item;
     callbacks := callbacks item; wrapped := true |}.

Definition processNext (now : Z) : M unit :=
  s <- get ;;
  if isSome (currentItem s) || Nat.eqb (List.length (queue s)) 0 then ret tt
  else
    match queue s with
    | [] => ret tt
    | item :: rest =>
        (* this.currentItem = this.queue.shift()! *)
        modify (set_queue rest) ;;
        modify (set_currentItem (Some item)) ;;
        modify (set_fullText "") ;;
        proc <- ensureProcess now ;;
        emit (StdinWrite proc (prompt item)) ;;
        s <- get ;;
        emit (SetTimeout (id item) (timeoutMs (cfg s))) ;;
        modify (fun s => set_timers (id item :: timers s) s) ;;
        (* this.currentItem.resolve / .reject are replaced *)
        modify (fun s => set_currentItem (option_map wrap (currentItem s)) s)
    end.

(** [this.process.kill(); this.process = null; this.processAlive = false;
    this.buffer = ''] *)
Definition kill_process (p : nat) : M unit :=
  emit (Kill p) ;;
  modify (set_process None) ;;
  modify (set_processAlive false) ;;
  modify (set_buffer "").

(** The callback of the request timer armed by [processNext]. *)
Definition onTimeout (now : Z) : M unit :=
  s <- get ;;
  match currentItem s with
  | None => ret tt
  | Some item =>
      let error := TimedOut (timeoutMs (cfg s)) in
      call_onError item error ;;
      item_reject item error ;;
      modify (set_currentItem None) ;;
      s <- get ;;
      match process s with
      | Some p => kill_process p
      | None => ret tt
      end ;;
      processNext now
  end.

(** The ['close'] handler installed by [ensureProcess]. *)
Definition onClose (code : option Z) (now : Z) : M unit :=
  s <- get ;;
  let wasShuttingDown := shuttingDown s in
  modify (set_process None) ;;
  modify (set_processAlive false) ;;
  modify (set_buffer "") ;;
  if wasShuttingDown then ret tt
  else if cancelling s then
    modify (set_cancelling false) ;;
    s <- get ;;
    when (Nat.ltb 0 (List.length (queue s))) (processNext now)
  else
    modify (fun s => set_crashCount (crashCount s + 1) s) ;;
    modify (set_lastCrashTime now) ;;
    with_current (fun item =>
      item_reject item (ProcessExited code) ;;
      modify (set_currentItem None)) ;;
    s <- get ;;
    if Nat.ltb 0 (List.length (queue s)) && (crashCount s <? MAX_CRASHES)
    then processNext now
    else if MAX_CRASHES <=? crashCount s then
      for_each (queue s) (fun item => item_reject item CircuitOpenQueued) ;;
      modify (set_queue [])
    else ret tt.

(** The ['error'] handler installed by [ensureProcess]. *)
Definition onProcessError (err : string) : M unit :=
  modify (set_process None) ;;
  modify (set_processAlive false) ;;
  with_current (fun item =>
    item_reject item (ProcessError err) ;;
    modify (set_currentItem None)).

(** ** handleJsonMessage *)

(** One parsed line of the child's stdout, with the fields the handler
    reads.  [content] is [json.message?.content]. *)
Record Block : Type := mkBlock { btype : string; text : option string }.

Record Json : Type := mkJson
  { type : string;
    session_id : option string;
    content : option (list Block);
    result : option string;
    is_error : bool }.

Definition handle_block (b : Block) : M unit :=
  match text b with
  | Some txt =>
      when (String.eqb (btype b) "text" && truthy txt)
        (modify (fun s => set_fullText (fullText s ++ txt) s) ;;
         s <- get ;;
         with_current (fun item => call_onText item txt (fullText s)))
  | None => ret tt
  end.

Definition store_session_id (json : Json) : M unit :=
  match session_id json with
  | Some sid => when (truthy sid) (modify (set_sessionId sid))
  | None => ret tt
  end.

Definition handleJsonMessage (now : Z) (json : Json) : M unit :=
  when (String.eqb (type json) "system") (store_session_id json) ;;
  when (String.eqb (type json) "assistant")
    (match content json with
     | Some blocks => for_each blocks handle_block
     | None => ret tt
     end) ;;
  when (String.eqb (type json) "result")
    (store_session_id json ;;
     (if is_error json then
        let error :=
          Upstream (match result json with
                    | Some r => if truthy r then r else "Unknown error"
                    | None => "Unknown error"
                    end) in
        with_current (fun item => call_onError item error) ;;
        with_current (fun item => item_reject item error)
      else
        match result json with
        | Some r =>
            when (truthy r)
              (modify (fun s => set_fullText (mergeTexts (fullText s) r) s))
        | None => ret tt
        end ;;
        s <- get ;;
        let res := RunResult.mk (fullText s) (sessionId s) in
        with_current (fun item => call_onComplete item res) ;;
        with_current (fun item => item_resolve item res)) ;;
     modify (set_currentItem None) ;;
     modify (set_fullText "") ;;
     processNext now).

(** ** run, runStream *)

(** [new Promise(executor)]: an exception thrown by the executor rejects
    the promise being created. *)
Definition promise_executor (i : nat) (body : M unit) : M unit :=
  fun s => match body s with
           | Ret _ s' => Ret tt s'
           | Throw e s' => emit (Reject i e) s'
           end.

Definition enqueue (now : Z) (prompt : string) (options : option RunOptions.t)
    (callbacks : option StreamCallbacks.t) : M nat :=
  s <- get ;;
  let i := nextReq s in
  modify (set_nextReq (S i)) ;;
  promise_executor i
    (modify (fun s =>
       set_queue (queue s ++ [mkItem i prompt options callbacks false])%list s) ;;
     processNext now) ;;
  ret i.

(** [run] returns the promise, identified by its number. *)
Definition run (now : Z) (prompt : string) (options : option RunOptions.t)
    : M nat :=
  enqueue now prompt options None.

Definition runStream (now : Z) (prompt : string) (callbacks : StreamCallbacks.t)
    (options : option RunOptions.t) : M nat :=
  enqueue now prompt options (Some callbacks).

(** ** cancel, shutdown *)

Definition cancel (now : Z) : M bool :=
  s <- get ;;
  match currentItem s with
  | None => ret false
  | Some item =>
      let error := CancelledByUser in
      call_onError item error ;;
      item_reject item error ;;
      modify (set_currentItem None) ;;
      modify (set_fullText "") ;;
      s <- get ;;
      match process s with
      | Some p =>
          modify (set_cancelling true) ;;
          kill_process p
      | None => processNext now
      end ;;
      ret true
  end.

Definition shutdown : M unit :=
  s <- get ;;
  match process s with
  | Some p =>
      modify (set_shuttingDown true) ;;
      emit (StdinEnd p) ;;
      kill_process p ;;
      s <- get ;;
      for_each (queue s) (fun item => item_reject item ShuttingDown) ;;
      modify (set_queue []) ;;
      with_current (fun item =>
        item_reject item ShuttingDown ;;
        modify (set_currentItem None))
  | None => ret tt
  end.

(** ** Getters and the circuit breaker *)

Definition getSessionId (s : t) : string := sessionId s.
Definition getQueueLength (s : t) : nat := List.length (queue s).
Definition isAlive (s : t) : bool := processAlive s.

Record CircuitBreakerStatus : Type := mkStatus
  { open : bool; status_crashCount : Z; status_lastCrashTime : Z }.

Definition getCircuitBreakerStatus (now : Z) (s : t) : CircuitBreakerStatus :=
  {| open := (MAX_CRASHES <=? crashCount s)
             && (now - lastCrashTime s <? CRASH_WINDOW_MS);
     status_crashCount := crashCount s;
     status_lastCrashTime := lastCrashTime s |}.

Definition resetCircuitBreaker : M unit :=
  modify (set_crashCount 0) ;;
  modify (set_lastCrashTime 0).

(** Modelled from the spec: [setSessionId], which [RunnerManager.run] and
    [RunnerManager.runStream] call on a runner, is not among the methods of
    the class in src/persistent-runner.ts.  The specification says of it:
    "if the caller supplies a continuation token, it is written into the
    target Session before dispatch"; the Session's token is the field
    [sessionId]. *)
Definition setSessionId (token : string) : M unit :=
  modify (set_sessionId token).

End PersistentRunner.

(* ===================================================================== *)
(** * runner-manager.ts: RunnerManager                                     *)
(* ===================================================================== *)

(** A JavaScript [Map] with string keys: entries in insertion order, at
    most one entry per key. *)
Module JsMap.
Section Ops.
Context {V : Type}.

Fixpoint get (k : string) (m : list (string * V)) : option V :=
  match m with
  | [] => None
  | (k', v) :: m' => if String.eqb k k' then Some v else get k m'
  end.

(** [set] keeps the position of a key that is present and appends a new
    key at the end. *)
Fixpoint set (k : string) (v : V) (m : list (string * V)) : list (string * V) :=
  match m with
  | [] => [(k, v)]
  | (k', v') :: m' =>
      if String.eqb k k' then (k, v) :: m' else (k', v') :: set k v m'
  end.

Fixpoint delete (k : string) (m : list (string * V)) : list (string * V) :=
  match m with
  | [] => []
  | (k', v') :: m' =>
      if String.eqb k k' then delete k m' else (k', v') :: delete k m'
  end.

Definition size (m : list (string * V)) : Z := Z.of_nat (List.length m).

Definition keys (m : list (string * V)) : list string := List.map fst m.

End Ops.
End JsMap.

Module RunnerManager.
#[local] Open Scope Z_scope.

Record PoolEntry : Type := mkEntry
  { runner : PersistentRunner.t;
    lastUsed : Z }.

(** The fields of the class.  [cleanupInterval] records whether the
    interval timer is installed.  The ghost field [retired] collects, newest
    first, the runners that were removed from the pool, in the state
    [shutdown()] left them in. *)
Record t : Type := mkManager
  { pool : list (string * PoolEntry);
    maxProcesses : Z;
    idleTimeoutMs : Z;
    cleanupInterval : bool;
    agentConfig : PersistentRunner.Config;
    retired : list (string * PersistentRunner.t) }.

Definition DEFAULT_CHANNEL : string := "__default__".
Definition CLEANUP_INTERVAL_MS : Z := 5 * 60 * 1000.

Definition set_pool (v : list (string * PoolEntry)) (m : t) : t :=
  {| pool := v; maxProcesses := maxProcesses m;
     idleTimeoutMs := idleTimeoutMs m; cleanupInterval := cleanupInterval m;
     agentConfig := agentConfig m; retired := retired m |}.

Definition set_cleanupInterval (v : bool) (m : t) : t :=
  {| pool := pool m; maxProcesses := maxProcesses m;
     idleTimeoutMs := idleTimeoutMs m; cleanupInterval := v;
     agentConfig := agentConfig m; retired := retired m |}.

Definition set_retired (v : list (string * PersistentRunner.t)) (m : t) : t :=
  {| pool := pool m; maxProcesses := maxProcesses m;
     idleTimeoutMs := idleTimeoutMs m; cleanupInterval := cleanupInterval m;
     agentConfig := agentConfig m; retired := v |}.

(** [new RunnerManager(agentConfig, options)] *)
Definition new (agentConfig : PersistentRunner.Config)
    (opt_maxProcesses opt_idleTimeoutMs : option Z) : t :=
  {| pool := [];
     maxProcesses := match opt_maxProcesses with Some n => n | None => 10 end;
     idleTimeoutMs :=
       match opt_idleTimeoutMs with Some n => n | None => 30 * 60 * 1000 end;
     cleanupInterval := true;
     agentConfig := agentConfig;
     retired := [] |}.

(** [entry.runner.shutdown(); this.pool.delete(channelId)] for an entry
    that was looked up under [channelId]. *)
Definition shutdown_and_delete (channelId : string) (entry : PoolEntry) (m : t) : t :=
  let r := PersistentRunner.state_of (PersistentRunner.shutdown (runner entry)) in
  set_retired ((channelId, r) :: retired m)
    (set_pool (JsMap.delete channelId (pool m)) m).

(** The scan of [evictLRU]: [oldestTime = None] is [Infinity]. *)
Definition lru_step (acc : option string * option Z) (kv : string * PoolEntry)
    : option string * option Z :=
  let '(oldestChannel, oldestTime) := acc in
  let '(channelId, entry) := kv in
  match oldestTime with
  | None => (Some channelId, Some (lastUsed entry))
  | Some tm =>
      if lastUsed entry <? tm then (Some channelId, Some (lastUsed entry))
      else (oldestChannel, oldestTime)
  end.

Definition lru_scan (p : list (string * PoolEntry)) : option string * option Z :=
  List.fold_left lru_step p (None, None).

Definition evictLRU (m : t) : t :=
  match fst (lru_scan (pool m)) with
  | Some oldestChannel =>
      (* if (oldestChannel) *)
      if truthy oldestChannel then
        match JsMap.get oldestChannel (pool m) with
        | Some entry => shutdown_and_delete oldestChannel entry m
        | None => m
        end
      else m
  | None => m
  end.

(** [getOrCreateRunner].  The runner stays in the pool; the caller reaches
    it through [channelId]. *)
Definition getOrCreateRunner (now : Z) (channelId : string) (m : t) : t :=
  match JsMap.get channelId (pool m) with
  | Some entry =>
      set_pool (JsMap.set channelId (mkEntry (runner entry) now) (pool m)) m
  | None =>
      let m1 := if maxProcesses m <=? JsMap.size (pool m) then evictLRU m else m in
      let r := PersistentRunner.new (agentConfig m1) in
      set_pool (JsMap.set channelId (mkEntry r now) (pool m1)) m1
  end.

Definition is_idle (now : Z) (m : t) (kv : string * PoolEntry) : bool :=
  idleTimeoutMs m <? now - lastUsed (snd kv).

Definition cleanupIdle (now : Z) (m : t) : t :=
  let toRemove := JsMap.keys (List.filter (is_idle now m) (pool m)) in
  List.fold_left
    (fun m channelId =>
       match JsMap.get channelId (pool m) with
       | Some entry => shutdown_and_delete channelId entry m
       | None => m
       end)
    toRemove m.

(** A method call on the runner stored under [channelId]; the runner is
    shared with the pool, so its new state is the pool's. *)
Definition on_runner {A} (channelId : string) (f : PersistentRunner.M A) (m : t)
    : option (PersistentRunner.Res A) * t :=
  match JsMap.get channelId (pool m) with
  | Some entry =>
      let res := f (runner entry) in
      (Some res,
       set_pool (JsMap.set channelId
                   (mkEntry (PersistentRunner.state_of res) (lastUsed entry))
                   (pool m)) m)
  | None => (None, m)
  end.

Definition channel_of (options : option RunOptions.t) : string :=
  match options with
  | Some o => match RunOptions.channelId o with
              | Some c => c
              | None => DEFAULT_CHANNEL
              end
  | None => DEFAULT_CHANNEL
  end.

(** [options?.sessionId], when it is truthy. *)
Definition supplied_session (options : option RunOptions.t) : option string :=
  match options with
  | Some o => match RunOptions.sessionId o with
              | Some sid => if truthy sid then Some sid else None
              | None => None
              end
  | None => None
  end.

(** The body shared by [run] and [runStream]; [dispatch] is [runner.run] or
    [runner.runStream]. *)
Definition forward (now : Z) (options : option RunOptions.t)
    (dispatch : PersistentRunner.M nat) (m : t) : t :=
  let channelId := channel_of options in
  let m1 := getOrCreateRunner now channelId m in
  let m2 := match supplied_session options with
            | Some sid => snd (on_runner channelId (PersistentRunner.setSessionId sid) m1)
            | None => m1
            end in
  snd (on_runner channelId dispatch m2).

Definition run (now : Z) (prompt : string) (options : option RunOptions.t)
    (m : t) : t :=
  forward now options (PersistentRunner.run now prompt options) m.

Definition runStream (now : Z) (prompt : string)
    (callbacks : StreamCallbacks.t) (options : option RunOptions.t) (m : t) : t :=
  forward now options (PersistentRunner.runStream now prompt callbacks options) m.

Definition destroy (channelId : string) (m : t) : bool * t :=
  match JsMap.get channelId (pool m) with
  | Some entry => (true, shutdown_and_delete channelId entry m)
  | None => (false, m)
  end.

(** [shutdown]: every runner is shut down, then the map is cleared. *)
Definition shutdown (m : t) : t :=
  let m1 := set_cleanupInterval false m in
  set_pool []
    (set_retired
       (List.rev (List.map
          (fun kv => (fst kv,
             PersistentRunner.state_of (PersistentRunner.shutdown (runner (snd kv)))))
          (pool m1)) ++ retired m1)%list
       m1).

(** The loop of [cancel()] over [this.pool.values()]: each runner's
    [cancel()] is called in the order of the map, up to the first that
    returns true; an exception leaves the loop.  A runner belongs to its
    entry, so what [cancel()] did to it stays in the pool. *)
Fixpoint cancel_values (now : Z) (entries : list (string * PoolEntry))
    : (PersistentRunner.Error + bool) * list (string * PoolEntry) :=
  match entries with
  | [] => (inr false, [])
  | (channelId, entry) :: rest =>
      match PersistentRunner.cancel now (runner entry) with
      | PersistentRunner.Ret true r =>
          (inr true, (channelId, mkEntry r (lastUsed entry)) :: rest)
      | PersistentRunner.Ret false r =>
          let '(res, rest') := cancel_values now rest in
          (res, (channelId, mkEntry r (lastUsed entry)) :: rest')
      | PersistentRunner.Throw e r =>
          (inl e, (channelId, mkEntry r (lastUsed entry)) :: rest)
      end
  end.

(** [cancel(channelId?)]: the value returned or the exception thrown, and
    the manager afterwards. *)
Definition cancel (now : Z) (channelId : option string) (m : t)
    : (PersistentRunner.Error + bool) * t :=
  let all := let '(res, p) := cancel_values now (pool m) in (res, set_pool p m) in
  match channelId with
  | Some c =>
      (* if (channelId) *)
      if truthy c then
        match on_runner c (PersistentRunner.cancel now) m with
        | (Some (PersistentRunner.Ret b _), m') => (inr b, m')
        | (Some (PersistentRunner.Throw e _), m') => (inl e, m')
        | (None, m') => (inr false, m')
        end
      else all
  | None => all
  end.

End RunnerManager.

(* ===================================================================== *)
(** * Properties of mergeTexts                                             *)
(* ===================================================================== *)

Section MergeTexts.
#[local] Open Scope string_scope.

Lemma mergeTexts_follows_rule (streamed final : string) :
  merge_rule streamed final (mergeTexts streamed final).
Proof.
  unfold mergeTexts.
  destruct (truthy final) eqn:Hf; simpl.
  2:{ apply merge_final_empty. now apply truthy_false_iff. }
  apply truthy_true_iff in Hf.
  destruct (truthy streamed) eqn:Hs; simpl.
  2:{ apply merge_streamed_empty; [assumption | now apply truthy_false_iff]. }
  apply truthy_true_iff in Hs.
  destruct (endsWith streamed final) eqn:H1.
  { apply merge_redundant_suffix; try assumption. now apply endsWith_spec. }
  apply endsWith_false_iff in H1.
  destruct (endsWith final streamed) eqn:H2.
  { apply merge_streamed_prefix; try assumption. now apply endsWith_spec. }
  apply endsWith_false_iff in H2.
  now apply merge_disjoint.
Qed.

Lemma merge_rule_functional (streamed final r1 r2 : string) :
  merge_rule streamed final r1 -> merge_rule streamed final r2 -> r1 = r2.
Proof.
  intros H1 H2; destruct H1; destruct H2; subst;
    reflexivity || contradiction || congruence.
Qed.

(** C1.  [mergeTexts(streamed, final)] is exactly the result the case rule
    of the specification prescribes (final empty: streamed; streamed empty:
    final; streamed ends with final: streamed; final ends with streamed:
    final; otherwise streamed + "\n" + final), and so it is always one of
    streamed, final, streamed + "\n" + final. *)
Theorem mergeTexts_case_rule (streamed final : string) :
  (forall r, merge_rule streamed final r <-> r = mergeTexts streamed final)
  /\ (mergeTexts streamed final = streamed
      \/ mergeTexts streamed final = final
      \/ mergeTexts streamed final = streamed ++ nl ++ final).
Proof.
  split.
  - intros r; split.
    + intros H. eapply merge_rule_functional; [exact H|].
      apply mergeTexts_follows_rule.
    + intros ->. apply mergeTexts_follows_rule.
  - destruct (mergeTexts_follows_rule streamed final); auto.
Qed.

(** C8.  Merging a text with itself gives the text back. *)
Theorem mergeTexts_idempotent (s : string) : mergeTexts s s = s.
Proof.
  unfold mergeTexts.
  destruct (truthy s); simpl; [|reflexivity].
  now rewrite endsWith_refl.
Qed.

(** The scenarios of the specification and of the unit tests. *)
Example mergeTexts_suffix_scenario :
  mergeTexts ("intro" ++ nl ++ "final") "final" = "intro" ++ nl ++ "final".
Proof. reflexivity. Qed.

Example mergeTexts_empty_streamed_scenario : mergeTexts "" "final" = "final".
Proof. reflexivity. Qed.

Example mergeTexts_disjoint_scenario :
  mergeTexts "looking..." "found" = "looking..." ++ nl ++ "found".
Proof. reflexivity. Qed.

End MergeTexts.

(* ===================================================================== *)
(** * A session as a transition system                                     *)
(* ===================================================================== *)

Module Session.
Import PersistentRunner.
#[local] Open Scope Z_scope.

(** Everything that can happen to one runner: the public methods, and the
    callbacks Node invokes (stdout data, the request timer, the child's
    'close' and 'error' events).  Events that read the clock carry its
    value. *)
Inductive Event : Type :=
| ERun (now : Z) (prompt : string) (options : option RunOptions.t)
| ERunStream (now : Z) (prompt : string) (callbacks : StreamCallbacks.t)
    (options : option RunOptions.t)
| EStdout (now : Z) (json : Json)
| ETimeout (now : Z) (i : nat)
| EClose (now : Z) (code : option Z)
| EProcessError (err : string)
| ECancel (now : Z)
| EShutdown
| EResetCircuitBreaker.

(** The timer of request [i] fires only while it is armed; firing
    disarms it. *)
Definition fire_timer (now : Z) (i : nat) : M unit :=
  s <- get ;;
  if List.existsb (Nat.eqb i) (timers s) then
    modify (fun s => set_timers (List.remove Nat.eq_dec i (timers s)) s) ;;
    onTimeout now
  else ret tt.

(** The state after an event.  An exception that escapes a callback or a
    method leaves the runner in the state reached at the throw. *)
Definition fire (e : Event) (s : t) : t :=
  match e with
  | ERun now prompt options => state_of (run now prompt options s)
  | ERunStream now prompt callbacks options =>
      state_of (runStream now prompt callbacks options s)
  | EStdout now json => state_of (handleJsonMessage now json s)
  | ETimeout now i => state_of (fire_timer now i s)
  | EClose now code => state_of (onClose code now s)
  | EProcessError err => state_of (onProcessError err s)
  | ECancel now => state_of (cancel now s)
  | EShutdown => state_of (shutdown s)
  | EResetCircuitBreaker => state_of (resetCircuitBreaker s)
  end.

Definition fire_all (es : list Event) (s : t) : t := List.fold_left (fun s e => fire e s) es s.

(** The reading of the clock an event makes, if it makes one. *)
Definition clock (e : Event) : option Z :=
  match e with
  | ERun now _ _ | ERunStream now _ _ _ | EStdout now _ | ETimeout now _
  | EClose now _ | ECancel now => Some now
  | EProcessError _ | EShutdown | EResetCircuitBreaker => None
  end.

Definition is_shutdown (e : Event) : bool :=
  match e with EShutdown => true | _ => false end.

(** [getCircuitBreakerStatus().open] *)
Definition breaker_open (now : Z) (s : t) : bool :=
  open (getCircuitBreakerStatus now s).

(** The breaker is closed whenever an event of [es] reads the clock. *)
Fixpoint breaker_stays_closed (es : list Event) (s : t) : Prop :=
  match es with
  | [] => True
  | e :: es' =>
      match clock e with
      | Some now => breaker_open now s = false
      | None => True
      end /\ breaker_stays_closed es' (fire e s)
  end.

(** [ensureProcess] has to start a process: none is held, or the one held
    is not alive. *)
Definition needs_process (s : t) : bool :=
  negb (isSome (process s) && processAlive s).

(** The promises settled so far, the latest first: the [resolve] and
    [reject] calls of the log. *)
Definition settle_id (e : Effect) : list nat :=
  match e with
  | Resolve i _ => [i]
  | Reject i _ => [i]
  | _ => []
  end.

Definition settled_ids (l : list Effect) : list nat := List.flat_map settle_id l.

(** The numbers of the promises in the order in which they were settled. *)
Definition settlement_order (s : t) : list nat := List.rev (settled_ids (log s)).

Definition spawns (l : list Effect) : list nat :=
  List.flat_map (fun e => match e with Spawn p _ => [p] | _ => [] end) l.

(** What the ordering argument sees of a runner. *)
Record View : Type := mkView
  { v_queue : list nat;
    v_cur : option nat;
    v_settled : list nat;
    v_next : nat }.

Definition view (s : t) : View :=
  {| v_queue := List.map id (queue s);
     v_cur := option_map id (currentItem s);
     v_settled := settled_ids (log s);
     v_next := nextReq s |}.

(** Request [i] is in flight: its promise exists, it has left the queue
    and its promise is not settled. *)
Definition in_flight (s : t) (i : nat) : Prop :=
  (i < nextReq s)%nat /\ ~ In i (List.map id (queue s))
  /\ ~ In i (settled_ids (log s)).

Ltac mstep :=
  cbv [bind ret get modify emit when throw with_current item_reject
       item_resolve clearTimeout call_onError call_onComplete call_onText
       kill_process promise_executor] in *.

(** ** ensureProcess and processNext *)

Definition spawned (s : t) : t :=
  set_processAlive true
    (set_process (Some (nextPid s))
       (set_log (Spawn (nextPid s) (spawn_args (cfg s)) :: log s)
          (set_nextPid (S (nextPid s)) s))).

Lemma ensureProcess_open (now : Z) (s : t) :
  needs_process s = true ->
  breaker_open now s = true ->
  ensureProcess now s
  = Throw (CircuitOpenCooldown (crashCount s) (now - lastCrashTime s)) s.
Proof.
  unfold needs_process, breaker_open, getCircuitBreakerStatus,
    ensureProcess, ensureProcess_start; simpl.
  intros Hn Ho. apply andb_prop in Ho as [H1 H2]. mstep.
  destruct (process s); [destruct (processAlive s); [discriminate|]|];
    rewrite H1, H2; reflexivity.
Qed.

Lemma ensureProcess_cooled_down (now : Z) (s : t) :
  needs_process s = true ->
  MAX_CRASHES <= crashCount s ->
  CRASH_WINDOW_MS <= now - lastCrashTime s ->
  ensureProcess now s = Ret (nextPid s) (spawned (set_crashCount 0 s)).
Proof.
  unfold needs_process, ensureProcess, ensureProcess_start; simpl.
  intros Hn H1 H2. apply Z.leb_le in H1. apply Z.ltb_ge in H2. mstep.
  destruct (process s); [destruct (processAlive s); [discriminate|]|];
    rewrite H1, H2; reflexivity.
Qed.

Lemma ensureProcess_below_threshold (now : Z) (s : t) :
  needs_process s = true ->
  crashCount s < MAX_CRASHES ->
  ensureProcess now s = Ret (nextPid s) (spawned s).
Proof.
  unfold needs_process, ensureProcess, ensureProcess_start; simpl.
  intros Hn H1. apply Z.leb_gt in H1. mstep.
  destruct (process s); [destruct (processAlive s); [discriminate|]|];
    rewrite H1; reflexivity.
Qed.

Lemma ensureProcess_reuse (now : Z) (s : t) (p : nat) :
  process s = Some p -> processAlive s = true ->
  ensureProcess now s = Ret p s.
Proof.
  unfold ensureProcess. mstep. intros -> ->. reflexivity.
Qed.

Lemma breaker_open_iff (now : Z) (s : t) :
  breaker_open now s = true
  <-> MAX_CRASHES <= crashCount s /\ now - lastCrashTime s < CRASH_WINDOW_MS.
Proof.
  unfold breaker_open, getCircuitBreakerStatus; simpl.
  rewrite andb_true_iff, Z.leb_le, Z.ltb_lt. tauto.
Qed.

(** A request that arrives while the breaker is open and nothing is in
    flight is rejected from inside the promise executor; no process is
    started. *)
Lemma enqueue_rejected_when_open (now : Z) (s : t) (prompt : string)
    (options : option RunOptions.t) (callbacks : option StreamCallbacks.t) :
  needs_process s = true -> breaker_open now s = true -> currentItem s = None ->
  exists s',
    enqueue now prompt options callbacks s = Ret (nextReq s) s'
    /\ log s'
       = Reject (nextReq s)
           (CircuitOpenCooldown (crashCount s) (now - lastCrashTime s)) :: log s
    /\ process s' = process s /\ processAlive s' = processAlive s
    /\ nextPid s' = nextPid s.
Proof.
  intros Hn Ho Hc.
  unfold enqueue, processNext.
  cbv [bind get modify ret promise_executor]. simpl. rewrite Hc. simpl.
  destruct (queue s) as [|hd tl]; simpl;
    (rewrite ensureProcess_open; [|assumption|assumption]); simpl;
    (eexists; split; [reflexivity|]); simpl; auto.
Qed.

(** Three crashes of a freshly created runner, as the tests provoke them. *)
Definition sample_config : Config :=
  {| model := None; timeoutMs := 300000; workdir := None;
     skipPermissions := false; systemPrompt := "system prompt" |}.

Definition three_crashes : list Event :=
  [ERun 0 "one" None; EClose 10 (Some 1);
   ERun 20 "two" None; EClose 30 (Some 1);
   ERun 40 "three" None; EClose 50 (Some 1)].

Definition tripped : t := Eval vm_compute in fire_all three_crashes (new sample_config).

(** C4.  Let the crash counter have reached [MAX_CRASHES] = 3 and let the
    runner need a process.  While the last crash is less than 60000 ms
    old, [ensureProcess] throws the circuit-open error and changes nothing,
    and a [run] or [runStream] that is dispatched at once (nothing in
    flight) has its promise rejected with that error, no process being
    spawned.  Once 60000 ms or more have passed since the last crash,
    [ensureProcess] resets the counter to zero and spawns. *)
Theorem circuit_breaker_refuses_then_resets (s : t) (now : Z) :
  needs_process s = true ->
  MAX_CRASHES <= crashCount s ->
  (now - lastCrashTime s < CRASH_WINDOW_MS ->
     let error := CircuitOpenCooldown (crashCount s) (now - lastCrashTime s) in
     ensureProcess now s = Throw error s
     /\ (currentItem s = None ->
         (forall prompt options, exists s',
            run now prompt options s = Ret (nextReq s) s'
            /\ log s' = Reject (nextReq s) error :: log s
            /\ process s' = process s /\ processAlive s' = processAlive s)
         /\ (forall prompt callbacks options, exists s',
            runStream now prompt callbacks options s = Ret (nextReq s) s'
            /\ log s' = Reject (nextReq s) error :: log s
            /\ process s' = process s /\ processAlive s' = processAlive s)))
  /\ (CRASH_WINDOW_MS <= now - lastCrashTime s ->
      exists s',
        ensureProcess now s = Ret (nextPid s) s'
        /\ crashCount s' = 0
        /\ process s' = Some (nextPid s) /\ processAlive s' = true
        /\ log s' = Spawn (nextPid s) (spawn_args (cfg s)) :: log s).
Proof.
  intros Hn Hc. split.
  - intros Hw error.
    assert (Ho : breaker_open now s = true) by (apply breaker_open_iff; auto).
    split; [now apply ensureProcess_open|].
    intros Hcur. split.
    + intros prompt options.
      destruct (enqueue_rejected_when_open now s prompt options None Hn Ho Hcur)
        as (s' & E & L & P & A & _).
      exists s'. auto.
    + intros prompt callbacks options.
      destruct (enqueue_rejected_when_open now s prompt options (Some callbacks)
                  Hn Ho Hcur) as (s' & E & L & P & A & _).
      exists s'. auto.
  - intros Hw. eexists. split; [now apply ensureProcess_cooled_down|].
    simpl. auto.
Qed.

Lemma circuit_breaker_refuses_then_resets_witness :
  crashCount tripped = 3
  /\ ensureProcess 60 tripped = Throw (CircuitOpenCooldown 3 10) tripped
  /\ (exists s', ensureProcess 60050 tripped = Ret 3%nat s' /\ crashCount s' = 0).
Proof.
  split; [reflexivity|]. split.
  - exact (proj1 (proj1 (circuit_breaker_refuses_then_resets tripped 60
                           eq_refl ltac:(vm_compute; discriminate))
                    eq_refl)).
  - destruct (proj2 (circuit_breaker_refuses_then_resets tripped 60050
                       eq_refl ltac:(vm_compute; discriminate))
                ltac:(vm_compute; discriminate))
      as (s' & E & C & _).
    exists s'. split; assumption.
Defined.

(** ** The view of a state after each operation

    Each handler changes the view by a composition of five moves. *)

Definition v_shift (v : View) : View :=
  match v_cur v, v_queue v with
  | None, i :: r => mkView r (Some i) (v_settled v) (v_next v)
  | _, _ => v
  end.
Definition v_settle_cur (v : View) : View :=
  match v_cur v with
  | Some i => mkView (v_queue v) None (i :: v_settled v) (v_next v)
  | None => v
  end.
Definition v_push (v : View) : View :=
  mkView (v_queue v ++ [v_next v])%list (v_cur v) (v_settled v) (S (v_next v)).
Definition v_reject_queue (v : View) : View :=
  mkView [] (v_cur v) (rev (v_queue v) ++ v_settled v)%list (v_next v).
Definition v_reject (i : nat) (v : View) : View :=
  mkView (v_queue v) (v_cur v) (i :: v_settled v) (v_next v).

Definition returns {A} (r : Res A) : bool := match r with Ret _ _ => true | Throw _ _ => false end.

Lemma ensureProcess_view now s : view (state_of (ensureProcess now s)) = view s.
Proof.
  unfold ensureProcess, ensureProcess_start. mstep.
  destruct (process s); [destruct (processAlive s)|]; simpl; try reflexivity;
  destruct (MAX_CRASHES <=? crashCount s); simpl; try reflexivity;
  destruct (now - lastCrashTime s <? CRASH_WINDOW_MS); simpl; reflexivity.
Qed.

Lemma ensureProcess_returns now s : breaker_open now s = false -> returns (ensureProcess now s) = true.
Proof.
  unfold breaker_open, getCircuitBreakerStatus, ensureProcess, ensureProcess_start; simpl. mstep.
  intros H.
  destruct (process s); [destruct (processAlive s)|]; simpl; try reflexivity;
  destruct (MAX_CRASHES <=? crashCount s); simpl in *; try reflexivity;
  rewrite H; reflexivity.
Qed.

Lemma ensureProcess_returns_below now s : crashCount s < MAX_CRASHES -> returns (ensureProcess now s) = true.
Proof.
  intros H. apply ensureProcess_returns. unfold breaker_open, getCircuitBreakerStatus; simpl.
  apply Z.leb_gt in H. now rewrite H.
Qed.

Lemma processNext_view now s : view (state_of (processNext now s)) = v_shift (view s).
Proof.
  unfold processNext. mstep. unfold v_shift. simpl.
  destruct (currentItem s) as [c|] eqn:Hc; simpl; [reflexivity|].
  destruct (queue s) as [|it rest] eqn:Hq; simpl; [unfold view; now rewrite Hc, Hq|].
  match goal with |- context [ensureProcess now ?X] =>
    pose proof (ensureProcess_view now X) as Hv; destruct (ensureProcess now X) as [p s'|e s'] end;
  simpl in *; unfold view in *; simpl in *; injection Hv as H1 H2 H3 H4.
  - rewrite H1, H3, H4. f_equal. destruct (currentItem s'); simpl in *; congruence.
  - now rewrite H1, H2, H3, H4.
Qed.

Lemma processNext_returns now s : breaker_open now s = false -> returns (processNext now s) = true.
Proof.
  intros H. unfold processNext. mstep.
  destruct (currentItem s) as [c|] eqn:Hc; simpl; [reflexivity|].
  destruct (queue s) as [|it rest] eqn:Hq; simpl; [reflexivity|].
  match goal with |- context [ensureProcess now ?X] =>
    pose proof (ensureProcess_returns now X H) as Hv; destruct (ensureProcess now X) as [p s'|e s'] end; 
  simpl in *; congruence.
Qed.

Lemma enqueue_view now prompt options callbacks s :
  view (state_of (enqueue now prompt options callbacks s)) = v_shift (v_push (view s))
  \/ view (state_of (enqueue now prompt options callbacks s)) = v_reject (nextReq s) (v_shift (v_push (view s))).
Proof.
  unfold enqueue. mstep.
  match goal with |- context [processNext now ?X] =>
    pose proof (processNext_view now X) as Hv; destruct (processNext now X) as [p s'|e s'] end;
  simpl in *.
  - left. rewrite Hv. unfold v_push, view. simpl. now rewrite map_app.
  - right. unfold v_reject. unfold view at 1. simpl.
    replace (v_shift (v_push (view s))) with (view s').
    + reflexivity.
    + rewrite Hv. unfold v_push, view. simpl. now rewrite map_app.
Qed.

Lemma enqueue_view_closed now prompt options callbacks s :
  breaker_open now s = false ->
  view (state_of (enqueue now prompt options callbacks s)) = v_shift (v_push (view s)).
Proof.
  intros H. unfold enqueue. mstep.
  match goal with |- context [processNext now ?X] =>
    pose proof (processNext_view now X) as Hv; pose proof (processNext_returns now X H) as Hr; destruct (processNext now X) as [p s'|e s'] end;
  simpl in *; [|discriminate].
  rewrite Hv. unfold v_push, view. simpl. now rewrite map_app.
Qed.

(** [item.reject(e)] and [item.resolve(r)] as state transformers. *)
Definition rejected (it : QueueItem) (e : Error) (s : t) : t := state_of (item_reject it e s).
Definition resolved (it : QueueItem) (r : RunResult.t) (s : t) : t := state_of (item_resolve it r s).

Lemma item_reject_ret it e s : item_reject it e s = Ret tt (rejected it e s).
Proof. unfold rejected. mstep. destruct (wrapped it); reflexivity. Qed.

Lemma rejected_view it e s : view (rejected it e s) = v_reject (id it) (view s).
Proof. unfold rejected. mstep. destruct (wrapped it); reflexivity. Qed.

Fixpoint rejected_all (l : list QueueItem) (e : Error) (s : t) : t :=
  match l with
  | [] => s
  | it :: l' => rejected_all l' e (rejected it e s)
  end.

Lemma for_each_reject l e : forall s,
  for_each l (fun item => item_reject item e) s = Ret tt (rejected_all l e s).
Proof.
  induction l as [|it l IH]; intros s; simpl; [reflexivity|].
  unfold bind. rewrite item_reject_ret. apply IH.
Qed.

Lemma rejected_all_view l e : forall s,
  view (rejected_all l e s)
  = mkView (v_queue (view s)) (v_cur (view s)) (rev (map id l) ++ v_settled (view s))%list (v_next (view s)).
Proof.
  induction l as [|it l IH]; intros s; simpl; [reflexivity|].
  rewrite IH, rejected_view. simpl. now rewrite <- app_assoc.
Qed.

Lemma handle_block_view b s : returns (handle_block b s) = true /\ view (state_of (handle_block b s)) = view s.
Proof.
  unfold handle_block. mstep.
  destruct (text b) as [txt|]; simpl; [|auto].
  destruct (String.eqb (btype b) "text" && truthy txt); simpl; [|auto].
  destruct (currentItem s) as [c|] eqn:Hc; simpl; [|auto].
  destruct (callbacks c) as [cb|]; simpl; [|auto].
  destruct (StreamCallbacks.onText cb); simpl; auto.
Qed.

Lemma for_each_blocks_view l : forall s,
  returns (for_each l handle_block s) = true /\ view (state_of (for_each l handle_block s)) = view s.
Proof.
  induction l as [|b l IH]; intros s; simpl; [auto|].
  unfold bind. destruct (handle_block_view b s) as [Hr Hv].
  destruct (handle_block b s) as [u s'|e s']; [|discriminate]. simpl in Hv.
  rewrite <- Hv. apply IH.
Qed.

Lemma store_session_id_ret json s : exists s', store_session_id json s = Ret tt s' /\ view s' = view s
  /\ crashCount s' = crashCount s /\ lastCrashTime s' = lastCrashTime s.
Proof.
  unfold store_session_id. mstep. destruct (session_id json) as [sid|]; [destruct (truthy sid)|]; simpl; eauto.
Qed.

Lemma handleJsonMessage_view now json s :
  view (state_of (handleJsonMessage now json s))
  = if String.eqb (type json) "result" then v_shift (v_settle_cur (view s)) else view s.
Proof.
  unfold handleJsonMessage.
  unfold bind at 1. unfold when at 1.
  assert (H1 : exists s1, (if String.eqb (type json) "system" then store_session_id json else ret tt) s = Ret tt s1 /\ view s1 = view s).
  { destruct (String.eqb (type json) "system"); [|unfold ret; eauto].
    destruct (store_session_id_ret json s) as (s' & E & V & _). eauto. }
  destruct H1 as (s1 & E1 & V1). rewrite E1. rewrite <- V1. clear E1 V1 s.
  unfold bind at 1. unfold when at 1.
  assert (H2 : exists s2, (if String.eqb (type json) "assistant" then match content json with Some blocks => for_each blocks handle_block | None => ret tt end else ret tt) s1 = Ret tt s2 /\ view s2 = view s1).
  { destruct (String.eqb (type json) "assistant"); [|unfold ret; eauto].
    destruct (content json) as [bl|]; [|unfold ret; eauto].
    destruct (for_each_blocks_view bl s1) as [Hr Hv].
    destruct (for_each bl handle_block s1) as [[] s'|]; [|discriminate]. eauto. }
  destruct H2 as (s2 & E2 & V2). rewrite E2. rewrite <- V2. clear E2 V2 s1.
  unfold when. destruct (String.eqb (type json) "result"); [|reflexivity].
  unfold bind at 1.
  destruct (store_session_id_ret json s2) as (s3 & E3 & V3 & _). rewrite E3. rewrite <- V3. clear E3 V3 s2.
  mstep.
  destruct (is_error json); simpl.
  - destruct (currentItem s3) as [c|] eqn:Hc; simpl.
    + destruct (callbacks c) as [cb|]; [destruct (StreamCallbacks.onError cb)|]; simpl; rewrite ?Hc; simpl;
        destruct (wrapped c); simpl; rewrite processNext_view; unfold view, v_settle_cur; simpl; rewrite Hc; reflexivity.
    + rewrite Hc. simpl. rewrite processNext_view. unfold view, v_settle_cur; simpl; rewrite Hc; reflexivity.
  - destruct (result json) as [r|]; [destruct (truthy r)|]; simpl;
    (destruct (currentItem s3) as [c|] eqn:Hc; simpl;
      [ destruct (callbacks c) as [cb|]; [destruct (StreamCallbacks.onComplete cb)|]; simpl; rewrite ?Hc; simpl;
        destruct (wrapped c); simpl; rewrite processNext_view; unfold view, v_settle_cur; simpl; rewrite Hc; reflexivity
      | rewrite ?Hc; simpl; rewrite processNext_view; unfold view, v_settle_cur; simpl; rewrite Hc; reflexivity ]).
Qed.

Lemma v_shift_nil v : v_queue v = [] -> v_shift v = v.
Proof. unfold v_shift. intros ->. now destruct (v_cur v). Qed.

Lemma settle_current_view (e : Error) (s : t) :
  exists s', with_current (fun item => item_reject item e ;; modify (set_currentItem None)) s = Ret tt s'
    /\ view s' = v_settle_cur (view s)
    /\ crashCount s' = crashCount s /\ lastCrashTime s' = lastCrashTime s /\ queue s' = queue s.
Proof.
  mstep. destruct (currentItem s) as [c|] eqn:Hc; simpl.
  - destruct (wrapped c); simpl; eexists; (split; [reflexivity|]); unfold view, v_settle_cur; simpl; rewrite Hc; auto.
  - eexists; split; [reflexivity|]. unfold view, v_settle_cur; simpl; rewrite Hc; auto.
Qed.

Lemma onTimeout_view now s :
  view (state_of (onTimeout now s))
  = match currentItem s with Some _ => v_shift (v_settle_cur (view s)) | None => view s end.
Proof.
  unfold onTimeout. mstep.
  destruct (currentItem s) as [c|] eqn:Hc; simpl; [|reflexivity].
  destruct (callbacks c) as [cb|]; [destruct (StreamCallbacks.onError cb)|]; simpl;
    destruct (wrapped c); simpl; destruct (process s); simpl;
    rewrite processNext_view; unfold view, v_settle_cur; simpl; rewrite Hc; reflexivity.
Qed.

Lemma fire_timer_view now i s :
  view (state_of (fire_timer now i s)) = view s
  \/ view (state_of (fire_timer now i s)) = v_shift (v_settle_cur (view s)).
Proof.
  unfold fire_timer. cbv [bind get modify].
  destruct (existsb (Nat.eqb i) (timers s)); [|left; reflexivity].
  rewrite onTimeout_view. simpl.
  destruct (currentItem s); [right|left]; reflexivity.
Qed.

Lemma onProcessError_view err s :
  view (state_of (onProcessError err s)) = v_settle_cur (view s).
Proof.
  unfold onProcessError. unfold bind at 1 2. unfold modify at 1 2.
  match goal with |- context [with_current ?f ?X] =>
    destruct (settle_current_view (ProcessError err) X) as (s' & E & V & _) end.
  rewrite E. simpl. rewrite V. reflexivity.
Qed.

Lemma onClose_view code now s :
  view (state_of (onClose code now s))
  = if shuttingDown s then view s
    else if cancelling s then v_shift (view s)
    else if crashCount s + 1 <? MAX_CRASHES then v_shift (v_settle_cur (view s))
    else v_reject_queue (v_settle_cur (view s)).
Proof.
  unfold onClose. unfold bind at 1. unfold get at 1.
  unfold bind at 1 2 3. unfold modify at 1 2 3.
  destruct (shuttingDown s) eqn:Hsd; [reflexivity|].
  destruct (cancelling s) eqn:Hca.
  - unfold bind, modify, get, when. simpl.
    destruct (queue s) as [|q qs] eqn:Hq; simpl.
    + rewrite v_shift_nil; [reflexivity|]. unfold view; simpl. now rewrite Hq.
    + rewrite processNext_view. reflexivity.
  - unfold bind at 1 2. unfold modify at 1 2.
    unfold bind at 1.
    match goal with |- context [with_current ?f ?X] =>
      destruct (settle_current_view (ProcessExited code) X) as (s' & E & V & C & L & Q) end.
    rewrite E. simpl in V, C, L, Q.
    unfold bind at 1. unfold get at 1. rewrite C, Q.
    replace (v_settle_cur (view s)) with (view s') by (rewrite V; reflexivity).
    destruct (crashCount s + 1 <? MAX_CRASHES) eqn:Hlt.
    + rewrite andb_true_r.
      destruct (queue s) as [|q qs] eqn:Hq; simpl.
      * apply Z.ltb_lt in Hlt. apply Z.leb_gt in Hlt. rewrite Hlt. unfold ret. simpl.
        rewrite v_shift_nil; [reflexivity|]. unfold view; simpl. now rewrite Q.
      * now rewrite processNext_view.
    + rewrite andb_false_r.
      apply Z.ltb_ge in Hlt. apply Z.leb_le in Hlt. rewrite Hlt.
      unfold bind. rewrite for_each_reject. unfold modify. simpl.
      pose proof (rejected_all_view (queue s) CircuitOpenQueued s') as HV.
      unfold view in HV |- *. simpl in *. injection HV as H1 H2 H3 H4.
      unfold v_reject_queue. simpl. rewrite H2, H3, H4, Q. reflexivity.
Qed.

Lemma cancel_view now s :
  view (state_of (cancel now s))
  = match currentItem s, process s with
    | None, _ => view s
    | Some _, Some _ => v_settle_cur (view s)
    | Some _, None => v_shift (v_settle_cur (view s))
    end.
Proof.
  unfold cancel. mstep.
  destruct (currentItem s) as [c|] eqn:Hc; simpl; [|reflexivity].
  destruct (callbacks c) as [cb|]; [destruct (StreamCallbacks.onError cb)|]; simpl;
    destruct (wrapped c); simpl; destruct (process s); simpl;
    try (unfold view, v_settle_cur; simpl; rewrite Hc; reflexivity);
    match goal with |- context [processNext now ?X] =>
      pose proof (processNext_view now X) as HV; destruct (processNext now X) end;
    simpl in *; rewrite HV; unfold view, v_settle_cur; simpl; rewrite Hc; reflexivity.
Qed.

Lemma shutdown_view s :
  view (state_of (shutdown s))
  = match process s with
    | Some _ => v_settle_cur (v_reject_queue (view s))
    | None => view s
    end.
Proof.
  unfold shutdown. unfold bind at 1. unfold get at 1.
  destruct (process s) as [p|]; [|reflexivity].
  unfold bind at 1 2 3 4. unfold modify at 1. unfold emit at 1. unfold modify at 1.
  unfold kill_process. unfold bind at 1 2 3. unfold emit at 1. unfold modify at 1 2 3 4.
  unfold get at 1. unfold bind at 1. rewrite for_each_reject.
  unfold bind at 1. unfold modify at 1.
  match goal with |- context [with_current ?f ?X] =>
      destruct (settle_current_view ShuttingDown X) as (s' & E & V & _) end.
  rewrite E. simpl state_of. rewrite V. f_equal.
  match goal with |- view (set_queue [] (rejected_all ?l ?e ?X)) = _ =>
    pose proof (rejected_all_view l e X) as HV end.
  unfold view in HV |- *. simpl in *. injection HV as H1 H2 H3 H4.
  unfold v_reject_queue. simpl. rewrite H2, H3, H4. reflexivity.
Qed.

Lemma resetCircuitBreaker_view s : view (state_of (resetCircuitBreaker s)) = view s.
Proof. reflexivity. Qed.

(** ** Invariants of the view *)

(** The requests that are not done, oldest first. *)
Definition pending (v : View) : list nat :=
  match v_cur v with
  | Some i => i :: v_queue v
  | None => v_queue v
  end.

Definition descending : nat -> nat -> Prop := fun a b => (b < a)%nat.

Record ordered (v : View) : Prop := mkOrdered
  { ord_pending : StronglySorted Nat.lt (pending v);
    ord_fresh : Forall (fun i => (i < v_next v)%nat) (pending v);
    ord_settled : StronglySorted descending (v_settled v);
    ord_before : Forall (fun j => Forall (Nat.lt j) (pending v)) (v_settled v);
    ord_old : Forall (fun j => (j < v_next v)%nat) (v_settled v) }.

Definition accounted (v : View) : Prop :=
  forall i, (i < v_next v)%nat ->
    In i (v_queue v) \/ In i (v_settled v) \/ v_cur v = Some i.

Lemma sorted_app {A} (R : A -> A -> Prop) (l1 l2 : list A) :
  StronglySorted R l1 -> StronglySorted R l2 ->
  (forall x y, In x l1 -> In y l2 -> R x y) ->
  StronglySorted R (l1 ++ l2).
Proof.
  induction l1 as [|a l1 IH]; simpl; intros H1 H2 H; [assumption|].
  apply StronglySorted_inv in H1 as [H1 Ha].
  constructor.
  - apply IH; auto.
  - apply Forall_app. split; [assumption|].
    apply Forall_forall. intros y Hy. apply H; auto.
Qed.

Lemma sorted_rev {A} (R : A -> A -> Prop) (l : list A) :
  StronglySorted R l -> StronglySorted (fun a b => R b a) (rev l).
Proof.
  induction l as [|a l IH]; simpl; intros H; [constructor|].
  apply StronglySorted_inv in H as [H Ha].
  apply sorted_app; [auto|repeat constructor|].
  intros x y Hx [<-|[]]. apply in_rev in Hx.
  rewrite Forall_forall in Ha. auto.
Qed.

Lemma pending_shift v : pending (v_shift v) = pending v.
Proof. destruct v as [[|q r] [i|] st n]; reflexivity. Qed.

Lemma ordered_shift v : ordered v -> ordered (v_shift v).
Proof.
  intros [H1 H2 H3 H4 H5].
  assert (v_settled (v_shift v) = v_settled v /\ v_next (v_shift v) = v_next v) as [E1 E2]
    by (destruct v as [[|q r] [i|] st n]; auto).
  constructor; rewrite ?pending_shift, ?E1, ?E2; assumption.
Qed.

Lemma pending_push v : pending (v_push v) = (pending v ++ [v_next v])%list.
Proof. destruct v as [q [i|] st n]; reflexivity. Qed.

Lemma ordered_push v : ordered v -> ordered (v_push v).
Proof.
  intros [H1 H2 H3 H4 H5].
  constructor; rewrite ?pending_push; simpl.
  - apply sorted_app; [assumption|repeat constructor|].
    intros x y Hx [<-|[]]. rewrite Forall_forall in H2. now apply H2.
  - apply Forall_app. split.
    + eapply Forall_impl; [|exact H2]. simpl. intros; lia.
    + repeat constructor.
  - assumption.
  - rewrite Forall_forall in *. intros j Hj. apply Forall_app. split; [auto|].
    repeat constructor. unfold Nat.lt. auto.
  - eapply Forall_impl; [|exact H5]. simpl. intros; lia.
Qed.

Lemma ordered_settle_cur v : ordered v -> ordered (v_settle_cur v).
Proof.
  intros [H1 H2 H3 H4 H5]. unfold v_settle_cur, pending in *.
  destruct (v_cur v) as [i|] eqn:Hc; [|constructor; unfold pending; rewrite ?Hc; assumption].
  apply StronglySorted_inv in H1 as [H1 Hi].
  apply Forall_cons_iff in H2 as [Hi2 H2].
  constructor; unfold pending; simpl; auto.
  - constructor; [assumption|].
    eapply Forall_impl; [|exact H4]. intros j Hj. now apply Forall_cons_iff in Hj as [Hj _].
  - constructor; [assumption|].
    eapply Forall_impl; [|exact H4]. intros j Hj. now apply Forall_cons_iff in Hj as [_ Hj].
Qed.

Lemma v_cur_settle_cur v : v_cur (v_settle_cur v) = None.
Proof. unfold v_settle_cur. destruct (v_cur v) eqn:E; simpl; auto. Qed.

Lemma ordered_reject_queue v : v_cur v = None -> ordered v -> ordered (v_reject_queue v).
Proof.
  intros Hc [H1 H2 H3 H4 H5]. unfold pending in *. rewrite Hc in *.
  constructor; unfold pending; simpl; rewrite ?Hc.
  - constructor.
  - constructor.
  - apply sorted_app; [|assumption|].
    + apply (sorted_rev Nat.lt). assumption.
    + intros x y Hx Hy. apply in_rev in Hx. unfold descending.
      rewrite Forall_forall in H4. specialize (H4 y Hy). rewrite Forall_forall in H4. now apply H4.
  - apply Forall_forall. intros; constructor.
  - apply Forall_app. split; [|assumption]. apply Forall_rev. assumption.
Qed.

Lemma accounted_shift v : accounted v -> accounted (v_shift v).
Proof.
  destruct v as [[|q r] [c|] st n]; unfold accounted, v_shift; simpl;
    intros H i Hi; auto.
  destruct (H i Hi) as [[<-|H']|[H'|H']]; auto; discriminate.
Qed.

Lemma accounted_settle_cur v : accounted v -> accounted (v_settle_cur v).
Proof.
  destruct v as [q [c|] st n]; unfold accounted, v_settle_cur; simpl;
    intros H i Hi; auto.
  destruct (H i Hi) as [H'|[H'|H']]; auto. injection H' as ->. auto.
Qed.

Lemma accounted_push v : accounted v -> accounted (v_push v).
Proof.
  unfold accounted, v_push. simpl. intros H i Hi.
  destruct (Nat.eq_dec i (v_next v)) as [->|Hne].
  - left. apply in_or_app. right. now left.
  - destruct (H i ltac:(lia)) as [H'|[H'|H']]; auto. left. apply in_or_app. auto.
Qed.

Lemma accounted_reject_queue v : accounted v -> accounted (v_reject_queue v).
Proof.
  unfold accounted, v_reject_queue. simpl. intros H i Hi.
  destruct (H i Hi) as [H'|[H'|H']]; auto; right; left; apply in_or_app; [left; now apply -> in_rev|auto].
Qed.

Lemma accounted_reject j v : accounted v -> accounted (v_reject j v).
Proof.
  unfold accounted, v_reject. simpl. intros H i Hi.
  destruct (H i Hi) as [H'|[H'|H']]; auto.
Qed.

Lemma fire_accounted e s : accounted (view s) -> accounted (view (fire e s)).
Proof.
  intros H. destruct e as [now p o|now p cb o|now json|now i|now code|err|now| |]; simpl.
  - destruct (enqueue_view now p o None s) as [E|E]; unfold run; rewrite E;
      auto using accounted_shift, accounted_push, accounted_reject.
  - destruct (enqueue_view now p o (Some cb) s) as [E|E]; unfold runStream; rewrite E;
      auto using accounted_shift, accounted_push, accounted_reject.
  - rewrite handleJsonMessage_view. destruct (String.eqb (type json) "result");
      auto using accounted_shift, accounted_settle_cur.
  - destruct (fire_timer_view now i s) as [E|E]; rewrite E;
      auto using accounted_shift, accounted_settle_cur.
  - rewrite onClose_view.
    destruct (shuttingDown s); [assumption|].
    destruct (cancelling s); [auto using accounted_shift|].
    destruct (crashCount s + 1 <? MAX_CRASHES);
      auto using accounted_shift, accounted_settle_cur, accounted_reject_queue.
  - rewrite onProcessError_view. auto using accounted_settle_cur.
  - rewrite cancel_view. destruct (currentItem s); [destruct (process s)|];
      auto using accounted_shift, accounted_settle_cur.
  - rewrite shutdown_view. destruct (process s);
      auto using accounted_settle_cur, accounted_reject_queue.
  - assumption.
Qed.

Definition breaker_closed_at (e : Event) (s : t) : Prop :=
  match clock e with
  | Some now => breaker_open now s = false
  | None => True
  end.

Lemma fire_ordered e s :
  is_shutdown e = false -> breaker_closed_at e s ->
  ordered (view s) -> ordered (view (fire e s)).
Proof.
  intros Hs Hb H. destruct e as [now p o|now p cb o|now json|now i|now code|err|now| |]; simpl; unfold breaker_closed_at in Hb; simpl in Hb.
  - unfold run. rewrite enqueue_view_closed by assumption.
    auto using ordered_shift, ordered_push.
  - unfold runStream. rewrite enqueue_view_closed by assumption.
    auto using ordered_shift, ordered_push.
  - rewrite handleJsonMessage_view. destruct (String.eqb (type json) "result");
      auto using ordered_shift, ordered_settle_cur.
  - destruct (fire_timer_view now i s) as [E|E]; rewrite E;
      auto using ordered_shift, ordered_settle_cur.
  - rewrite onClose_view.
    destruct (shuttingDown s); [assumption|].
    destruct (cancelling s); [auto using ordered_shift|].
    destruct (crashCount s + 1 <? MAX_CRASHES);
      auto using ordered_shift, ordered_settle_cur, ordered_reject_queue, v_cur_settle_cur.
  - rewrite onProcessError_view. auto using ordered_settle_cur.
  - rewrite cancel_view. destruct (currentItem s); [destruct (process s)|];
      auto using ordered_shift, ordered_settle_cur.
  - discriminate.
  - assumption.
Qed.

Lemma fire_all_accounted es : forall s, accounted (view s) -> accounted (view (fire_all es s)).
Proof.
  induction es as [|e es IH]; intros s H; simpl; [assumption|].
  apply IH. now apply fire_accounted.
Qed.

Lemma fire_all_ordered es : forall s,
  existsb is_shutdown es = false -> breaker_stays_closed es s ->
  ordered (view s) -> ordered (view (fire_all es s)).
Proof.
  induction es as [|e es IH]; intros s Hs Hb H; simpl; [assumption|].
  simpl in Hs. apply orb_false_iff in Hs as [Hs1 Hs2]. destruct Hb as [Hb1 Hb2].
  apply IH; auto. now apply fire_ordered.
Qed.

Lemma new_ordered c : ordered (view (new c)).
Proof. constructor; simpl; constructor. Qed.

Lemma new_accounted c : accounted (view (new c)).
Proof. intros i Hi. simpl in Hi. lia. Qed.

Definition is_enqueue (e : Event) : bool :=
  match e with ERun _ _ _ | ERunStream _ _ _ _ => true | _ => false end.


Lemma v_next_shift v : v_next (v_shift v) = v_next v.
Proof. destruct v as [[|q r] [i|] st n]; reflexivity. Qed.

Lemma v_next_settle_cur v : v_next (v_settle_cur v) = v_next v.
Proof. destruct v as [q [i|] st n]; reflexivity. Qed.

Lemma fire_next e s :
  nextReq (fire e s) = if is_enqueue e then S (nextReq s) else nextReq s.
Proof.
  change (v_next (view (fire e s))
          = if is_enqueue e then S (v_next (view s)) else v_next (view s)).
  destruct e as [now p o|now p cb o|now json|now i|now code|err|now| |];
    cbn [fire is_enqueue].
  - destruct (enqueue_view now p o None s) as [E|E]; unfold run; rewrite E;
      simpl; now rewrite v_next_shift.
  - destruct (enqueue_view now p o (Some cb) s) as [E|E]; unfold runStream;
      rewrite E; simpl; now rewrite v_next_shift.
  - rewrite handleJsonMessage_view. destruct (String.eqb (type json) "result");
      now rewrite ?v_next_shift, ?v_next_settle_cur.
  - destruct (fire_timer_view now i s) as [E|E]; rewrite E;
      now rewrite ?v_next_shift, ?v_next_settle_cur.
  - rewrite onClose_view.
    destruct (shuttingDown s); [reflexivity|].
    destruct (cancelling s); [now rewrite v_next_shift|].
    destruct (crashCount s + 1 <? MAX_CRASHES); simpl;
      now rewrite ?v_next_shift, ?v_next_settle_cur.
  - rewrite onProcessError_view. now rewrite v_next_settle_cur.
  - rewrite cancel_view. destruct (currentItem s); [destruct (process s)|];
      now rewrite ?v_next_shift, ?v_next_settle_cur.
  - rewrite shutdown_view. destruct (process s);
      now rewrite ?v_next_settle_cur.
  - reflexivity.
Qed.

Lemma fire_all_next es : forall s,
  nextReq (fire_all es s) = (List.length (List.filter is_enqueue es) + nextReq s)%nat.
Proof.
  induction es as [|e es IH]; intros s; simpl; [reflexivity|].
  rewrite IH, fire_next. destruct (is_enqueue e); simpl; lia.
Qed.

(** A session in which three requests are submitted at once; the first
    process crashes under request 0, request 1 times out, the process
    killed by the timeout closes while request 2 is current. *)
Definition crash_and_timeout : list Event :=
  [ERun 0 "a" None; ERun 1 "b" None; ERun 2 "c" None;
   EClose 5 (Some 1); ETimeout 10 1; EClose 11 None].

(** Two requests, then [shutdown()]. *)
Definition shutdown_while_busy : list Event :=
  [ERun 0 "a" None; ERun 1 "b" None; EShutdown].

(** C7, as amended.  The n-th promise created by [run]/[runStream] has
    number n.  In every reachable state a request that has left the queue
    and is not settled is [currentItem], so at most one request is in
    flight.  In every history without [shutdown()] in which the breaker is
    closed whenever the clock is read, the promises are settled strictly in
    the order of their numbers, that is in enqueue order, whatever crashes,
    timeouts and cancellations occur in between. *)
Theorem one_in_flight_and_fifo_settlement (c : Config) (es : list Event) :
  let s := fire_all es (new c) in
  nextReq s = List.length (List.filter is_enqueue es)
  /\ (forall i, in_flight s i -> option_map id (currentItem s) = Some i)
  /\ (List.existsb is_shutdown es = false ->
      breaker_stays_closed es (new c) ->
      StronglySorted Nat.lt (settlement_order s)).
Proof.
  intros s. split; [|split].
  - unfold s. rewrite fire_all_next. simpl. lia.
  - intros i (Hi & Hq & Hst).
    destruct (fire_all_accounted es (new c) (new_accounted c) i Hi) as [H|[H|H]];
      [contradiction|contradiction|exact H].
  - intros Hs Hb. unfold settlement_order.
    apply (sorted_rev descending).
    apply (ord_settled _ (fire_all_ordered es (new c) Hs Hb (new_ordered c))).
Qed.

Lemma one_in_flight_and_fifo_settlement_witness :
  settlement_order (fire_all crash_and_timeout (new sample_config)) = [0; 1; 2]%nat
  /\ StronglySorted Nat.lt
       (settlement_order (fire_all crash_and_timeout (new sample_config))).
Proof.
  split; [reflexivity|].
  refine (proj2 (proj2 (one_in_flight_and_fifo_settlement sample_config
                          crash_and_timeout)) eq_refl _).
  cbv; repeat split.
Defined.

(** C7 does not hold when [shutdown()] is among the operations: with
    request 0 in flight and request 1 queued, the breaker closed,
    [shutdown()] rejects the queued request first. *)
Lemma shutdown_settles_out_of_order :
  breaker_stays_closed shutdown_while_busy (new sample_config)
  /\ settlement_order (fire_all shutdown_while_busy (new sample_config))
     = [1; 0]%nat.
Proof. split; [cbv; repeat split | reflexivity]. Qed.

(** ** Frame properties, crashes and timeouts *)

(** The fields an operation on the queue leaves alone. *)
Record same_flags (s s' : t) : Prop := mkSame
  { same_shuttingDown : shuttingDown s' = shuttingDown s;
    same_cancelling : cancelling s' = cancelling s;
    same_sessionId : sessionId s' = sessionId s;
    same_lastCrashTime : lastCrashTime s' = lastCrashTime s;
    same_cfg : cfg s' = cfg s;
    same_log : incl (log s) (log s') }.

Lemma same_flags_refl s : same_flags s s.
Proof. constructor; auto using incl_refl. Qed.

Lemma same_flags_trans s1 s2 s3 : same_flags s1 s2 -> same_flags s2 s3 -> same_flags s1 s3.
Proof.
  intros [] []. constructor; try congruence. eapply incl_tran; eassumption.
Qed.

Lemma ensureProcess_same now s : same_flags s (state_of (ensureProcess now s)).
Proof.
  unfold ensureProcess, ensureProcess_start. mstep.
  destruct (process s); [destruct (processAlive s)|]; simpl; try apply same_flags_refl;
  destruct (MAX_CRASHES <=? crashCount s); simpl; try apply same_flags_refl;
  try destruct (now - lastCrashTime s <? CRASH_WINDOW_MS); simpl; try apply same_flags_refl;
  constructor; simpl; auto using incl_tl, incl_refl.
Qed.

Lemma ensureProcess_crashCount now s :
  crashCount s < MAX_CRASHES -> crashCount (state_of (ensureProcess now s)) = crashCount s.
Proof.
  intros H. apply Z.leb_gt in H.
  unfold ensureProcess, ensureProcess_start. mstep.
  destruct (process s); [destruct (processAlive s)|]; simpl; try reflexivity;
  rewrite H; reflexivity.
Qed.

Lemma processNext_same now s : same_flags s (state_of (processNext now s)).
Proof.
  unfold processNext. mstep.
  destruct (currentItem s) as [c|] eqn:Hc; simpl; [apply same_flags_refl|].
  destruct (queue s) as [|it rest] eqn:Hq; simpl; [apply same_flags_refl|].
  match goal with |- context [ensureProcess now ?X] =>
    pose proof (ensureProcess_same now X) as Hv; destruct (ensureProcess now X) as [p s'|e s'] end;
  simpl in *; destruct Hv; constructor; simpl in *; auto using incl_tl.
Qed.

Lemma processNext_crashCount now s :
  crashCount s < MAX_CRASHES -> crashCount (state_of (processNext now s)) = crashCount s.
Proof.
  intros H. unfold processNext. mstep.
  destruct (currentItem s) as [c|] eqn:Hc; simpl; [reflexivity|].
  destruct (queue s) as [|it rest] eqn:Hq; simpl; [reflexivity|].
  match goal with |- context [ensureProcess now ?X] =>
    pose proof (ensureProcess_crashCount now X H) as Hv; destruct (ensureProcess now X) as [p s'|e s'] end;
  simpl in *; assumption.
Qed.

Lemma rejected_fields it e s :
  let s' := rejected it e s in
  cfg s' = cfg s /\ process s' = process s /\ processAlive s' = processAlive s
  /\ queue s' = queue s /\ currentItem s' = currentItem s /\ buffer s' = buffer s
  /\ sessionId s' = sessionId s /\ fullText s' = fullText s
  /\ shuttingDown s' = shuttingDown s /\ cancelling s' = cancelling s
  /\ crashCount s' = crashCount s /\ lastCrashTime s' = lastCrashTime s
  /\ nextPid s' = nextPid s /\ nextReq s' = nextReq s
  /\ incl (log s) (log s') /\ In (Reject (id it) e) (log s').
Proof.
  unfold rejected. mstep. destruct (wrapped it); simpl; repeat split; auto using incl_tl, incl_refl.
Qed.

Lemma rejected_all_fields l e : forall s,
  let s' := rejected_all l e s in
  cfg s' = cfg s /\ process s' = process s /\ processAlive s' = processAlive s
  /\ queue s' = queue s /\ currentItem s' = currentItem s /\ buffer s' = buffer s
  /\ sessionId s' = sessionId s /\ fullText s' = fullText s
  /\ shuttingDown s' = shuttingDown s /\ cancelling s' = cancelling s
  /\ crashCount s' = crashCount s /\ lastCrashTime s' = lastCrashTime s
  /\ nextPid s' = nextPid s /\ nextReq s' = nextReq s
  /\ incl (log s) (log s') /\ (forall it, In it l -> In (Reject (id it) e) (log s')).
Proof.
  induction l as [|it l IH]; intros s; simpl.
  - repeat split; auto using incl_refl. intros it [].
  - specialize (IH (rejected it e s)). simpl in IH.
    destruct (rejected_fields it e s) as (A1&A2&A3&A4&A5&A6&A7&A8&A9&A10&A11&A12&A13&A14&A15&A16).
    destruct IH as (B1&B2&B3&B4&B5&B6&B7&B8&B9&B10&B11&B12&B13&B14&B15&B16).
    repeat split; try congruence.
    + eapply incl_tran; eassumption.
    + intros it' [<-|Hin]; auto.
Qed.



(** The processes killed so far, the latest first. *)
Definition kills (l : list Effect) : list nat :=
  List.flat_map (fun e => match e with Kill p => [p] | _ => [] end) l.




Lemma cancel_idle now s : currentItem s = None -> cancel now s = Ret false s.
Proof. intros H. unfold cancel. mstep. now rewrite H. Qed.

(** What rejecting the request in flight with [e] adds to the log. *)
Definition effects_of_reject (item : QueueItem) (e : Error) : list Effect :=
  (Reject (id item) e
   :: (if wrapped item then [ClearTimeout (id item)] else [])
   ++ match callbacks item with
      | Some cb => if StreamCallbacks.onError cb then [OnError (id item) e] else []
      | None => []
      end)%list.

Lemma cancel_with_process now s item p :
  currentItem s = Some item -> process s = Some p ->
  exists s',
    cancel now s = Ret true s'
    /\ log s' = (Kill p :: effects_of_reject item CancelledByUser ++ log s)%list
    /\ queue s' = queue s /\ currentItem s' = None
    /\ cancelling s' = true /\ process s' = None /\ processAlive s' = false
    /\ crashCount s' = crashCount s.
Proof.
  intros Hc Hp. unfold cancel, effects_of_reject. mstep. rewrite Hc.
  destruct (callbacks item) as [cb|]; [destruct (StreamCallbacks.onError cb)|]; simpl;
    destruct (wrapped item); simpl; rewrite Hp; simpl;
    eexists; (split; [reflexivity|]); simpl; auto 10.
Qed.

Lemma shutdown_without_process s : process s = None -> shutdown s = Ret tt s.
Proof. intros H. unfold shutdown. mstep. now rewrite H. Qed.

Lemma shutdown_with_process s p :
  process s = Some p ->
  exists s',
    shutdown s = Ret tt s'
    /\ process s' = None /\ processAlive s' = false /\ shuttingDown s' = true
    /\ queue s' = [] /\ currentItem s' = None
    /\ In (StdinEnd p) (log s') /\ In (Kill p) (log s')
    /\ (forall item, In item (queue s) \/ currentItem s = Some item ->
          In (Reject (id item) ShuttingDown) (log s'))
    /\ crashCount s' = crashCount s /\ lastCrashTime s' = lastCrashTime s
    /\ nextReq s' = nextReq s /\ nextPid s' = nextPid s /\ cfg s' = cfg s.
Proof.
  intros Hp. unfold shutdown. unfold bind at 1. unfold get at 1. rewrite Hp.
  unfold bind at 1 2 3 4. unfold modify at 1. unfold emit at 1. unfold modify at 1.
  unfold kill_process. unfold bind at 1 2 3. unfold emit at 1. unfold modify at 1 2 3 4.
  unfold get at 1. unfold bind at 1. rewrite for_each_reject.
  unfold bind at 1. unfold modify at 1.
  match goal with |- context [rejected_all ?l ?e ?X] =>
    destruct (rejected_all_fields l e X) as (B1&B2&B3&B4&B5&B6&B7&B8&B9&B10&B11&B12&B13&B14&B15&B16);
    set (s1 := rejected_all l e X) in * end.
  simpl in B1, B2, B3, B4, B5, B6, B7, B8, B9, B10, B11, B12, B13, B14, B15, B16.
  mstep. simpl. rewrite B5.
  destruct (currentItem s) as [c|] eqn:Hc.
  - destruct (wrapped c); simpl; eexists; (split; [reflexivity|]); simpl;
      repeat split; auto;
      try (right; try right; apply B15; simpl; auto; fail);
      try (intros item [Hin|[= <-]]; [right; try right; now apply B16|left; reflexivity]).
  - simpl; eexists; (split; [reflexivity|]); simpl; repeat split; auto;
      try (apply B15; simpl; auto; fail).
    intros item [Hin|Hin]; [now apply B16|discriminate].
Qed.

Lemma ensureProcess_spawns now s :
  needs_process s = true -> breaker_open now s = false ->
  exists s',
    ensureProcess now s = Ret (nextPid s) s'
    /\ log s' = Spawn (nextPid s) (spawn_args (cfg s)) :: log s
    /\ process s' = Some (nextPid s) /\ processAlive s' = true
    /\ currentItem s' = currentItem s /\ queue s' = queue s /\ timers s' = timers s
    /\ cfg s' = cfg s.
Proof.
  intros Hn Hb.
  destruct (Z.ltb_spec (crashCount s) MAX_CRASHES) as [Hlt|Hge].
  - rewrite ensureProcess_below_threshold by assumption.
    eexists; split; [reflexivity|]. simpl; auto 10.
  - rewrite ensureProcess_cooled_down; try assumption.
    + eexists; split; [reflexivity|]. simpl; auto 10.
    + destruct (Z.ltb_spec (now - lastCrashTime s) CRASH_WINDOW_MS) as [H|H]; [|assumption].
      assert (breaker_open now s = true) by (apply breaker_open_iff; auto). congruence.
Qed.

Lemma enqueue_dispatched now prompt options callbacks s :
  currentItem s = None -> queue s = [] ->
  needs_process s = true -> breaker_open now s = false ->
  exists s',
    enqueue now prompt options callbacks s = Ret (nextReq s) s'
    /\ currentItem s' = Some (mkItem (nextReq s) prompt options callbacks true)
    /\ queue s' = []
    /\ log s' = SetTimeout (nextReq s) (timeoutMs (cfg s))
                :: StdinWrite (nextPid s) prompt
                :: Spawn (nextPid s) (spawn_args (cfg s)) :: log s.
Proof.
  intros Hc Hq Hn Hb. unfold enqueue, processNext.
  cbv [bind get modify ret promise_executor emit]. simpl. rewrite Hc, Hq. simpl.
  match goal with |- context [ensureProcess now ?X] =>
    destruct (ensureProcess_spawns now X) as (s' & E & L & P & A & C & Q & T & G);
    [exact Hn|exact Hb|] end.
  rewrite E. simpl in *.
  eexists; split; [reflexivity|]. simpl. rewrite C, Q, L, G. simpl. auto.
Qed.

(** X26.  With the breaker closed, [cancel()] on a runner with a request
    in flight returns [true], settles that request and no other, and
    leaves every queued request pending, in or behind the slot in flight. *)
Lemma cancel_in_flight_closed now s item :
  currentItem s = Some item -> breaker_open now s = false ->
  exists s',
    cancel now s = Ret true s'
    /\ v_settled (view s') = id item :: v_settled (view s)
    /\ pending (view s') = v_queue (view s).
Proof.
  intros Hc Hb.
  assert (Hr : exists s', cancel now s = Ret true s').
  { unfold cancel. mstep. rewrite Hc.
    destruct (callbacks item) as [cb|]; [destruct (StreamCallbacks.onError cb)|]; simpl;
    destruct (wrapped item); simpl; destruct (process s); simpl; eauto;
    match goal with |- context [processNext now ?X] =>
      pose proof (processNext_returns now X Hb) as Hv; destruct (processNext now X) end;
    try discriminate; eauto. }
  destruct Hr as (s' & E). exists s'. split; [assumption|].
  pose proof (cancel_view now s) as V. rewrite E, Hc in V. simpl in V.
  assert (Hs : v_settle_cur (view s) = mkView (v_queue (view s)) None (id item :: v_settled (view s)) (v_next (view s))).
  { unfold v_settle_cur, view. simpl. now rewrite Hc. }
  destruct (process s); rewrite V, Hs.
  - split; reflexivity.
  - split.
    + unfold v_shift. simpl. destruct (map id (queue s)); reflexivity.
    + now rewrite pending_shift.
Qed.

Lemma cancel_in_flight_closed_witness :
  exists s',
    cancel 5 (fire_all [ERun 0 "a" None; ERun 1 "b" None] (new sample_config))
    = Ret true s'
    /\ v_settled (view s') = [0%nat]
    /\ pending (view s') = [1%nat].
Proof.
  destruct (cancel_in_flight_closed 5
              (fire_all [ERun 0 "a" None; ERun 1 "b" None] (new sample_config))
              (wrap (mkItem 0 "a" None None false)) eq_refl eq_refl)
    as (s' & E & Hs & Hp).
  exists s'. repeat split; assumption.
Defined.

(** The breaker trips, then two more requests arrive within the window. *)
Definition stuck_after_trip : list Event :=
  (three_crashes ++ [ERun 60 "four" None; ERun 65 "five" None])%list.

(** C6, at the failing input.  After three crashes a first request is
    rejected by the open breaker and stays in [currentItem]; a second one
    is queued behind it.  [cancel()], called 20 ms after the last crash,
    neither returns [true] nor [false]: the exception of [ensureProcess]
    escapes from it, and the queued request has become [currentItem]
    without being settled. *)
Theorem cancel_throws_while_breaker_open :
  let s := fire_all stuck_after_trip (new sample_config) in
  let s' := state_of (cancel 70 s) in
  option_map id (currentItem s) = Some 3%nat
  /\ List.map id (queue s) = [4%nat]
  /\ cancel 70 s = Throw (CircuitOpenCooldown 3 20) s'
  /\ option_map id (currentItem s') = Some 4%nat
  /\ queue s' = []
  /\ settlement_order s' = [0; 1; 2; 3; 3]%nat.
Proof. vm_compute. repeat split. Qed.


Lemma breaker_open_frame (now : Z) (s s' : t) :
  crashCount s' = crashCount s -> lastCrashTime s' = lastCrashTime s ->
  breaker_open now s' = breaker_open now s.
Proof.
  unfold breaker_open, getCircuitBreakerStatus; simpl. now intros -> ->.
Qed.

Lemma enqueue_same now prompt options callbacks s :
  same_flags s (state_of (enqueue now prompt options callbacks s)).
Proof.
  unfold enqueue. mstep.
  match goal with |- context [processNext now ?X] =>
    pose proof (processNext_same now X) as Hv;
    destruct (processNext now X) as [p s'|e s'] end;
  simpl in *; destruct Hv; constructor; simpl in *; auto using incl_tl.
Qed.

(** ** Scenarios *)

(** A request exceeds the timeout: it is rejected, the process is killed
    and the next queued request is sent to a new process. *)
Example timeout_then_next_request :
  let s := fire_all [ERun 0 "a" None; ERun 1 "b" None; ETimeout 300000 0]
             (new sample_config) in
  settlement_order s = [0%nat]
  /\ In (Reject 0 (TimedOut 300000)) (log s)
  /\ kills (log s) = [0%nat]
  /\ currentItem s = Some (mkItem 1 "b" None None true)
  /\ process s = Some 1%nat
  /\ In (StdinWrite 1 "b") (log s).
Proof. vm_compute. repeat split; auto 10. Qed.

(** [cancel()] leaves no process handle behind until the next dispatch; a
    [shutdown()] that arrives before the child's 'close' event finds none
    and returns at once, so the queued request is not rejected, and the
    'close' event then starts a process for it. *)
Example shutdown_between_cancel_and_close :
  let s := fire_all [ERun 0 "a" None; ERun 1 "b" None; ECancel 2; EShutdown]
             (new sample_config) in
  let s' := fire (EClose 3 None) s in
  process s = None /\ shuttingDown s = false
  /\ List.map id (queue s) = [1%nat]
  /\ settlement_order s = [0%nat]
  /\ currentItem s' = Some (mkItem 1 "b" None None true)
  /\ spawns (log s') = [1; 0]%nat.
Proof. vm_compute. repeat split. Qed.

End Session.

(* ===================================================================== *)
(** * The pool                                                             *)
(* ===================================================================== *)

Module Pool.
Import RunnerManager.
#[local] Open Scope Z_scope.

(** ** Facts about Map *)

Section MapFacts.
Context {V : Type}.
Implicit Types (m : list (string * V)) (k : string) (v : V).

Lemma get_set_same k v m : JsMap.get k (JsMap.set k v m) = Some v.
Proof.
  induction m as [|[k' v'] m IH]; simpl.
  - now rewrite String.eqb_refl.
  - destruct (String.eqb k k') eqn:E; simpl; rewrite ?String.eqb_refl, ?E; auto.
Qed.

Lemma get_set_other k k' v m : k <> k' -> JsMap.get k (JsMap.set k' v m) = JsMap.get k m.
Proof.
  intros Hne. induction m as [|[k2 v2] m IH]; simpl.
  - apply String.eqb_neq in Hne. now rewrite Hne.
  - destruct (String.eqb k' k2) eqn:E; simpl.
    + apply String.eqb_eq in E. subst k2. apply String.eqb_neq in Hne. now rewrite Hne.
    + now rewrite IH.
Qed.

Lemma get_delete_same k m : JsMap.get k (JsMap.delete k m) = None.
Proof.
  induction m as [|[k' v'] m IH]; simpl; [reflexivity|].
  destruct (String.eqb k k') eqn:E; simpl; rewrite ?E; auto.
Qed.

Lemma get_delete_other k k' m : k <> k' -> JsMap.get k (JsMap.delete k' m) = JsMap.get k m.
Proof.
  intros Hne. induction m as [|[k2 v2] m IH]; simpl; [reflexivity|].
  destruct (String.eqb k' k2) eqn:E; simpl.
  - apply String.eqb_eq in E. subst k2. apply String.eqb_neq in Hne. now rewrite Hne.
  - now rewrite IH.
Qed.

Lemma get_None_not_in k m : JsMap.get k m = None <-> ~ In k (JsMap.keys m).
Proof.
  induction m as [|[k' v'] m IH]; simpl; [tauto|].
  destruct (String.eqb k k') eqn:E.
  - apply String.eqb_eq in E. subst. split; [discriminate|]. intros H; exfalso; auto.
  - apply String.eqb_neq in E. rewrite IH. split; intros H; [intros [->|H']; auto|auto].
Qed.

Lemma get_Some_in k v m : JsMap.get k m = Some v -> In (k, v) m.
Proof.
  induction m as [|[k' v'] m IH]; simpl; [discriminate|].
  destruct (String.eqb k k') eqn:E.
  - apply String.eqb_eq in E. subst. intros [= ->]. auto.
  - auto.
Qed.

Lemma in_get k v m : NoDup (JsMap.keys m) -> In (k, v) m -> JsMap.get k m = Some v.
Proof.
  induction m as [|[k' v'] m IH]; simpl; [intros _ []|].
  intros Hnd [Hin|Hin]; apply NoDup_cons_iff in Hnd as [Hni Hnd].
  - injection Hin as -> ->. now rewrite String.eqb_refl.
  - destruct (String.eqb k k') eqn:E; [|auto].
    apply String.eqb_eq in E. subst. exfalso. apply Hni.
    change k' with (fst (k', v)). now apply in_map.
Qed.

Lemma keys_set_absent k v m : JsMap.get k m = None -> JsMap.keys (JsMap.set k v m) = (JsMap.keys m ++ [k])%list.
Proof.
  induction m as [|[k' v'] m IH]; simpl; [reflexivity|].
  destruct (String.eqb k k') eqn:E; [discriminate|]. intros H. simpl. now rewrite IH.
Qed.

Lemma keys_set_present k v v0 m : JsMap.get k m = Some v0 -> JsMap.keys (JsMap.set k v m) = JsMap.keys m.
Proof.
  induction m as [|[k' v'] m IH]; simpl; [discriminate|].
  destruct (String.eqb k k') eqn:E; simpl.
  - apply String.eqb_eq in E. now subst.
  - intros H. now rewrite IH.
Qed.

Lemma keys_delete k m : JsMap.keys (JsMap.delete k m) = List.filter (fun k' => negb (String.eqb k k')) (JsMap.keys m).
Proof.
  induction m as [|[k' v'] m IH]; simpl; [reflexivity|].
  destruct (String.eqb k k'); simpl; now rewrite IH.
Qed.

Lemma size_set_absent k v m : JsMap.get k m = None -> JsMap.size (JsMap.set k v m) = JsMap.size m + 1.
Proof.
  intros H. unfold JsMap.size.
  rewrite <- (List.length_map fst (JsMap.set k v m)). fold (JsMap.keys (JsMap.set k v m)).
  rewrite keys_set_absent by assumption. rewrite List.length_app. unfold JsMap.keys. rewrite List.length_map. simpl. lia.
Qed.

Lemma size_set_present k v v0 m : JsMap.get k m = Some v0 -> JsMap.size (JsMap.set k v m) = JsMap.size m.
Proof.
  intros H. unfold JsMap.size.
  rewrite <- (List.length_map fst (JsMap.set k v m)). fold (JsMap.keys (JsMap.set k v m)).
  rewrite (keys_set_present k v v0) by assumption. unfold JsMap.keys. now rewrite List.length_map.
Qed.

Lemma size_delete_le k m : JsMap.size (JsMap.delete k m) <= JsMap.size m.
Proof.
  unfold JsMap.size. induction m as [|[k' v'] m IH]; simpl; [lia|].
  destruct (String.eqb k k'); simpl; lia.
Qed.

Lemma delete_absent k m : JsMap.get k m = None -> JsMap.delete k m = m.
Proof.
  induction m as [|[k' v'] m IH]; simpl; [reflexivity|].
  destruct (String.eqb k k'); [discriminate|]. intros H. now rewrite IH.
Qed.

Lemma length_delete_present k v m :
  NoDup (JsMap.keys m) -> JsMap.get k m = Some v ->
  S (List.length (JsMap.delete k m)) = List.length m.
Proof.
  induction m as [|[k' v'] m IH]; simpl; [discriminate|].
  intros Hnd. apply NoDup_cons_iff in Hnd as [Hni Hnd].
  destruct (String.eqb k k') eqn:E.
  - apply String.eqb_eq in E. subst k'. intros _.
    now rewrite delete_absent by (now apply get_None_not_in).
  - intros H. simpl. now rewrite IH.
Qed.

Lemma size_delete_present k v m :
  NoDup (JsMap.keys m) -> JsMap.get k m = Some v ->
  JsMap.size (JsMap.delete k m) = JsMap.size m - 1.
Proof.
  intros Hnd H. unfold JsMap.size.
  rewrite <- (length_delete_present k v m Hnd H). lia.
Qed.

Lemma NoDup_keys_set k v m : NoDup (JsMap.keys m) -> NoDup (JsMap.keys (JsMap.set k v m)).
Proof.
  intros H. destruct (JsMap.get k m) as [v0|] eqn:E.
  - now rewrite (keys_set_present k v v0).
  - rewrite keys_set_absent by assumption.
    apply NoDup_app; [assumption|repeat constructor; auto|].
    intros x Hx [<-|[]]. now apply get_None_not_in in E.
Qed.

Lemma NoDup_keys_delete k m : NoDup (JsMap.keys m) -> NoDup (JsMap.keys (JsMap.delete k m)).
Proof. intros H. rewrite keys_delete. now apply NoDup_filter. Qed.

End MapFacts.

(** ** Pool operations *)

(** One iteration of the second loop of [cleanupIdle]. *)
Definition cleanup_step (m : t) (channelId : string) : t :=
  match JsMap.get channelId (pool m) with
  | Some entry => shutdown_and_delete channelId entry m
  | None => m
  end.

Lemma cleanupIdle_fold now m :
  cleanupIdle now m
  = List.fold_left cleanup_step (JsMap.keys (List.filter (is_idle now m) (pool m))) m.
Proof. reflexivity. Qed.

(** The state [shutdown()] leaves the runner of an entry in. *)
Definition shut (entry : PoolEntry) : PersistentRunner.t :=
  PersistentRunner.state_of (PersistentRunner.shutdown (runner entry)).

Lemma cleanup_fold_get_other l : forall m k,
  ~ In k l -> JsMap.get k (pool (List.fold_left cleanup_step l m)) = JsMap.get k (pool m).
Proof.
  induction l as [|k' l IH]; intros m k Hni; simpl; [reflexivity|].
  rewrite IH by (intros H; apply Hni; now right).
  unfold cleanup_step. destruct (JsMap.get k' (pool m)); [|reflexivity].
  simpl. apply get_delete_other. intros ->. apply Hni. now left.
Qed.

Lemma cleanup_fold_params l : forall m,
  maxProcesses (List.fold_left cleanup_step l m) = maxProcesses m
  /\ idleTimeoutMs (List.fold_left cleanup_step l m) = idleTimeoutMs m
  /\ JsMap.size (pool (List.fold_left cleanup_step l m)) <= JsMap.size (pool m)
  /\ (NoDup (JsMap.keys (pool m)) -> NoDup (JsMap.keys (pool (List.fold_left cleanup_step l m))))
  /\ incl (JsMap.keys (pool (List.fold_left cleanup_step l m))) (JsMap.keys (pool m))
  /\ incl (retired m) (retired (List.fold_left cleanup_step l m)).
Proof.
  induction l as [|k' l IH]; intros m; simpl.
  - repeat split; auto using incl_refl; lia.
  - destruct (IH (cleanup_step m k')) as (A & B & C & D & E & F).
    unfold cleanup_step in *. destruct (JsMap.get k' (pool m)) as [e|]; simpl in *.
    + repeat split; auto.
      * pose proof (size_delete_le k' (pool m)). lia.
      * intros H. apply D. now apply NoDup_keys_delete.
      * eapply incl_tran; [exact E|]. rewrite keys_delete. intros x Hx. now apply filter_In in Hx as [Hx _].
      * eapply incl_tran; [|exact F]. apply incl_tl, incl_refl.
    + repeat split; auto.
Qed.

Lemma cleanup_fold_retires l : forall m k e,
  JsMap.get k (pool m) = Some e ->
  JsMap.get k (pool (List.fold_left cleanup_step l m)) = None ->
  In (k, shut e) (retired (List.fold_left cleanup_step l m)).
Proof.
  induction l as [|k' l IH]; intros m k e Hg Hn; simpl in *; [congruence|].
  destruct (String.eqb k k') eqn:E.
  - apply String.eqb_eq in E. subst k'.
    destruct (cleanup_fold_params l (cleanup_step m k)) as (_ & _ & _ & _ & _ & F).
    apply F. unfold cleanup_step. rewrite Hg. simpl. now left.
  - apply String.eqb_neq in E. apply IH; [|assumption].
    unfold cleanup_step. destruct (JsMap.get k' (pool m)); [|assumption].
    simpl. now rewrite get_delete_other.
Qed.

Lemma idle_keys now m k :
  NoDup (JsMap.keys (pool m)) ->
  In k (JsMap.keys (List.filter (is_idle now m) (pool m)))
  <-> exists e, JsMap.get k (pool m) = Some e /\ idleTimeoutMs m < now - lastUsed e.
Proof.
  intros Hnd. unfold JsMap.keys. rewrite in_map_iff. split.
  - intros ([k' e] & <- & Hin). apply filter_In in Hin as [Hin Hidle].
    exists e. split; [now apply in_get|]. unfold is_idle in Hidle. simpl in *. now apply Z.ltb_lt.
  - intros (e & Hg & Hlt). exists (k, e). split; [reflexivity|].
    apply filter_In. split; [now apply get_Some_in|]. unfold is_idle. simpl. now apply Z.ltb_lt.
Qed.

Lemma cleanupIdle_keeps now m k e :
  NoDup (JsMap.keys (pool m)) ->
  JsMap.get k (pool m) = Some e ->
  now - lastUsed e <= idleTimeoutMs m ->
  JsMap.get k (pool (cleanupIdle now m)) = Some e.
Proof.
  intros Hnd Hg Hle. rewrite cleanupIdle_fold, cleanup_fold_get_other; [assumption|].
  intros Hin. apply idle_keys in Hin as (e' & Hg' & Hlt); [|assumption].
  rewrite Hg in Hg'. injection Hg' as <-. lia.
Qed.

Lemma getOrCreateRunner_hit now k m e :
  JsMap.get k (pool m) = Some e ->
  getOrCreateRunner now k m = set_pool (JsMap.set k (mkEntry (runner e) now) (pool m)) m.
Proof. unfold getOrCreateRunner. now intros ->. Qed.

Lemma getOrCreateRunner_entry now k m :
  exists r, JsMap.get k (pool (getOrCreateRunner now k m)) = Some (mkEntry r now)
    /\ (forall e, JsMap.get k (pool m) = Some e -> r = runner e)
    /\ (JsMap.get k (pool m) = None -> r = PersistentRunner.new (agentConfig m)).
Proof.
  unfold getOrCreateRunner. destruct (JsMap.get k (pool m)) as [e|] eqn:E; simpl.
  - exists (runner e). rewrite get_set_same. repeat split; [now intros e' [= <-]|discriminate].
  - eexists. rewrite get_set_same. split; [reflexivity|]. split; [discriminate|]. intros _.
    destruct (maxProcesses m <=? JsMap.size (pool m)); [|reflexivity].
    unfold evictLRU. destruct (fst (lru_scan (pool m))) as [o|]; [|reflexivity].
    destruct (truthy o); [|reflexivity]. destruct (JsMap.get o (pool m)); reflexivity.
Qed.

Lemma on_runner_entry {A} k (f : PersistentRunner.M A) m r tm :
  JsMap.get k (pool m) = Some (mkEntry r tm) ->
  JsMap.get k (pool (snd (on_runner k f m))) = Some (mkEntry (PersistentRunner.state_of (f r)) tm).
Proof.
  intros H. unfold on_runner. rewrite H. simpl. apply get_set_same.
Qed.

Lemma forward_entry now options dispatch m :
  let k := channel_of options in
  exists target,
    JsMap.get k (pool (getOrCreateRunner now k m)) = Some (mkEntry target now)
    /\ JsMap.get k (pool (forward now options dispatch m))
       = Some (mkEntry
                 (PersistentRunner.state_of
                    (dispatch
                       match supplied_session options with
                       | Some sid => PersistentRunner.state_of (PersistentRunner.setSessionId sid target)
                       | None => target
                       end))
                 now).
Proof.
  intros k. destruct (getOrCreateRunner_entry now k m) as (r & Hr & _).
  exists r. split; [assumption|]. unfold forward. fold k.
  destruct (supplied_session options) as [sid|].
  - apply on_runner_entry. now apply on_runner_entry.
  - now apply on_runner_entry.
Qed.

(** ** The least recently used entry *)

Lemma lru_fold_spec (p : list (string * PoolEntry)) :
  forall (seen : list (string * PoolEntry)) k e,
    In (k, e) seen ->
    (forall k' e', In (k', e') seen -> lastUsed e <= lastUsed e') ->
    exists k2 e2,
      List.fold_left lru_step p (Some k, Some (lastUsed e)) = (Some k2, Some (lastUsed e2))
      /\ In (k2, e2) (seen ++ p)%list
      /\ forall k' e', In (k', e') (seen ++ p)%list -> lastUsed e2 <= lastUsed e'.
Proof.
  induction p as [|[k1 e1] p IH]; intros seen k e Hin Hmin; simpl.
  - exists k, e. rewrite app_nil_r. auto.
  - destruct (Z.ltb_spec (lastUsed e1) (lastUsed e)) as [Hlt|Hge].
    + destruct (IH (seen ++ [(k1, e1)])%list k1 e1) as (k2 & e2 & F & I & M).
      * apply in_or_app. right. now left.
      * intros k' e' H'. apply in_app_or in H' as [H'|H'].
        { specialize (Hmin k' e' H'). lia. }
        simpl in H'. destruct H' as [H'|[]]. injection H' as <- <-. lia.
      * exists k2, e2. rewrite <- app_assoc in I, M. simpl in I, M. auto.
    + destruct (IH (seen ++ [(k1, e1)])%list k e) as (k2 & e2 & F & I & M).
      * apply in_or_app. now left.
      * intros k' e' H'. apply in_app_or in H' as [H'|H']; [now apply (Hmin k' e')|].
        simpl in H'. destruct H' as [H'|[]]. injection H' as <- <-. assumption.
      * exists k2, e2. rewrite <- app_assoc in I, M. simpl in I, M. auto.
Qed.

Lemma lru_scan_spec (p : list (string * PoolEntry)) :
  p <> [] ->
  exists k e,
    fst (lru_scan p) = Some k /\ In (k, e) p
    /\ forall k' e', In (k', e') p -> lastUsed e <= lastUsed e'.
Proof.
  destruct p as [|[k1 e1] p]; [congruence|]. intros _.
  unfold lru_scan. simpl.
  destruct (lru_fold_spec p [(k1, e1)] k1 e1) as (k2 & e2 & F & I & M).
  - now left.
  - intros k' e' [[= <- <-]|[]]. lia.
  - exists k2, e2. rewrite F. simpl in *. auto.
Qed.

Lemma evictLRU_spec (m : t) :
  NoDup (JsMap.keys (pool m)) ->
  Forall (fun k => truthy k = true) (JsMap.keys (pool m)) ->
  pool m <> [] ->
  exists k e,
    JsMap.get k (pool m) = Some e
    /\ (forall k' e', In (k', e') (pool m) -> lastUsed e <= lastUsed e')
    /\ evictLRU m = shutdown_and_delete k e m
    /\ JsMap.size (pool (evictLRU m)) = JsMap.size (pool m) - 1.
Proof.
  intros Hnd Htr Hne.
  destruct (lru_scan_spec (pool m) Hne) as (k & e & F & I & M).
  exists k, e. assert (Hg : JsMap.get k (pool m) = Some e) by now apply in_get.
  assert (Hk : truthy k = true).
  { rewrite Forall_forall in Htr. apply Htr. change k with (fst (k, e)). now apply in_map. }
  assert (E : evictLRU m = shutdown_and_delete k e m).
  { unfold evictLRU. now rewrite F, Hk, Hg. }
  repeat split; auto.
  rewrite E. simpl. now apply size_delete_present with (v := e).
Qed.

(** ** Histories of a manager *)

(** What can happen to a manager: its methods, the interval timer, and
    the events of the runners it holds. *)
Inductive Op : Type :=
| ORun (now : Z) (prompt : string) (options : option RunOptions.t)
| ORunStream (now : Z) (prompt : string) (callbacks : StreamCallbacks.t)
    (options : option RunOptions.t)
| ODestroy (channelId : string)
| OCleanupIdle (now : Z)
| OShutdown
| ORunnerEvent (channelId : string) (e : Session.Event).

Definition apply_op (o : Op) (m : t) : t :=
  match o with
  | ORun now prompt options => run now prompt options m
  | ORunStream now prompt callbacks options => runStream now prompt callbacks options m
  | ODestroy channelId => snd (destroy channelId m)
  | OCleanupIdle now => cleanupIdle now m
  | OShutdown => shutdown m
  | ORunnerEvent channelId e =>
      snd (on_runner channelId (fun s => PersistentRunner.Ret tt (Session.fire e s)) m)
  end.

Definition apply_all (os : list Op) (m : t) : t := List.fold_left (fun m o => apply_op o m) os m.

Definition key_of (o : Op) : option string :=
  match o with
  | ORun _ _ options | ORunStream _ _ _ options => Some (channel_of options)
  | _ => None
  end.

Lemma on_runner_pool {A} k (f : PersistentRunner.M A) m :
  JsMap.keys (pool (snd (on_runner k f m))) = JsMap.keys (pool m)
  /\ maxProcesses (snd (on_runner k f m)) = maxProcesses m
  /\ idleTimeoutMs (snd (on_runner k f m)) = idleTimeoutMs m
  /\ retired (snd (on_runner k f m)) = retired m
  /\ agentConfig (snd (on_runner k f m)) = agentConfig m.
Proof.
  unfold on_runner. destruct (JsMap.get k (pool m)) as [e|] eqn:E; simpl; [|auto].
  rewrite (keys_set_present k _ e) by assumption. auto.
Qed.

Lemma size_keys {V} (p : list (string * V)) : JsMap.size p = Z.of_nat (List.length (JsMap.keys p)).
Proof. unfold JsMap.size, JsMap.keys. now rewrite List.length_map. Qed.


(** The pool respects its capacity, and no key is the empty string. *)
Record bounded (m : t) : Prop := mkBounded
  { bounded_nodup : NoDup (JsMap.keys (pool m));
    bounded_keys : Forall (fun k => truthy k = true) (JsMap.keys (pool m));
    bounded_size : JsMap.size (pool m) <= maxProcesses m }.

Lemma keys_set_incl {V} k (v : V) m : incl (JsMap.keys (JsMap.set k v m)) (k :: JsMap.keys m).
Proof.
  destruct (JsMap.get k m) as [v0|] eqn:E.
  - rewrite (keys_set_present k v v0) by assumption. apply incl_tl, incl_refl.
  - rewrite keys_set_absent by assumption. intros x Hx.
    apply in_app_or in Hx as [Hx|[<-|[]]]; [now right|now left].
Qed.

Lemma evictLRU_params m :
  maxProcesses (evictLRU m) = maxProcesses m
  /\ idleTimeoutMs (evictLRU m) = idleTimeoutMs m
  /\ agentConfig (evictLRU m) = agentConfig m
  /\ incl (JsMap.keys (pool (evictLRU m))) (JsMap.keys (pool m))
  /\ (NoDup (JsMap.keys (pool m)) -> NoDup (JsMap.keys (pool (evictLRU m))))
  /\ (forall k, JsMap.get k (pool m) = None -> JsMap.get k (pool (evictLRU m)) = None).
Proof.
  unfold evictLRU. destruct (fst (lru_scan (pool m))) as [o|]; [|repeat split; auto using incl_refl].
  destruct (truthy o); [|repeat split; auto using incl_refl].
  destruct (JsMap.get o (pool m)) as [e|]; [|repeat split; auto using incl_refl].
  simpl. repeat split.
  - rewrite keys_delete. intros x Hx. now apply filter_In in Hx as [Hx _].
  - apply NoDup_keys_delete.
  - intros k Hk. apply get_None_not_in. apply get_None_not_in in Hk.
    rewrite keys_delete. intros Hx. apply filter_In in Hx as [Hx _]. auto.
Qed.

Lemma getOrCreateRunner_params now k m :
  maxProcesses (getOrCreateRunner now k m) = maxProcesses m
  /\ idleTimeoutMs (getOrCreateRunner now k m) = idleTimeoutMs m
  /\ (NoDup (JsMap.keys (pool m)) -> NoDup (JsMap.keys (pool (getOrCreateRunner now k m)))).
Proof.
  unfold getOrCreateRunner. destruct (JsMap.get k (pool m)) as [e|] eqn:E; simpl.
  - repeat split. apply NoDup_keys_set.
  - destruct (evictLRU_params m) as (A & B & _ & _ & D & _).
    destruct (maxProcesses m <=? JsMap.size (pool m)); simpl; repeat split; auto;
      intros H; apply NoDup_keys_set; auto.
Qed.

Lemma getOrCreateRunner_bounded now k m :
  truthy k = true -> 1 <= maxProcesses m -> bounded m ->
  bounded (getOrCreateRunner now k m).
Proof.
  intros Hk Hmax [Hnd Htr Hsz].
  destruct (getOrCreateRunner_params now k m) as (Pm & _ & Pn).
  constructor; [auto| |].
  - unfold getOrCreateRunner. destruct (JsMap.get k (pool m)) as [e|] eqn:E; simpl.
    + now rewrite (keys_set_present k _ e).
    + apply Forall_forall. intros x Hx. apply keys_set_incl in Hx as [<-|Hx]; [assumption|].
      rewrite Forall_forall in Htr. apply Htr.
      destruct (maxProcesses m <=? JsMap.size (pool m)); [|assumption].
      now apply (evictLRU_params m).
  - rewrite Pm. unfold getOrCreateRunner. destruct (JsMap.get k (pool m)) as [e|] eqn:E; simpl.
    + now rewrite (size_set_present k _ e).
    + destruct (Z.leb_spec (maxProcesses m) (JsMap.size (pool m))) as [Hfull|Hroom].
      * assert (Hne : pool m <> []).
        { intros H0. rewrite H0 in Hfull. unfold JsMap.size in Hfull. simpl in Hfull. lia. }
        destruct (evictLRU_spec m Hnd Htr Hne) as (k0 & e0 & G & _ & _ & S0).
        rewrite size_set_absent by (now apply (evictLRU_params m)). lia.
      * rewrite size_set_absent by assumption. lia.
Qed.

Lemma on_runner_bounded {A} k (f : PersistentRunner.M A) m :
  bounded m -> bounded (snd (on_runner k f m)).
Proof.
  intros [Hnd Htr Hsz]. destruct (on_runner_pool k f m) as (K & M & _).
  constructor; rewrite ?size_keys, ?K, ?M; rewrite ?size_keys in Hsz; assumption.
Qed.

Lemma forward_params now options dispatch m :
  maxProcesses (forward now options dispatch m) = maxProcesses m
  /\ idleTimeoutMs (forward now options dispatch m) = idleTimeoutMs m
  /\ (NoDup (JsMap.keys (pool m)) -> NoDup (JsMap.keys (pool (forward now options dispatch m)))).
Proof.
  unfold forward.
  destruct (getOrCreateRunner_params now (channel_of options) m) as (A & B & C).
  set (m1 := getOrCreateRunner now (channel_of options) m) in *.
  destruct (supplied_session options) as [sid|].
  - match goal with |- context [on_runner ?k ?f m1] =>
      destruct (on_runner_pool k f m1) as (K1 & M1 & I1 & _);
      set (m2 := snd (on_runner k f m1)) in * end.
    destruct (on_runner_pool (channel_of options) dispatch m2) as (K2 & M2 & I2 & _).
    rewrite K2, M2, I2, K1, M1, I1. auto.
  - destruct (on_runner_pool (channel_of options) dispatch m1) as (K2 & M2 & I2 & _).
    rewrite K2, M2, I2. auto.
Qed.

Lemma forward_bounded now options dispatch m :
  truthy (channel_of options) = true -> 1 <= maxProcesses m -> bounded m ->
  bounded (forward now options dispatch m).
Proof.
  intros Hk Hmax Hb. unfold forward.
  pose proof (getOrCreateRunner_bounded now _ m Hk Hmax Hb) as H1.
  destruct (supplied_session options); auto using on_runner_bounded.
Qed.

Lemma apply_op_params o m :
  maxProcesses (apply_op o m) = maxProcesses m
  /\ idleTimeoutMs (apply_op o m) = idleTimeoutMs m
  /\ (NoDup (JsMap.keys (pool m)) -> NoDup (JsMap.keys (pool (apply_op o m)))).
Proof.
  destruct o as [now p o|now p cb o|k|now| |k e]; simpl.
  - apply forward_params.
  - apply forward_params.
  - unfold destroy. destruct (JsMap.get k (pool m)); simpl; repeat split; auto.
    apply NoDup_keys_delete.
  - rewrite cleanupIdle_fold.
    destruct (cleanup_fold_params (JsMap.keys (filter (is_idle now m) (pool m))) m) as (A & B & _ & D & _).
    auto.
  - repeat split. intros _. constructor.
  - match goal with |- context [on_runner ?k ?f m] =>
      destruct (on_runner_pool k f m) as (K1 & M1 & I1 & _) end.
    rewrite K1, M1, I1. auto.
Qed.

Lemma apply_op_bounded o m :
  (forall k, key_of o = Some k -> truthy k = true) ->
  1 <= maxProcesses m -> bounded m -> bounded (apply_op o m).
Proof.
  intros Hk Hmax Hb.
  destruct o as [now p o|now p cb o|k|now| |k e]; simpl in *.
  - apply forward_bounded; auto.
  - apply forward_bounded; auto.
  - destruct Hb as [Hnd Htr Hsz].
    unfold destroy. destruct (JsMap.get k (pool m)); simpl; constructor; simpl; auto.
    + now apply NoDup_keys_delete.
    + rewrite keys_delete. apply Forall_forall. intros x Hx. apply filter_In in Hx as [Hx _].
      rewrite Forall_forall in Htr. auto.
    + pose proof (size_delete_le k (pool m)). lia.
  - destruct Hb as [Hnd Htr Hsz]. rewrite cleanupIdle_fold.
    destruct (cleanup_fold_params (JsMap.keys (filter (is_idle now m) (pool m))) m) as (A & B & C & D & E & _).
    constructor; auto.
    + apply Forall_forall. intros x Hx. rewrite Forall_forall in Htr. auto.
    + lia.
  - destruct Hb as [Hnd Htr Hsz]. constructor; simpl; try constructor.
    unfold JsMap.size. simpl. lia.
  - now apply on_runner_bounded.
Qed.

Lemma apply_all_bounded os : forall m,
  Forall (fun o => forall k, key_of o = Some k -> truthy k = true) os ->
  1 <= maxProcesses m -> bounded m -> bounded (apply_all os m)
  /\ maxProcesses (apply_all os m) = maxProcesses m.
Proof.
  induction os as [|o os IH]; intros m Hk Hmax Hb; simpl; [auto|].
  apply Forall_cons_iff in Hk as [Hk1 Hk2].
  destruct (apply_op_params o m) as (A & _).
  destruct (IH (apply_op o m)) as (B & C); auto.
  - lia.
  - now apply apply_op_bounded.
  - split; [assumption|congruence].
Qed.

Lemma apply_all_NoDup os : forall m,
  NoDup (JsMap.keys (pool m)) -> NoDup (JsMap.keys (pool (apply_all os m))).
Proof.
  induction os as [|o os IH]; intros m H; simpl; [assumption|].
  apply IH. now apply apply_op_params.
Qed.

Lemma new_bounded c mp it : 0 <= mp -> bounded (new c (Some mp) it).
Proof. intros H. constructor; simpl; try constructor. unfold JsMap.size. simpl. lia. Qed.

(** ** Destruction paths *)

(** Every entry of [m] that is gone in [m'] had [shutdown()] called on its
    runner. *)
Definition shuts_down_removed (m m' : t) : Prop :=
  forall k e,
    JsMap.get k (pool m) = Some e -> JsMap.get k (pool m') = None ->
    In (k, shut e) (retired m').

Lemma shutdown_and_delete_shuts k e m :
  JsMap.get k (pool m) = Some e -> shuts_down_removed m (shutdown_and_delete k e m).
Proof.
  intros Hg k' e' Hg' Hn. simpl in *.
  destruct (String.eqb k' k) eqn:E.
  - apply String.eqb_eq in E. subst k'. rewrite Hg in Hg'. injection Hg' as <-. now left.
  - apply String.eqb_neq in E. rewrite get_delete_other in Hn by assumption. congruence.
Qed.

Lemma shuts_down_removed_refl m : shuts_down_removed m m.
Proof. intros k e H1 H2. congruence. Qed.

Lemma destroy_shuts k m : shuts_down_removed m (snd (destroy k m)).
Proof.
  unfold destroy. destruct (JsMap.get k (pool m)) as [e|] eqn:E; simpl.
  - now apply shutdown_and_delete_shuts.
  - apply shuts_down_removed_refl.
Qed.

Lemma evictLRU_shuts m : shuts_down_removed m (evictLRU m).
Proof.
  unfold evictLRU. destruct (fst (lru_scan (pool m))) as [o|]; [|apply shuts_down_removed_refl].
  destruct (truthy o); [|apply shuts_down_removed_refl].
  destruct (JsMap.get o (pool m)) as [e|] eqn:E; [|apply shuts_down_removed_refl].
  now apply shutdown_and_delete_shuts.
Qed.

Lemma cleanupIdle_shuts now m : shuts_down_removed m (cleanupIdle now m).
Proof. intros k e H1 H2. rewrite cleanupIdle_fold in *. now apply cleanup_fold_retires. Qed.

Lemma shutdown_shuts m : shuts_down_removed m (shutdown m).
Proof.
  intros k e H1 _. unfold shutdown. simpl. apply in_or_app. left.
  apply -> in_rev. apply get_Some_in in H1.
  change (k, shut e) with ((fun kv : string * PoolEntry => (fst kv, shut (snd kv))) (k, e)).
  now apply in_map.
Qed.


(** ** Shutdown, continuation tokens, the idle sweep *)

Import PersistentRunner.

Definition channel (c : string) : option RunOptions.t :=
  Some (RunOptions.mk None None (Some c)).

(** A runner with one request in flight and one queued. *)
Definition busy_runner : PersistentRunner.t :=
  Eval vm_compute in
    Session.fire_all [Session.ERun 0 "a" None; Session.ERun 1 "b" None]
      (PersistentRunner.new Session.sample_config).

(** C5, as amended.  When the runner holds a process handle, [shutdown()]
    ends the child's stdin and kills it, raises [shuttingDown], rejects
    every queued request and the request in flight with 'Runner is
    shutting down', and leaves the queue and [currentItem] empty.  It puts
    no bar on later work: a [run] after it is enqueued and dispatched to a
    new process.  Each destruction path of the pool ([destroy], [evictLRU],
    [cleanupIdle], [shutdown]) calls [shutdown()] on the runner of every
    entry it removes. *)
Theorem shutdown_drains_a_runner_with_a_process :
  (forall s p,
     process s = Some p ->
     exists s',
       PersistentRunner.shutdown s = Ret tt s'
       /\ process s' = None /\ processAlive s' = false
       /\ shuttingDown s' = true
       /\ queue s' = [] /\ currentItem s' = None
       /\ In (StdinEnd p) (log s') /\ In (Kill p) (log s')
       /\ (forall item, In item (queue s) \/ currentItem s = Some item ->
             In (Reject (id item) ShuttingDown) (log s')))
  /\ (forall s p now prompt options,
        process s = Some p -> Session.breaker_open now s = false ->
        exists s' s'',
          PersistentRunner.shutdown s = Ret tt s'
          /\ PersistentRunner.run now prompt options s' = Ret (nextReq s) s''
          /\ currentItem s'' = Some (mkItem (nextReq s) prompt options None true)
          /\ In (StdinWrite (nextPid s) prompt) (log s''))
  /\ (forall m,
        (forall k, shuts_down_removed m (snd (RunnerManager.destroy k m)))
        /\ shuts_down_removed m (RunnerManager.evictLRU m)
        /\ (forall now, shuts_down_removed m (RunnerManager.cleanupIdle now m))
        /\ shuts_down_removed m (RunnerManager.shutdown m)).
Proof.
  split; [|split].
  - intros s p Hp.
    destruct (Session.shutdown_with_process s p Hp)
      as (s' & E & A1 & A2 & A3 & A4 & A5 & A6 & A7 & A8 & _).
    exists s'. auto 10.
  - intros s p now prompt options Hp Hb.
    destruct (Session.shutdown_with_process s p Hp)
      as (s' & E & A1 & A2 & A3 & A4 & A5 & A6 & A7 & A8 & C1 & C2 & C3 & C4 & C5).
    destruct (Session.enqueue_dispatched now prompt options None s')
      as (s'' & E2 & B1 & B2 & B3).
    + assumption.
    + assumption.
    + unfold Session.needs_process. now rewrite A1.
    + rewrite <- Hb. now apply Session.breaker_open_frame.
    + exists s', s''. rewrite C3 in E2, B1. rewrite C4 in B3.
      repeat split; auto. rewrite B3. simpl. auto.
  - intros m. repeat split;
      auto using destroy_shuts, evictLRU_shuts, cleanupIdle_shuts, shutdown_shuts.
Qed.

Lemma shutdown_drains_a_runner_with_a_process_witness :
  exists s',
    PersistentRunner.shutdown busy_runner = Ret tt s'
    /\ queue s' = [] /\ currentItem s' = None
    /\ In (Reject 0%nat ShuttingDown) (log s')
    /\ In (Reject 1%nat ShuttingDown) (log s').
Proof.
  destruct (proj1 shutdown_drains_a_runner_with_a_process busy_runner 0%nat eq_refl)
    as (s' & E & _ & _ & _ & Q & C & _ & _ & R).
  exists s'. repeat split; try assumption.
  - apply (R (mkItem 0 "a" None None true)). right. reflexivity.
  - apply (R (mkItem 1 "b" None None false)). left. left. reflexivity.
Defined.

(** C5 does not hold as the specification states it: a runner that was
    shut down takes the next request, starts a second process and writes
    the prompt to it. *)
Lemma runner_accepts_work_after_shutdown :
  let s := Session.fire_all
             [Session.ERun 0 "a" None; Session.EShutdown;
              Session.ERun 5 "again" None]
             (PersistentRunner.new Session.sample_config) in
  shuttingDown s = true
  /\ currentItem s = Some (mkItem 1 "again" None None true)
  /\ Session.spawns (log s) = [1; 0]%nat
  /\ In (StdinWrite 1 "again") (log s)
  /\ Session.settlement_order s = [0%nat].
Proof. vm_compute. repeat split. right. left. reflexivity. Qed.

Lemma supplied_session_truthy (o : RunOptions.t) (sid : string) :
  RunOptions.sessionId o = Some sid -> sid <> "" ->
  supplied_session (Some o) = Some sid.
Proof.
  intros H Hne. unfold supplied_session. rewrite H.
  apply truthy_true_iff in Hne. now rewrite Hne.
Qed.

(** When the caller supplies a continuation token (a non-empty
    [options.sessionId]), [run] and [runStream] hand the request to the
    target runner in the state [setSessionId(token)] left it in: the
    token is the runner's [sessionId] when the request is enqueued, and it
    still is when [run]/[runStream] return. *)
Theorem continuation_token_written_before_dispatch
    (m : RunnerManager.t) (now : Z) (prompt : string) (o : RunOptions.t)
    (sid : string) :
  RunOptions.sessionId o = Some sid -> sid <> "" ->
  let k := channel_of (Some o) in
  exists target,
    JsMap.get k (pool (getOrCreateRunner now k m)) = Some (mkEntry target now)
    /\ let written := state_of (setSessionId sid target) in
       sessionId written = sid
       /\ (let after := state_of (PersistentRunner.run now prompt (Some o) written) in
           JsMap.get k (pool (RunnerManager.run now prompt (Some o) m))
           = Some (mkEntry after now)
           /\ sessionId after = sid)
       /\ (forall callbacks,
            let after :=
              state_of (PersistentRunner.runStream now prompt callbacks (Some o) written) in
            JsMap.get k (pool (RunnerManager.runStream now prompt callbacks (Some o) m))
            = Some (mkEntry after now)
            /\ sessionId after = sid).
Proof.
  intros Hs Hne k. subst k.
  pose proof (supplied_session_truthy o sid Hs Hne) as Hsup.
  destruct (forward_entry now (Some o) (PersistentRunner.run now prompt (Some o)) m)
    as (target & Ht & Hr).
  exists target. split; [exact Ht|].
  intros written. split; [reflexivity|]. split.
  - intros after. split.
    + unfold RunnerManager.run. rewrite Hr, Hsup. reflexivity.
    + unfold after, PersistentRunner.run.
      now rewrite (Session.same_sessionId _ _ (Session.enqueue_same _ _ _ _ _)).
  - intros callbacks after.
    destruct (forward_entry now (Some o)
                (PersistentRunner.runStream now prompt callbacks (Some o)) m)
      as (target' & Ht' & Hr').
    simpl in Ht, Ht'. rewrite Ht in Ht'. injection Ht' as <-. split.
    + unfold RunnerManager.runStream. rewrite Hr', Hsup. reflexivity.
    + unfold after, PersistentRunner.runStream.
      now rewrite (Session.same_sessionId _ _ (Session.enqueue_same _ _ _ _ _)).
Qed.

Definition resume_options : RunOptions.t :=
  RunOptions.mk None (Some "session-123") (Some "ch1").

Lemma continuation_token_written_before_dispatch_witness :
  exists e,
    JsMap.get "ch1"
      (pool (RunnerManager.run 7 "hello" (Some resume_options)
               (RunnerManager.new Session.sample_config None None)))
    = Some e
    /\ sessionId (runner e) = "session-123".
Proof.
  destruct (continuation_token_written_before_dispatch
              (RunnerManager.new Session.sample_config None None) 7 "hello"
              resume_options "session-123" eq_refl
              ltac:(discriminate))
    as (target & _ & _ & (G & S) & _).
  eexists. split; [exact G | exact S].
Defined.

(** C9.  In every state a manager can reach, the idle sweep at time [now]
    keeps, unchanged, every entry with [now - lastUsed <= idleTimeoutMs];
    and [run] or [runStream] on a key that is in the pool keeps the runner
    of the entry and sets its [lastUsed] to the current time. *)
Theorem idle_sweep_spares_recent_and_hit_refreshes
    (c : Config) (opt_max opt_idle : option Z) (os : list Op) :
  let m := apply_all os (RunnerManager.new c opt_max opt_idle) in
  (forall now k e,
     JsMap.get k (pool m) = Some e ->
     now - lastUsed e <= idleTimeoutMs m ->
     JsMap.get k (pool (cleanupIdle now m)) = Some e)
  /\ (forall now options e,
        JsMap.get (channel_of options) (pool m) = Some e ->
        getOrCreateRunner now (channel_of options) m
        = set_pool (JsMap.set (channel_of options) (mkEntry (runner e) now) (pool m)) m
        /\ (forall prompt, exists r,
              JsMap.get (channel_of options)
                (pool (RunnerManager.run now prompt options m))
              = Some (mkEntry r now))
        /\ (forall prompt callbacks, exists r,
              JsMap.get (channel_of options)
                (pool (RunnerManager.runStream now prompt callbacks options m))
              = Some (mkEntry r now))).
Proof.
  intros m.
  assert (Hnd : NoDup (JsMap.keys (pool m))) by (apply apply_all_NoDup; constructor).
  split.
  - intros now k e. now apply cleanupIdle_keeps.
  - intros now options e Hg. split; [now apply getOrCreateRunner_hit|]. split.
    + intros prompt.
      destruct (forward_entry now options (PersistentRunner.run now prompt options) m)
        as (target & _ & Hr).
      eexists. exact Hr.
    + intros prompt callbacks.
      destruct (forward_entry now options
                  (PersistentRunner.runStream now prompt callbacks options) m)
        as (target & _ & Hr).
      eexists. exact Hr.
Qed.

(** Two channels used at times 0 and 1000; the sweep runs at 1500 with an
    idle timeout of 1000 ms. *)
Definition two_channels : RunnerManager.t :=
  Eval vm_compute in
    apply_all [ORun 0 "a" (channel "ch1"); ORun 1000 "b" (channel "ch2")]
      (RunnerManager.new Session.sample_config (Some 5) (Some 1000)).

Lemma idle_sweep_spares_recent_and_hit_refreshes_witness :
  JsMap.keys (pool (cleanupIdle 1500 two_channels)) = ["ch2"]
  /\ (exists e, JsMap.get "ch2" (pool (cleanupIdle 1500 two_channels)) = Some e
                /\ lastUsed e = 1000)
  /\ (exists r, JsMap.get "ch1"
                  (pool (RunnerManager.run 1400 "c" (channel "ch1") two_channels))
                = Some (mkEntry r 1400)).
Proof.
  pose proof (idle_sweep_spares_recent_and_hit_refreshes Session.sample_config
                (Some 5) (Some 1000)
                [ORun 0 "a" (channel "ch1"); ORun 1000 "b" (channel "ch2")])
    as [Hkeep Hhit].
  split; [reflexivity|]. split.
  - eexists. split.
    + apply (Hkeep 1500 "ch2"); [reflexivity | vm_compute; discriminate].
    + reflexivity.
  - destruct (Hhit 1400 (channel "ch1") _ eq_refl) as (_ & Hrun & _).
    exact (Hrun "c").
Defined.

(** ** Capacity *)

(** X19.  Away from the empty channel id the pool respects its capacity
    through every history of requests, destructions, sweeps and runner
    events. *)
Lemma pool_bounded_for_nonempty_channels
    (c : Config) (cap : Z) (opt_idle : option Z) (os : list Op) :
  1 <= cap ->
  Forall (fun o => forall k, key_of o = Some k -> k <> "") os ->
  JsMap.size (pool (apply_all os (RunnerManager.new c (Some cap) opt_idle))) <= cap.
Proof.
  intros Hcap Hk.
  destruct (apply_all_bounded os (RunnerManager.new c (Some cap) opt_idle))
    as ([_ _ Hsz] & Hmax).
  - eapply Forall_impl; [|exact Hk]. intros o H k Hko.
    apply truthy_true_iff. now apply H.
  - exact Hcap.
  - apply new_bounded. lia.
  - rewrite Hmax in Hsz. exact Hsz.
Qed.

Lemma pool_bounded_for_nonempty_channels_witness :
  JsMap.size
    (pool (apply_all
             [ORun 0 "one" (channel "A"); ORun 1000 "two" (channel "B");
              ORun 2000 "three" (channel "C")]
             (RunnerManager.new Session.sample_config (Some 2) None))) <= 2.
Proof.
  apply (pool_bounded_for_nonempty_channels Session.sample_config 2 None
           [ORun 0 "one" (channel "A"); ORun 1000 "two" (channel "B");
            ORun 2000 "three" (channel "C")]).
  - lia.
  - repeat constructor; intros k [= <-]; discriminate.
Defined.

(** X20.  A miss on a full pool whose keys are all non-empty evicts one
    entry, one with the least [lastUsed], shuts its runner down, and only
    then inserts the new entry. *)
Lemma miss_on_full_pool_evicts_lru (now : Z) (k : string) (m : RunnerManager.t) :
  bounded m -> 1 <= maxProcesses m ->
  JsMap.get k (pool m) = None ->
  maxProcesses m <= JsMap.size (pool m) ->
  exists k0 e0,
    JsMap.get k0 (pool m) = Some e0
    /\ (forall k' e', In (k', e') (pool m) -> lastUsed e0 <= lastUsed e')
    /\ pool (getOrCreateRunner now k m)
       = JsMap.set k (mkEntry (PersistentRunner.new (agentConfig m)) now)
           (JsMap.delete k0 (pool m))
    /\ retired (getOrCreateRunner now k m) = (k0, shut e0) :: retired m
    /\ JsMap.size (pool (getOrCreateRunner now k m)) = JsMap.size (pool m).
Proof.
  intros [Hnd Htr Hsz] Hmax Hmiss Hfull.
  assert (Hne : pool m <> []).
  { intros H0. rewrite H0 in Hfull. unfold JsMap.size in Hfull. simpl in Hfull. lia. }
  destruct (evictLRU_spec m Hnd Htr Hne) as (k0 & e0 & G & Hmin & E & S0).
  exists k0, e0. unfold getOrCreateRunner. rewrite Hmiss.
  apply Z.leb_le in Hfull. rewrite Hfull, E. simpl.
  repeat split; auto.
  rewrite size_set_absent.
  - rewrite E in S0. simpl in S0. lia.
  - apply get_None_not_in. rewrite keys_delete. intros Hin.
    apply filter_In in Hin as [Hin _]. now apply get_None_not_in in Hmiss.
Qed.

(** Capacity 2, channels A (used at 0) and B (used at 1000). *)
Definition full_pool : RunnerManager.t :=
  Eval vm_compute in
    apply_all [ORun 0 "one" (channel "A"); ORun 1000 "two" (channel "B")]
      (RunnerManager.new Session.sample_config (Some 2) None).

Lemma miss_on_full_pool_evicts_lru_witness :
  JsMap.size (pool (getOrCreateRunner 2000 "C" full_pool)) = 2.
Proof.
  destruct (miss_on_full_pool_evicts_lru 2000 "C" full_pool)
    as (k0 & e0 & _ & _ & _ & _ & H).
  - constructor.
    + vm_compute. repeat (constructor; [simpl; intuition discriminate|]). constructor.
    + vm_compute. repeat constructor.
    + vm_compute. discriminate.
  - vm_compute. discriminate.
  - reflexivity.
  - vm_compute. discriminate.
  - rewrite H. reflexivity.
Defined.

(** Capacity 1; a request with the empty channel id, then one for
    channel "x". *)
Definition empty_channel_then_x : list Op :=
  [ORun 0 "a" (channel ""); ORun 1 "b" (channel "x")].

(** C3, at the failing input.  With [maxProcesses = 1], after a request
    whose [channelId] is the empty string, the request for another channel
    finds the pool full; [evictLRU] selects the entry with key [""], takes
    the key for "no entry found" and evicts nothing; the pool then holds
    two entries. *)
Theorem pool_exceeds_capacity_on_empty_channel :
  let m0 := RunnerManager.new Session.sample_config (Some 1) None in
  let m1 := apply_op (ORun 0 "a" (channel "")) m0 in
  let m2 := apply_all empty_channel_then_x m0 in
  maxProcesses m2 = 1
  /\ JsMap.keys (pool m1) = [""]
  /\ fst (lru_scan (pool m1)) = Some ""
  /\ evictLRU m1 = m1
  /\ JsMap.keys (pool m2) = [""; "x"]
  /\ JsMap.size (pool m2) = 2
  /\ retired m2 = [].
Proof. vm_compute. repeat split. Qed.

(** Capacity 2; requests for channels A, B, then C: A, the oldest, is
    evicted and its runner shut down; the pool ends as B, C. *)
Example third_channel_evicts_first :
  let m := apply_all
             [ORun 0 "one" (channel "A"); ORun 1000 "two" (channel "B");
              ORun 2000 "three" (channel "C")]
             (RunnerManager.new Session.sample_config (Some 2) None) in
  JsMap.keys (pool m) = ["B"; "C"]
  /\ List.map fst (retired m) = ["A"]
  /\ List.map (fun kr => Session.kills (log (snd kr))) (retired m) = [[0%nat]].
Proof. vm_compute. repeat split. Qed.

End Pool.

(* ===================================================================== *)
(** * Further properties of mergeTexts                                     *)
(* ===================================================================== *)

Module MergeFacts.
#[local] Open Scope string_scope.

(** [s] begins with [t]. *)
Definition starts_with (s t : string) : Prop := exists q, s = t ++ q.

Lemma app_empty_r (s : string) : s ++ "" = s.
Proof. induction s as [|c s IH]; simpl; [reflexivity | now rewrite IH]. Qed.

Lemma app_assoc (a b c : string) : (a ++ b) ++ c = a ++ b ++ c.
Proof. induction a as [|x a IH]; simpl; [reflexivity | now rewrite IH]. Qed.

Lemma merge_ends_with_final (streamed final : string) :
  ends_with (mergeTexts streamed final) final.
Proof.
  destruct (mergeTexts_follows_rule streamed final) as [Hf|Hf Hs|Hf Hs He|Hf Hs Hn He|Hf Hs Hn1 Hn2].
  - subst final. exists streamed. now rewrite app_empty_r.
  - subst streamed. now exists "".
  - assumption.
  - now exists "".
  - exists (streamed ++ nl). now rewrite app_assoc.
Qed.

(** X1.  Nothing is lost in a merge: the merged text ends with the final
    text, and the streamed text is its beginning or its end. *)
Theorem mergeTexts_keeps_both_texts (streamed final : string) :
  ends_with (mergeTexts streamed final) final
  /\ (starts_with (mergeTexts streamed final) streamed
      \/ ends_with (mergeTexts streamed final) streamed).
Proof.
  split; [apply merge_ends_with_final|].
  destruct (mergeTexts_follows_rule streamed final) as [Hf|Hf Hs|Hf Hs He|Hf Hs Hn He|Hf Hs Hn1 Hn2].
  - left. exists "". now rewrite app_empty_r.
  - subst streamed. left. now exists final.
  - left. exists "". now rewrite app_empty_r.
  - now right.
  - left. now exists (nl ++ final).
Qed.

(** X2.  Merging the same final text a second time changes nothing. *)
Theorem mergeTexts_absorbs_final (streamed final : string) :
  mergeTexts (mergeTexts streamed final) final = mergeTexts streamed final.
Proof.
  pose proof (merge_ends_with_final streamed final) as He.
  set (m := mergeTexts streamed final) in *.
  unfold mergeTexts at 1.
  destruct (truthy final) eqn:Hf; simpl; [|reflexivity].
  destruct (truthy m) eqn:Hm; simpl.
  - apply endsWith_spec in He. now rewrite He.
  - apply truthy_false_iff in Hm. destruct He as [p Hp]. rewrite Hm in Hp.
    destruct p; simpl in Hp; [now rewrite <- Hp in Hf|discriminate].
Qed.
End MergeFacts.

(* ===================================================================== *)
(** * Further properties of a session                                      *)
(* ===================================================================== *)

Module SessionFacts.
Import PersistentRunner Session.
#[local] Open Scope Z_scope.

Lemma breaker_closed_cases (now : Z) (s : t) :
  breaker_open now s = false ->
  crashCount s < MAX_CRASHES \/
  (MAX_CRASHES <= crashCount s /\ CRASH_WINDOW_MS <= now - lastCrashTime s).
Proof.
  intros H. destruct (Z.ltb_spec (crashCount s) MAX_CRASHES) as [Hlt|Hge]; [now left|right].
  split; [assumption|].
  destruct (Z.ltb_spec (now - lastCrashTime s) CRASH_WINDOW_MS) as [Hw|Hw]; [|assumption].
  assert (breaker_open now s = true) by (apply breaker_open_iff; auto). congruence.
Qed.

(** X3.  [getCircuitBreakerStatus().open] tells what [ensureProcess] will
    do: when a process has to be started, the status is open exactly when
    [ensureProcess] throws; when a live process is held, [ensureProcess]
    returns it and changes nothing, whatever the status. *)
Theorem breaker_status_agrees_with_spawn (s : t) (now : Z) :
  (needs_process s = true ->
     (open (getCircuitBreakerStatus now s) = true
      <-> returns (ensureProcess now s) = false))
  /\ (needs_process s = false -> exists p, ensureProcess now s = Ret p s).
Proof.
  split.
  - intros Hn. fold (breaker_open now s). split.
    + intros Ho. now rewrite ensureProcess_open.
    + intros Hr. destruct (breaker_open now s) eqn:Ho; [reflexivity|].
      rewrite ensureProcess_returns in Hr by assumption. discriminate.
  - unfold needs_process. intros Hn. apply negb_false_iff in Hn.
    apply andb_prop in Hn as [Hp Ha].
    destruct (process s) as [p|] eqn:E; [|discriminate].
    exists p. now apply ensureProcess_reuse.
Qed.

Lemma processNext_dispatches (now : Z) (s : t) (it : QueueItem) (rest : list QueueItem) :
  currentItem s = None -> queue s = it :: rest ->
  needs_process s = true -> breaker_open now s = false ->
  exists s',
    processNext now s = Ret tt s'
    /\ currentItem s' = Some (wrap it) /\ queue s' = rest
    /\ log s' = SetTimeout (id it) (timeoutMs (cfg s))
                :: StdinWrite (nextPid s) (prompt it)
                :: Spawn (nextPid s) (spawn_args (cfg s)) :: log s
    /\ process s' = Some (nextPid s) /\ processAlive s' = true
    /\ timers s' = id it :: timers s.
Proof.
  intros Hc Hq Hn Hb. unfold processNext.
  cbv [bind get modify ret emit]. rewrite Hc, Hq. simpl.
  match goal with |- context [ensureProcess now ?X] =>
    destruct (ensureProcess_spawns now X) as (s' & E & L & P & A & C & Q & T & G);
    [exact Hn|exact Hb|] end.
  rewrite E. simpl in *.
  eexists; split; [reflexivity|]. simpl. rewrite C, L, G, T, P, A. simpl. auto 10.
Qed.

(** X4.  [resetCircuitBreaker()] zeroes the counter and the crash time
    and touches nothing else; after it the breaker is closed at every
    time, and an [ensureProcess] that needs a process spawns one. *)
Theorem manual_reset_reopens (s : t) :
  let s' := state_of (resetCircuitBreaker s) in
  resetCircuitBreaker s = Ret tt s'
  /\ crashCount s' = 0 /\ lastCrashTime s' = 0
  /\ queue s' = queue s /\ currentItem s' = currentItem s /\ log s' = log s
  /\ (forall now, breaker_open now s' = false)
  /\ (forall now, needs_process s = true ->
        exists s'', ensureProcess now s' = Ret (nextPid s) s''
          /\ log s'' = Spawn (nextPid s) (spawn_args (cfg s)) :: log s).
Proof.
  intros s'. repeat split.
  intros now Hn. rewrite ensureProcess_below_threshold.
  - eexists. split; reflexivity.
  - exact Hn.
  - simpl. unfold MAX_CRASHES. lia.
Qed.

(** What the 'close' handler does to the request in flight. *)
Definition drop_current (e : Error) (s : t) : t :=
  match currentItem s with
  | Some c => set_currentItem None (rejected c e s)
  | None => s
  end.

Lemma with_current_reject (e : Error) (s : t) :
  with_current (fun item => item_reject item e ;; modify (set_currentItem None)) s
  = Ret tt (drop_current e s).
Proof.
  unfold with_current, drop_current. cbv [bind get modify].
  destruct (currentItem s) as [c|]; [|reflexivity].
  now rewrite item_reject_ret.
Qed.

Lemma drop_current_fields (e : Error) (s : t) :
  let s' := drop_current e s in
  cfg s' = cfg s /\ process s' = process s /\ processAlive s' = processAlive s
  /\ queue s' = queue s /\ currentItem s' = None
  /\ shuttingDown s' = shuttingDown s /\ cancelling s' = cancelling s
  /\ crashCount s' = crashCount s /\ lastCrashTime s' = lastCrashTime s
  /\ nextPid s' = nextPid s /\ nextReq s' = nextReq s
  /\ incl (log s) (log s') /\ spawns (log s') = spawns (log s)
  /\ (forall c, currentItem s = Some c -> In (Reject (id c) e) (log s')).
Proof.
  unfold drop_current. destruct (currentItem s) as [c|] eqn:Hc; simpl.
  - destruct (rejected_fields c e s) as (A1&A2&A3&A4&A5&A6&A7&A8&A9&A10&A11&A12&A13&A14&A15&A16).
    repeat split; auto.
    + unfold rejected. mstep. destruct (wrapped c); reflexivity.
    + intros c' [= <-]. assumption.
  - repeat split; auto using incl_refl. discriminate.
Qed.

Lemma rejected_all_spawns l e : forall s,
  spawns (log (rejected_all l e s)) = spawns (log s).
Proof.
  induction l as [|q l IH]; intros s; simpl; [reflexivity|].
  rewrite IH. unfold rejected. mstep. destruct (wrapped q); reflexivity.
Qed.

Definition crashed (now : Z) (s : t) : t :=
  set_lastCrashTime now
    (set_crashCount (crashCount s + 1)
       (set_buffer "" (set_processAlive false (set_process None s)))).

Lemma onClose_crash_eq (code : option Z) (now : Z) (s : t) :
  shuttingDown s = false -> cancelling s = false ->
  let s1 := drop_current (ProcessExited code) (crashed now s) in
  onClose code now s
  = if Nat.ltb 0 (List.length (queue s1)) && (crashCount s1 <? MAX_CRASHES)
    then processNext now s1
    else if MAX_CRASHES <=? crashCount s1
         then Ret tt (set_queue [] (rejected_all (queue s1) CircuitOpenQueued s1))
         else Ret tt s1.
Proof.
  intros Hsd Hca s1. unfold onClose.
  unfold bind at 1. unfold get at 1.
  unfold bind at 1 2 3. unfold modify at 1 2 3. rewrite Hsd, Hca.
  unfold bind at 1 2. unfold modify at 1 2.
  unfold bind at 1. rewrite with_current_reject.
  unfold bind at 1. unfold get at 1.
  match goal with |- context [drop_current ?e ?X] =>
    change (drop_current e X) with s1 end.
  destruct (Nat.ltb 0 (List.length (queue s1)) && (crashCount s1 <? MAX_CRASHES)); [reflexivity|].
  destruct (MAX_CRASHES <=? crashCount s1); [|reflexivity].
  unfold bind. rewrite for_each_reject. reflexivity.
Qed.

(** X5.  An unexpected exit (neither flag set) rejects the request in
    flight with the exit error.  Below the threshold the head of the queue
    is sent to a new process (or nothing is spawned when the queue is
    empty); at the threshold every queued request is rejected with the
    circuit-open error, the queue is emptied and nothing is spawned. *)
Theorem crash_restarts_or_rejects_queue (code : option Z) (now : Z) (s : t) :
  shuttingDown s = false -> cancelling s = false ->
  let s' := state_of (onClose code now s) in
  (forall c, currentItem s = Some c -> In (Reject (id c) (ProcessExited code)) (log s'))
  /\ (crashCount s + 1 < MAX_CRASHES ->
      match queue s with
      | [] => currentItem s' = None /\ process s' = None
              /\ spawns (log s') = spawns (log s)
      | it :: rest =>
          currentItem s' = Some (wrap it) /\ queue s' = rest
          /\ process s' = Some (nextPid s)
          /\ In (StdinWrite (nextPid s) (prompt it)) (log s')
      end)
  /\ (MAX_CRASHES <= crashCount s + 1 ->
      queue s' = [] /\ currentItem s' = None /\ process s' = None
      /\ spawns (log s') = spawns (log s)
      /\ forall q, In q (queue s) -> In (Reject (id q) CircuitOpenQueued) (log s')).
Proof.
  intros Hsd Hca s'. unfold s'. rewrite onClose_crash_eq by assumption.
  set (s1 := drop_current (ProcessExited code) (crashed now s)).
  destruct (drop_current_fields (ProcessExited code) (crashed now s))
    as (A1&A2&A3&A4&A5&A6&A7&A8&A9&A10&A11&A12&A13&A14).
  fold s1 in A1, A2, A3, A4, A5, A6, A7, A8, A9, A10, A11, A12, A13, A14.
  simpl in A1, A2, A3, A4, A6, A7, A8, A9, A10, A11, A13, A14.
  split; [|split].
  - intros c Hc. specialize (A14 c Hc).
    destruct (Nat.ltb 0 (List.length (queue s1)) && (crashCount s1 <? MAX_CRASHES)).
    + now apply (same_log _ _ (processNext_same now s1)).
    + destruct (MAX_CRASHES <=? crashCount s1); simpl; [|assumption].
      now apply (rejected_all_fields (queue s1) CircuitOpenQueued s1).
  - intros Hlt. rewrite A8, A4.
    assert (E : (crashCount s + 1 <? MAX_CRASHES) = true) by now apply Z.ltb_lt.
    rewrite E, andb_true_r.
    destruct (queue s) as [|it rest] eqn:Hq; simpl.
    + assert (E2 : (MAX_CRASHES <=? crashCount s + 1) = false) by now apply Z.leb_gt.
      rewrite E2. simpl. auto.
    + destruct (processNext_dispatches now s1 it rest) as (s2 & E2 & B1 & B2 & B3 & B4 & _).
      * assumption.
      * now rewrite A4.
      * unfold needs_process. now rewrite A2.
      * unfold breaker_open, getCircuitBreakerStatus. simpl. rewrite A8.
        apply Z.leb_gt in Hlt. now rewrite Hlt.
      * rewrite E2. simpl. rewrite A10 in B3, B4. repeat split; auto.
        rewrite B3. simpl. auto.
  - intros Hge. rewrite A8.
    assert (E : (crashCount s + 1 <? MAX_CRASHES) = false) by now apply Z.ltb_ge.
    rewrite E, andb_false_r.
    assert (E2 : (MAX_CRASHES <=? crashCount s + 1) = true) by now apply Z.leb_le.
    rewrite E2. simpl.
    destruct (rejected_all_fields (queue s1) CircuitOpenQueued s1)
      as (B1&B2&B3&B4&B5&B6&B7&B8&B9&B10&B11&B12&B13&B14&B15&B16).
    simpl in B2, B5. rewrite B5, B2, A5, A2. repeat split; auto.
    + rewrite <- A13. apply rejected_all_spawns.
    + intros q Hq. apply B16. now rewrite A4.
Qed.

(** A runner with request 0 in flight and request 1 queued. *)
Definition one_in_flight_one_queued : t :=
  Eval vm_compute in
    fire_all [ERun 0 "a" None; ERun 1 "b" None] (PersistentRunner.new sample_config).

(** The request in flight of [one_in_flight_one_queued]. *)
Definition first_request : QueueItem := wrap (mkItem 0 "a" None None false).

Lemma crash_restarts_or_rejects_queue_witness :
  In (Reject 0 (ProcessExited (Some 1%Z)))
     (log (state_of (onClose (Some 1%Z) 10 one_in_flight_one_queued)))
  /\ process (state_of (onClose (Some 1%Z) 10 one_in_flight_one_queued)) = Some 1%nat.
Proof.
  destruct (crash_restarts_or_rejects_queue (Some 1%Z) 10 one_in_flight_one_queued
              eq_refl eq_refl) as (H1 & H2 & _).
  split.
  - exact (H1 first_request eq_refl).
  - apply H2. reflexivity.
Defined.

Lemma onClose_ignored_when_shut_down (code : option Z) (now : Z) (s : t) :
  shuttingDown s = true ->
  onClose code now s
  = Ret tt (set_buffer "" (set_processAlive false (set_process None s))).
Proof.
  intros H. unfold onClose. cbv [bind get modify]. now rewrite H.
Qed.

Lemma onClose_after_cancel_eq (code : option Z) (now : Z) (s : t) :
  shuttingDown s = false -> cancelling s = true ->
  onClose code now s
  = let s1 := set_cancelling false
                (set_buffer "" (set_processAlive false (set_process None s))) in
    if Nat.ltb 0 (List.length (queue s)) then processNext now s1 else Ret tt s1.
Proof.
  intros Hsd Hca. unfold onClose. cbv [bind get modify when ret]. rewrite Hsd, Hca.
  simpl. now destruct (Nat.ltb 0 (List.length (queue s))).
Qed.

Lemma cancel_with_process_fields (now : Z) (s : t) (item : QueueItem) (p : nat) :
  currentItem s = Some item -> process s = Some p ->
  exists s',
    cancel now s = Ret true s'
    /\ queue s' = queue s /\ currentItem s' = None
    /\ cancelling s' = true /\ shuttingDown s' = shuttingDown s
    /\ process s' = None /\ processAlive s' = false
    /\ crashCount s' = crashCount s /\ lastCrashTime s' = lastCrashTime s
    /\ nextPid s' = nextPid s /\ cfg s' = cfg s
    /\ In (Reject (id item) CancelledByUser) (log s') /\ In (Kill p) (log s')
    /\ spawns (log s') = spawns (log s).
Proof.
  intros Hc Hp. unfold cancel. mstep. rewrite Hc.
  destruct (callbacks item) as [cb|]; [destruct (StreamCallbacks.onError cb)|]; simpl;
    destruct (wrapped item); simpl; rewrite Hp; simpl;
    eexists; (split; [reflexivity|]); simpl; auto 20.
Qed.

(** X6.  [cancel()] on a runner that holds a process rejects the request
    in flight, kills the process and leaves the queue alone, and the
    'close' event that follows counts no crash: [lastCrashTime] and, below
    the threshold or after a [shutdown()], [crashCount] are as they were.
    On a runner on which [shutdown()] was never called that 'close' lowers
    [cancelling] and, the breaker being closed, sends the head of the queue
    to a new process.  On a runner used again after [shutdown()] the
    handler returns early: [cancelling] stays raised, the queue stays as it
    is and nothing is sent. *)
Theorem cancel_is_not_counted_as_crash
    (now now' : Z) (code : option Z) (s : t) (item : QueueItem) (p : nat) :
  currentItem s = Some item -> process s = Some p ->
  let s1 := state_of (cancel now s) in
  let s2 := state_of (onClose code now' s1) in
  cancel now s = Ret true s1
  /\ In (Reject (id item) CancelledByUser) (log s1) /\ In (Kill p) (log s1)
  /\ queue s1 = queue s
  /\ lastCrashTime s2 = lastCrashTime s
  /\ (crashCount s < MAX_CRASHES \/ shuttingDown s = true ->
      crashCount s2 = crashCount s)
  /\ (shuttingDown s = false ->
      cancelling s2 = false
      /\ (breaker_open now' s = false ->
          match queue s with
          | [] => currentItem s2 = None /\ spawns (log s2) = spawns (log s)
          | it :: rest =>
              currentItem s2 = Some (wrap it) /\ queue s2 = rest
              /\ process s2 = Some (nextPid s)
              /\ In (StdinWrite (nextPid s) (prompt it)) (log s2)
          end))
  /\ (shuttingDown s = true ->
      s2 = set_buffer "" (set_processAlive false (set_process None s1))
      /\ cancelling s2 = true /\ currentItem s2 = None
      /\ queue s2 = queue s /\ log s2 = log s1).
Proof.
  intros Hc Hp s1 s2.
  destruct (cancel_with_process_fields now s item p Hc Hp)
    as (s' & E & Q & C & Ca & Sd & P & A & Cc & L & N & G & R & K & Sp).
  assert (Es1 : s1 = s') by (unfold s1; now rewrite E). clearbody s1. subst s'.
  split; [assumption|]. split; [assumption|]. split; [assumption|].
  split; [assumption|].
  destruct (shuttingDown s) eqn:Hsd.
  - (* the runner was shut down before *)
    assert (E2 : s2 = set_buffer "" (set_processAlive false (set_process None s1))).
    { unfold s2. now rewrite (onClose_ignored_when_shut_down code now' s1 Sd). }
    clearbody s2. subst s2. simpl.
    repeat split; try assumption; try discriminate. intros _. assumption.
  - (* no shutdown before *)
    unfold s2. rewrite (onClose_after_cancel_eq code now' s1 Sd Ca). cbv zeta.
    set (s1' := set_cancelling false _).
    split; [|split; [|split; [|discriminate]]].
    + destruct (Nat.ltb 0 (List.length (queue s1))); [|assumption].
      now rewrite (same_lastCrashTime _ _ (processNext_same now' s1')).
    + intros [Hlt|Hf]; [|discriminate].
      destruct (Nat.ltb 0 (List.length (queue s1))); [|assumption].
      rewrite processNext_crashCount; [assumption|]. simpl. lia.
    + intros _. split.
      * destruct (Nat.ltb 0 (List.length (queue s1))); [|reflexivity].
        now rewrite (same_cancelling _ _ (processNext_same now' s1')).
      * intros Hb. rewrite Q. destruct (queue s) as [|it rest] eqn:Hq; simpl.
        -- auto.
        -- destruct (processNext_dispatches now' s1' it rest)
             as (s3 & E3 & B1 & B2 & B3 & B4 & _).
           ++ assumption.
           ++ assumption.
           ++ unfold needs_process. reflexivity.
           ++ rewrite <- Hb. now apply breaker_open_frame.
           ++ rewrite E3. simpl. simpl in B3, B4. rewrite N in B3, B4.
              repeat split; auto. rewrite B3. simpl. auto.
Qed.

(** A runner used again after [shutdown()]: request 1 in flight on a new
    process, request 2 queued. *)
Definition reused_after_shutdown : t :=
  Eval vm_compute in
    fire_all [ERun 0 "a" None; EShutdown; ERun 1 "b" None; ERun 2 "c" None]
      (PersistentRunner.new sample_config).

Lemma cancel_is_not_counted_as_crash_witness :
  (cancel 5 one_in_flight_one_queued
   = Ret true (state_of (cancel 5 one_in_flight_one_queued))
   /\ crashCount (state_of (onClose None 6
                              (state_of (cancel 5 one_in_flight_one_queued)))) = 0%Z
   /\ cancelling (state_of (onClose None 6
                              (state_of (cancel 5 one_in_flight_one_queued)))) = false)
  /\ (cancelling (state_of (onClose None 9
                              (state_of (cancel 8 reused_after_shutdown)))) = true
      /\ List.length
           (queue (state_of (onClose None 9
                               (state_of (cancel 8 reused_after_shutdown))))) = 1%nat).
Proof.
  split.
  - destruct (cancel_is_not_counted_as_crash 5 6 None one_in_flight_one_queued
                first_request 0%nat eq_refl eq_refl)
      as (H1 & _ & _ & _ & _ & H2 & H3 & _).
    split; [exact H1|]. split.
    + apply H2. left. reflexivity.
    + apply H3. reflexivity.
  - destruct (cancel_is_not_counted_as_crash 8 9 None reused_after_shutdown
                (wrap (mkItem 1 "b" None None false)) 1%nat eq_refl eq_refl)
      as (_ & _ & _ & _ & _ & _ & _ & H).
    destruct (H eq_refl) as (_ & Hc & _ & Hq & _).
    split; [exact Hc|]. rewrite Hq. reflexivity.
Defined.

(** ** Streaming *)

#[local] Open Scope string_scope.

(** The text a block contributes: [block.type === 'text' && block.text]. *)
Definition chunk_of (b : Block) : list string :=
  match text b with
  | Some txt => if String.eqb (btype b) "text" && truthy txt then [txt] else []
  | None => []
  end.

Definition chunks_of (json : Json) : list string :=
  match content json with
  | Some blocks => List.flat_map chunk_of blocks
  | None => []
  end.

(** The [onText(chunk, cumulativeText)] calls for a list of chunks, the
    first call first. *)
Fixpoint text_events (i : nat) (acc : string) (chunks : list string) : list Effect :=
  match chunks with
  | [] => []
  | c :: rest => OnText i c (acc ++ c) :: text_events i (acc ++ c) rest
  end.

Definition wants_text (item : QueueItem) : bool :=
  match callbacks item with
  | Some cb => StreamCallbacks.onText cb
  | None => false
  end.

Definition text_log (s : t) (chunks : list string) : list Effect :=
  match currentItem s with
  | Some item =>
      if wants_text item then List.rev (text_events (id item) (fullText s) chunks)
      else []
  | None => []
  end.

(** The state after the text blocks of one assistant message. *)
Definition streamed (chunks : list string) (s : t) : t :=
  set_log (text_log s chunks ++ log s)%list
    (set_fullText (fullText s ++ String.concat "" chunks) s).

Lemma concat_cons (c : string) (l : list string) :
  String.concat "" (c :: l) = c ++ String.concat "" l.
Proof.
  destruct l; simpl; [now rewrite MergeFacts.app_empty_r|reflexivity].
Qed.

Lemma set_same (s : t) :
  set_log (log s) (set_fullText (fullText s) s) = s.
Proof. now destruct s. Qed.

Lemma handle_block_eq (b : Block) (s : t) :
  handle_block b s = Ret tt (streamed (chunk_of b) s).
Proof.
  unfold handle_block, streamed, chunk_of, text_log, wants_text. mstep.
  destruct (text b) as [txt|]; simpl.
  2:{ rewrite MergeFacts.app_empty_r. destruct (currentItem s) as [c|];
        [destruct (match callbacks c with Some cb => _ | None => _ end)|];
        simpl; now rewrite set_same. }
  destruct (String.eqb (btype b) "text" && truthy txt); simpl.
  2:{ rewrite MergeFacts.app_empty_r. destruct (currentItem s) as [c|];
        [destruct (match callbacks c with Some cb => _ | None => _ end)|];
        simpl; now rewrite set_same. }
  destruct (currentItem s) as [c|]; simpl.
  - destruct (callbacks c) as [cb|]; [destruct (StreamCallbacks.onText cb)|]; simpl;
      destruct s; reflexivity.
  - destruct s; reflexivity.
Qed.

Lemma concat_app (l1 l2 : list string) :
  String.concat "" (l1 ++ l2)%list = String.concat "" l1 ++ String.concat "" l2.
Proof.
  induction l1 as [|c l1 IH]; [reflexivity|].
  change ((c :: l1) ++ l2)%list with (c :: (l1 ++ l2))%list.
  now rewrite !concat_cons, IH, MergeFacts.app_assoc.
Qed.

Lemma text_events_app (i : nat) (l1 l2 : list string) : forall acc,
  text_events i acc (l1 ++ l2)%list
  = (text_events i acc l1 ++ text_events i (acc ++ String.concat "" l1) l2)%list.
Proof.
  induction l1 as [|c l1 IH]; intros acc.
  - simpl. now rewrite MergeFacts.app_empty_r.
  - change ((c :: l1) ++ l2)%list with (c :: (l1 ++ l2))%list.
    rewrite concat_cons. cbn [text_events List.app]. rewrite IH, MergeFacts.app_assoc.
    reflexivity.
Qed.

Lemma streamed_nil (s : t) : streamed [] s = s.
Proof.
  unfold streamed, text_log. simpl. rewrite MergeFacts.app_empty_r.
  destruct (currentItem s) as [c|]; [destruct (wants_text c)|]; simpl; now destruct s.
Qed.

Lemma streamed_app (l1 l2 : list string) (s : t) :
  streamed l2 (streamed l1 s) = streamed (l1 ++ l2)%list s.
Proof.
  unfold streamed, text_log. simpl.
  rewrite concat_app, MergeFacts.app_assoc.
  destruct (currentItem s) as [c|]; [destruct (wants_text c)|]; simpl; try reflexivity.
  rewrite text_events_app, rev_app_distr, <- List.app_assoc. reflexivity.
Qed.

Lemma for_each_blocks_eq (blocks : list Block) : forall s,
  for_each blocks handle_block s = Ret tt (streamed (List.flat_map chunk_of blocks) s).
Proof.
  induction blocks as [|b bl IH]; intros s; simpl.
  - now rewrite streamed_nil.
  - unfold bind. rewrite handle_block_eq, IH, streamed_app. reflexivity.
Qed.

Lemma handle_assistant_eq (now : Z) (json : Json) (s : t) :
  type json = "assistant" ->
  handleJsonMessage now json s = Ret tt (streamed (chunks_of json) s).
Proof.
  intros Ht. unfold handleJsonMessage, chunks_of. rewrite Ht. simpl.
  cbv [bind when ret].
  destruct (content json) as [bl|].
  - now rewrite for_each_blocks_eq.
  - now rewrite streamed_nil.
Qed.

(** An assistant message with two text blocks and one block of another
    kind. *)
Definition two_chunks : Json :=
  mkJson "assistant" None
    (Some [mkBlock "text" (Some "Hello, "); mkBlock "tool_use" None;
           mkBlock "text" (Some "world")])
    None false.

(** The continuation token after a message: [json.session_id] when it is
    truthy, the stored one otherwise. *)
Definition token_after (json : Json) (s : t) : string :=
  match session_id json with
  | Some sid => if truthy sid then sid else sessionId s
  | None => sessionId s
  end.

(** The text a successful result message resolves with. *)
Definition final_text (json : Json) (acc : string) : string :=
  match result json with
  | Some r => if truthy r then mergeTexts acc r else acc
  | None => acc
  end.

(** The message of the error a failed result message rejects with. *)
Definition error_text (json : Json) : string :=
  match result json with
  | Some r => if truthy r then r else "Unknown error"
  | None => "Unknown error"
  end.

Definition wants_complete (item : QueueItem) : bool :=
  match callbacks item with
  | Some cb => StreamCallbacks.onComplete cb
  | None => false
  end.

Definition wants_error (item : QueueItem) : bool :=
  match callbacks item with
  | Some cb => StreamCallbacks.onError cb
  | None => false
  end.

Lemma result_success_eq (now : Z) (json : Json) (s : t) (item : QueueItem) :
  type json = "result" -> is_error json = false -> currentItem s = Some item ->
  let res := RunResult.mk (final_text json (fullText s)) (token_after json s) in
  exists s0,
    handleJsonMessage now json s = processNext now s0
    /\ log s0 = (Resolve (id item) res
                 :: (if wrapped item then [ClearTimeout (id item)] else [])
                 ++ (if wants_complete item then [OnComplete (id item) res] else [])
                 ++ log s)%list
    /\ currentItem s0 = None /\ fullText s0 = "" /\ queue s0 = queue s
    /\ sessionId s0 = token_after json s
    /\ process s0 = process s /\ processAlive s0 = processAlive s
    /\ crashCount s0 = crashCount s /\ lastCrashTime s0 = lastCrashTime s
    /\ nextPid s0 = nextPid s /\ cfg s0 = cfg s.
Proof.
  intros Ht He Hc res. unfold handleJsonMessage. rewrite Ht, He. simpl.
  unfold res, final_text, token_after, wants_complete, store_session_id. mstep.
  destruct (session_id json) as [sid|]; [destruct (truthy sid)|];
    (destruct (result json) as [r|]; [destruct (truthy r)|]); simpl; rewrite Hc; simpl;
    (destruct (callbacks item) as [cb|]; [destruct (StreamCallbacks.onComplete cb)|]); simpl;
    rewrite ?Hc; simpl; destruct (wrapped item); simpl;
    eexists; (split; [reflexivity|]); simpl; auto 20.
Qed.

Lemma result_error_eq (now : Z) (json : Json) (s : t) (item : QueueItem) :
  type json = "result" -> is_error json = true -> currentItem s = Some item ->
  let err := Upstream (error_text json) in
  exists s0,
    handleJsonMessage now json s = processNext now s0
    /\ log s0 = (Reject (id item) err
                 :: (if wrapped item then [ClearTimeout (id item)] else [])
                 ++ (if wants_error item then [OnError (id item) err] else [])
                 ++ log s)%list
    /\ currentItem s0 = None /\ fullText s0 = "" /\ queue s0 = queue s
    /\ sessionId s0 = token_after json s
    /\ process s0 = process s /\ processAlive s0 = processAlive s
    /\ crashCount s0 = crashCount s /\ lastCrashTime s0 = lastCrashTime s
    /\ nextPid s0 = nextPid s /\ cfg s0 = cfg s.
Proof.
  intros Ht He Hc err. unfold handleJsonMessage. rewrite Ht, He. simpl.
  unfold err, error_text, token_after, wants_error, store_session_id. mstep.
  destruct (session_id json) as [sid|]; [destruct (truthy sid)|];
    (destruct (result json) as [r|]; [destruct (truthy r)|]); simpl; rewrite Hc; simpl;
    (destruct (callbacks item) as [cb|]; [destruct (StreamCallbacks.onError cb)|]); simpl;
    rewrite ?Hc; simpl; destruct (wrapped item); simpl;
    eexists; (split; [reflexivity|]); simpl; auto 20.
Qed.

(** The stdout messages [js] handled one after the other. *)
Definition feed (now : Z) (js : list Json) (s : t) : t :=
  List.fold_left (fun s j => state_of (handleJsonMessage now j s)) js s.

Lemma feed_assistants (now : Z) (js : list Json) : forall s,
  Forall (fun j => type j = "assistant") js ->
  feed now js s = streamed (List.flat_map chunks_of js) s.
Proof.
  induction js as [|j js IH]; intros s H; simpl.
  - now rewrite streamed_nil.
  - apply Forall_cons_iff in H as [Hj Hjs].
    rewrite handle_assistant_eq by assumption. simpl.
    rewrite IH by assumption. apply streamed_app.
Qed.

Lemma settled_ids_app (l1 l2 : list Effect) :
  settled_ids (l1 ++ l2)%list = (settled_ids l1 ++ settled_ids l2)%list.
Proof. unfold settled_ids. apply flat_map_app. Qed.

Lemma settled_text_events (i : nat) (chunks : list string) : forall acc,
  settled_ids (List.rev (text_events i acc chunks)) = [].
Proof.
  induction chunks as [|c l IH]; intros acc; simpl; [reflexivity|].
  rewrite settled_ids_app, IH. reflexivity.
Qed.

Lemma streamed_fields (chunks : list string) (s : t) :
  currentItem (streamed chunks s) = currentItem s
  /\ fullText (streamed chunks s) = fullText s ++ String.concat "" chunks
  /\ sessionId (streamed chunks s) = sessionId s
  /\ queue (streamed chunks s) = queue s
  /\ settled_ids (log (streamed chunks s)) = settled_ids (log s)
  /\ incl (log s) (log (streamed chunks s)).
Proof.
  unfold streamed, text_log. simpl. repeat split.
  - rewrite settled_ids_app.
    destruct (currentItem s) as [c|]; [destruct (wants_text c)|]; simpl; try reflexivity.
    now rewrite settled_text_events.
  - apply incl_appr, incl_refl.
Qed.

(** X7.  Assistant messages append the text of their text blocks, in
    order, to [fullText], and call [onText(chunk, cumulativeText)] once per
    block when the request in flight has that callback; they do nothing
    else: the request in flight, the queue and the continuation token stay,
    and no promise is settled. *)
Theorem assistant_messages_accumulate (now : Z) (js : list Json) (s : t) :
  Forall (fun j => type j = "assistant") js ->
  let chunks := List.flat_map chunks_of js in
  let s' := feed now js s in
  fullText s' = fullText s ++ String.concat "" chunks
  /\ log s' = (text_log s chunks ++ log s)%list
  /\ currentItem s' = currentItem s
  /\ queue s' = queue s
  /\ sessionId s' = sessionId s
  /\ settled_ids (log s') = settled_ids (log s).
Proof.
  intros H chunks s'. unfold s'. rewrite feed_assistants by assumption.
  destruct (streamed_fields chunks s) as (F1 & F2 & F3 & F4 & F5 & _).
  fold chunks. repeat split; assumption.
Qed.

Lemma assistant_messages_accumulate_witness :
  fullText (feed 2 [two_chunks] one_in_flight_one_queued) = "Hello, world".
Proof.
  destruct (assistant_messages_accumulate 2 [two_chunks] one_in_flight_one_queued
              (Forall_cons two_chunks (eq_refl : type two_chunks = "assistant")
                 (Forall_nil _)))
    as (H & _).
  rewrite H. reflexivity.
Defined.

(** The promises resolved so far, the latest first. *)
Definition resolved_ids (l : list Effect) : list nat :=
  List.flat_map (fun e => match e with Resolve i _ => [i] | _ => [] end) l.

Lemma ensureProcess_resolved now s :
  resolved_ids (log (state_of (ensureProcess now s))) = resolved_ids (log s).
Proof.
  unfold ensureProcess, ensureProcess_start. mstep.
  destruct (process s); [destruct (processAlive s)|]; simpl; try reflexivity;
  destruct (MAX_CRASHES <=? crashCount s)%Z; simpl; try reflexivity;
  destruct (now - lastCrashTime s <? CRASH_WINDOW_MS)%Z; simpl; reflexivity.
Qed.

Lemma processNext_resolved now s :
  resolved_ids (log (state_of (processNext now s))) = resolved_ids (log s).
Proof.
  unfold processNext. mstep.
  destruct (currentItem s) as [c|] eqn:Hc; simpl; [reflexivity|].
  destruct (queue s) as [|it rest] eqn:Hq; simpl; [reflexivity|].
  match goal with |- context [ensureProcess now ?X] =>
    pose proof (ensureProcess_resolved now X) as Hv;
    destruct (ensureProcess now X) as [p s'|e s'] end;
  simpl in *; assumption.
Qed.

(** X8.  When assistant messages are followed by a successful result
    message, the request in flight is resolved, once, with the merge of
    all the text streamed since [fullText] and the result's text, and with
    the continuation token of the result message (the stored one when the
    message carries none); [onComplete] gets the same value. *)
Theorem streamed_text_is_merged_into_result
    (now : Z) (js : list Json) (r : Json) (s : t) (item : QueueItem) :
  currentItem s = Some item ->
  Forall (fun j => type j = "assistant") js ->
  type r = "result" -> is_error r = false ->
  let acc := fullText s ++ String.concat "" (List.flat_map chunks_of js) in
  let res := RunResult.mk (final_text r acc) (token_after r s) in
  let s' := state_of (handleJsonMessage now r (feed now js s)) in
  In (Resolve (id item) res) (log s')
  /\ (wants_complete item = true -> In (OnComplete (id item) res) (log s'))
  /\ settled_ids (log s') = id item :: settled_ids (log s)
  /\ sessionId s' = token_after r s.
Proof.
  intros Hc Hjs Ht He acc res s'.
  unfold s'. rewrite feed_assistants by assumption.
  set (s1 := streamed (List.flat_map chunks_of js) s).
  destruct (streamed_fields (List.flat_map chunks_of js) s) as (F1 & F2 & F3 & F4 & F5 & F6).
  fold s1 in F1, F2, F3, F4, F5, F6. rewrite Hc in F1.
  destruct (result_success_eq now r s1 item Ht He F1)
    as (s0 & E & L & C & _ & _ & S & _).
  assert (Htok : token_after r s1 = token_after r s).
  { unfold token_after. now rewrite F3. }
  rewrite F2, Htok in L. fold acc in L. fold res in L. clearbody s1.
  rewrite E.
  pose proof (processNext_same now s0) as Hsame.
  pose proof (processNext_view now s0) as Hview.
  repeat split.
  - apply (same_log _ _ Hsame). rewrite L. now left.
  - intros Hw. apply (same_log _ _ Hsame). rewrite L, Hw. right.
    apply in_or_app. right. now left.
  - assert (Hs : v_settled (view (state_of (processNext now s0))) = v_settled (view s0)).
    { rewrite Hview. unfold v_shift. simpl. rewrite C. simpl.
      destruct (List.map id (queue s0)); reflexivity. }
    simpl in Hs. rewrite Hs, L. simpl. f_equal.
    rewrite !settled_ids_app.
    destruct (wrapped item), (wants_complete item); simpl; assumption.
  - rewrite (same_sessionId _ _ Hsame). now rewrite S.
Qed.

(** The result message that ends the turn of [two_chunks]. *)
Definition final_result : Json :=
  mkJson "result" (Some "session-1") None (Some "world") false.

Lemma streamed_text_is_merged_into_result_witness :
  In (Resolve 0 (RunResult.mk "Hello, world" "session-1"))
     (log (state_of (handleJsonMessage 3 final_result
                       (feed 2 [two_chunks] one_in_flight_one_queued)))).
Proof.
  destruct (streamed_text_is_merged_into_result 3 [two_chunks] final_result
              one_in_flight_one_queued first_request eq_refl
              (Forall_cons two_chunks (eq_refl : type two_chunks = "assistant") (Forall_nil _)) eq_refl eq_refl)
    as (H & _).
  exact H.
Defined.

(** X9.  A result message whose error flag is set rejects the request in
    flight with the message's text ('Unknown error' when it is missing or
    empty), calls [onError] with it, and resolves nothing. *)
Theorem error_result_rejects
    (now : Z) (json : Json) (s : t) (item : QueueItem) :
  currentItem s = Some item ->
  type json = "result" -> is_error json = true ->
  let err := Upstream (error_text json) in
  let s' := state_of (handleJsonMessage now json s) in
  In (Reject (id item) err) (log s')
  /\ (wants_error item = true -> In (OnError (id item) err) (log s'))
  /\ settled_ids (log s') = id item :: settled_ids (log s)
  /\ resolved_ids (log s') = resolved_ids (log s).
Proof.
  intros Hc Ht He err s'.
  destruct (result_error_eq now json s item Ht He Hc) as (s0 & E & L & C & _).
  fold err in L. unfold s'. rewrite E.
  pose proof (processNext_same now s0) as Hsame.
  pose proof (processNext_view now s0) as Hview.
  repeat split.
  - apply (same_log _ _ Hsame). rewrite L. now left.
  - intros Hw. apply (same_log _ _ Hsame). rewrite L, Hw. right.
    apply in_or_app. right. now left.
  - assert (Hs : v_settled (view (state_of (processNext now s0))) = v_settled (view s0)).
    { rewrite Hview. unfold v_shift. simpl. rewrite C. simpl.
      destruct (List.map id (queue s0)); reflexivity. }
    simpl in Hs. rewrite Hs, L. simpl. f_equal.
    rewrite !settled_ids_app.
    destruct (wrapped item), (wants_error item); simpl; reflexivity.
  - assert (Hs : resolved_ids (log (state_of (processNext now s0))) = resolved_ids (log s0)).
    { apply processNext_resolved. }
    rewrite Hs, L. unfold resolved_ids. simpl. rewrite !flat_map_app.
    destruct (wrapped item), (wants_error item); reflexivity.
Qed.

(** A result message that reports an error without a text. *)
Definition failed_result : Json := mkJson "result" None None None true.

Lemma error_result_rejects_witness :
  In (Reject 0 (Upstream "Unknown error"))
     (log (state_of (handleJsonMessage 3 failed_result one_in_flight_one_queued))).
Proof.
  destruct (error_result_rejects 3 failed_result one_in_flight_one_queued
              first_request eq_refl eq_refl eq_refl) as (H & _).
  exact H.
Defined.
End SessionFacts.

(* ===================================================================== *)
(** * Timers, process handles and the order of dispatch                    *)
(* ===================================================================== *)

Module Bookkeeping.
Import PersistentRunner Session.
#[local] Open Scope Z_scope.

(** The requests for which [processNext] armed a timer, the latest first:
    these are the requests that were written to a process. *)
Definition started_ids (l : list Effect) : list nat :=
  List.flat_map (fun e => match e with SetTimeout i _ => [i] | _ => [] end) l.

Definition dispatch_order (s : t) : list nat := List.rev (started_ids (log s)).

(** What the bookkeeping argument sees of a runner. *)
Record Books : Type := mkBooks
  { b_queue : list (nat * bool);
    b_cur : option (nat * bool);
    b_timers : list nat;
    b_started : list nat;
    b_process : option nat;
    b_alive : bool;
    b_nextPid : nat;
    b_nextReq : nat;
    b_shut : bool }.

Definition tag (item : QueueItem) : nat * bool := (id item, wrapped item).

Definition books (s : t) : Books :=
  {| b_queue := List.map tag (queue s);
     b_cur := option_map tag (currentItem s);
     b_timers := timers s;
     b_started := started_ids (log s);
     b_process := process s;
     b_alive := processAlive s;
     b_nextPid := nextPid s;
     b_nextReq := nextReq s;
     b_shut := shuttingDown s |}.

(** The moves the handlers are made of. *)
Definition b_gone (v : Books) : Books :=
  mkBooks (b_queue v) (b_cur v) (b_timers v) (b_started v) None false
    (b_nextPid v) (b_nextReq v) (b_shut v).

Definition b_kill (v : Books) : Books :=
  match b_process v with
  | Some _ => b_gone v
  | None => v
  end.

Definition unarm (iw : nat * bool) (tm : list nat) : list nat :=
  if snd iw then List.remove Nat.eq_dec (fst iw) tm else tm.

Definition b_settle (v : Books) : Books :=
  match b_cur v with
  | Some iw =>
      mkBooks (b_queue v) None (unarm iw (b_timers v)) (b_started v)
        (b_process v) (b_alive v) (b_nextPid v) (b_nextReq v) (b_shut v)
  | None => v
  end.

Definition b_push (v : Books) : Books :=
  mkBooks (b_queue v ++ [(b_nextReq v, false)])%list (b_cur v) (b_timers v)
    (b_started v) (b_process v) (b_alive v) (b_nextPid v) (S (b_nextReq v))
    (b_shut v).

Definition b_drop_queue (v : Books) : Books :=
  mkBooks [] (b_cur v)
    (List.fold_left (fun tm iw => unarm iw tm) (b_queue v) (b_timers v))
    (b_started v) (b_process v) (b_alive v) (b_nextPid v) (b_nextReq v)
    (b_shut v).

Definition b_unarm (i : nat) (v : Books) : Books :=
  mkBooks (b_queue v) (b_cur v) (List.remove Nat.eq_dec i (b_timers v))
    (b_started v) (b_process v) (b_alive v) (b_nextPid v) (b_nextReq v)
    (b_shut v).

Definition b_shutting (v : Books) : Books :=
  mkBooks (b_queue v) (b_cur v) (b_timers v) (b_started v) (b_process v)
    (b_alive v) (b_nextPid v) (b_nextReq v) true.

(** [processNext]; [refused] says that the breaker is open. *)
Definition b_next (refused : bool) (v : Books) : Books :=
  match b_cur v, b_queue v with
  | None, (i, w) :: rest =>
      if isSome (b_process v) && b_alive v then
        mkBooks rest (Some (i, true)) (i :: b_timers v) (i :: b_started v)
          (b_process v) (b_alive v) (b_nextPid v) (b_nextReq v) (b_shut v)
      else if refused then
        mkBooks rest (Some (i, w)) (b_timers v) (b_started v)
          (b_process v) (b_alive v) (b_nextPid v) (b_nextReq v) (b_shut v)
      else
        mkBooks rest (Some (i, true)) (i :: b_timers v) (i :: b_started v)
          (Some (b_nextPid v)) true (S (b_nextPid v)) (b_nextReq v) (b_shut v)
  | _, _ => v
  end.

Lemma ensureProcess_books (now : Z) (s : t) :
  (isSome (process s) && processAlive s = true ->
     exists p, ensureProcess now s = Ret p s)
  /\ (isSome (process s) && processAlive s = false ->
      if breaker_open now s
      then exists e, ensureProcess now s = Throw e s
      else exists s', ensureProcess now s = Ret (nextPid s) s'
             /\ books s' = mkBooks (b_queue (books s)) (b_cur (books s))
                             (timers s) (started_ids (log s))
                             (Some (nextPid s)) true (S (nextPid s))
                             (nextReq s) (shuttingDown s)
             /\ currentItem s' = currentItem s /\ cfg s' = cfg s).
Proof.
  split.
  - intros H. apply andb_prop in H as [Hp Ha].
    destruct (process s) as [p|] eqn:E; [|discriminate].
    exists p. now apply ensureProcess_reuse.
  - intros H. assert (Hn : needs_process s = true) by (unfold needs_process; now rewrite H).
    destruct (breaker_open now s) eqn:Hb.
    + eexists. now apply ensureProcess_open.
    + destruct (Z.ltb_spec (crashCount s) MAX_CRASHES) as [Hlt|Hge].
      * rewrite ensureProcess_below_threshold by assumption.
        eexists; split; [reflexivity|]. simpl. auto.
      * rewrite ensureProcess_cooled_down; try assumption.
        -- eexists; split; [reflexivity|]. simpl. auto.
        -- destruct (Z.ltb_spec (now - lastCrashTime s) CRASH_WINDOW_MS) as [Hw|Hw]; [|assumption].
           assert (breaker_open now s = true) by (apply breaker_open_iff; auto). congruence.
Qed.

Lemma processNext_books (now : Z) (s : t) :
  books (state_of (processNext now s)) = b_next (breaker_open now s) (books s).
Proof.
  unfold processNext. cbv [bind get modify ret emit]. unfold b_next. simpl.
  destruct (currentItem s) as [c|] eqn:Hc; simpl; [unfold books; now rewrite Hc|].
  destruct (queue s) as [|it rest] eqn:Hq; simpl; [unfold books; now rewrite Hc, Hq|].
  set (s0 := set_fullText "" (set_currentItem (Some it) (set_queue rest s))).
  destruct (ensureProcess_books now s0) as [Hreuse Hstart].
  assert (Hb : breaker_open now s0 = breaker_open now s) by reflexivity.
  change (process s0) with (process s) in *. change (processAlive s0) with (processAlive s) in *.
  destruct (isSome (process s) && processAlive s) eqn:Hpa.
  - destruct (Hreuse eq_refl) as (p & E). rewrite E. simpl. reflexivity.
  - specialize (Hstart eq_refl). rewrite Hb in Hstart.
    destruct (breaker_open now s).
    + destruct Hstart as (e & E). rewrite E. simpl. reflexivity.
    + destruct Hstart as (s' & E & B & C & G). rewrite E. simpl.
      unfold books in B |- *. simpl in *. injection B as B1 B2 B3 B4 B5 B6 B7 B8 B9.
      rewrite C. simpl. rewrite B1, B3, B4, B5, B6, B7, B8, B9. reflexivity.
Qed.

Lemma started_ids_app (l1 l2 : list Effect) :
  started_ids (l1 ++ l2)%list = (started_ids l1 ++ started_ids l2)%list.
Proof. unfold started_ids. apply flat_map_app. Qed.

Lemma enqueue_books (now : Z) prompt options callbacks (s : t) :
  books (state_of (enqueue now prompt options callbacks s))
  = b_next (breaker_open now s) (b_push (books s)).
Proof.
  unfold enqueue. mstep.
  match goal with |- context [processNext now ?X] =>
    pose proof (processNext_books now X) as Hv;
    destruct (processNext now X) as [p s'|e s'] end;
  simpl in Hv |- *.
  - rewrite Hv. unfold b_push, books. simpl. now rewrite map_app.
  - change (books (set_log (Reject (nextReq s) e :: log s') s')) with (books s').
    rewrite Hv. unfold b_push, books. simpl. now rewrite map_app.
Qed.

Definition b_reject (iw : nat * bool) (v : Books) : Books :=
  mkBooks (b_queue v) (b_cur v) (unarm iw (b_timers v)) (b_started v)
    (b_process v) (b_alive v) (b_nextPid v) (b_nextReq v) (b_shut v).

Lemma rejected_books it e s : books (rejected it e s) = b_reject (tag it) (books s).
Proof. unfold rejected, b_reject, unarm, tag. mstep. destruct (wrapped it); reflexivity. Qed.

Lemma resolved_books it r s : books (resolved it r s) = b_reject (tag it) (books s).
Proof. unfold resolved, b_reject, unarm, tag. mstep. destruct (wrapped it); reflexivity. Qed.

Lemma fold_reject (l : list (nat * bool)) : forall v,
  List.fold_left (fun v iw => b_reject iw v) l v
  = mkBooks (b_queue v) (b_cur v)
      (List.fold_left (fun tm iw => unarm iw tm) l (b_timers v))
      (b_started v) (b_process v) (b_alive v) (b_nextPid v) (b_nextReq v) (b_shut v).
Proof.
  induction l as [|iw l IH]; intros v; simpl; [now destruct v|].
  rewrite IH. reflexivity.
Qed.

Lemma rejected_all_books l e : forall s,
  books (rejected_all l e s)
  = List.fold_left (fun v iw => b_reject iw v) (List.map tag l) (books s).
Proof.
  induction l as [|it l IH]; intros s; simpl; [reflexivity|].
  rewrite IH, rejected_books. reflexivity.
Qed.

Lemma drop_current_books e s :
  books (SessionFacts.drop_current e s) = b_settle (books s).
Proof.
  unfold SessionFacts.drop_current, b_settle. unfold books at 2. simpl.
  destruct (currentItem s) as [c|] eqn:Hc; simpl.
  - change (books (set_currentItem None (rejected c e s)))
      with (mkBooks (b_queue (books (rejected c e s))) None
              (b_timers (books (rejected c e s))) (b_started (books (rejected c e s)))
              (b_process (books (rejected c e s))) (b_alive (books (rejected c e s)))
              (b_nextPid (books (rejected c e s))) (b_nextReq (books (rejected c e s)))
              (b_shut (books (rejected c e s)))).
    rewrite rejected_books. unfold b_reject. simpl. reflexivity.
  - unfold books. now rewrite Hc.
Qed.

(** Settling the request in flight, in the three ways the handlers do it. *)
Lemma settle_inline_books (e : Error) (s : t) (c : QueueItem) :
  currentItem s = Some c ->
  exists s',
    (call_onError c e ;; item_reject c e ;; modify (set_currentItem None)) s = Ret tt s'
    /\ books s' = b_settle (books s)
    /\ crashCount s' = crashCount s /\ lastCrashTime s' = lastCrashTime s
    /\ fullText s' = fullText s.
Proof.
  intros Hc. mstep.
  destruct (callbacks c) as [cb|]; [destruct (StreamCallbacks.onError cb)|]; simpl;
    destruct (wrapped c) eqn:Hw; simpl; eexists; (split; [reflexivity|]);
    unfold books, b_settle, unarm, tag; simpl; rewrite Hc; simpl; rewrite Hw; auto.
Qed.

Lemma kill_books (s : t) :
  books (state_of ((match process s with
                    | Some p => kill_process p
                    | None => ret tt
                    end) s))
  = b_kill (books s)
  /\ (forall now, breaker_open now
                    (state_of ((match process s with
                                | Some p => kill_process p
                                | None => ret tt
                                end) s)) = breaker_open now s)
  /\ returns ((match process s with
               | Some p => kill_process p
               | None => ret tt
               end) s) = true.
Proof.
  unfold b_kill. unfold books at 2. simpl.
  destruct (process s) as [p|] eqn:Hp; mstep; simpl; repeat split.
Qed.

Lemma onTimeout_books (now : Z) (s : t) :
  books (state_of (onTimeout now s))
  = match currentItem s with
    | Some _ => b_next (breaker_open now s) (b_kill (b_settle (books s)))
    | None => books s
    end.
Proof.
  unfold onTimeout. mstep.
  destruct (currentItem s) as [c|] eqn:Hc; simpl; [|reflexivity].
  destruct (callbacks c) as [cb|]; [destruct (StreamCallbacks.onError cb)|]; simpl;
    destruct (wrapped c) eqn:Hw; simpl; destruct (process s) eqn:Hp; simpl;
    rewrite processNext_books; unfold books, b_kill, b_settle, unarm, tag; simpl;
    rewrite Hc; simpl; rewrite Hw, Hp; reflexivity.
Qed.

Lemma fire_timer_books (now : Z) (i : nat) (s : t) :
  books (state_of (fire_timer now i s))
  = if List.existsb (Nat.eqb i) (timers s) then
      match currentItem s with
      | Some _ => b_next (breaker_open now s) (b_kill (b_settle (b_unarm i (books s))))
      | None => b_unarm i (books s)
      end
    else books s.
Proof.
  unfold fire_timer. cbv [bind get modify].
  destruct (List.existsb (Nat.eqb i) (timers s)); [|reflexivity].
  rewrite onTimeout_books. simpl. destruct (currentItem s); reflexivity.
Qed.

Lemma onProcessError_books (err : string) (s : t) :
  books (state_of (onProcessError err s)) = b_settle (b_gone (books s)).
Proof.
  unfold onProcessError. unfold bind at 1 2. unfold modify at 1 2.
  rewrite SessionFacts.with_current_reject. simpl. now rewrite drop_current_books.
Qed.

Lemma cancel_books (now : Z) (s : t) :
  books (state_of (cancel now s))
  = match currentItem s, process s with
    | None, _ => books s
    | Some _, Some _ => b_gone (b_settle (books s))
    | Some _, None => b_next (breaker_open now s) (b_settle (books s))
    end.
Proof.
  unfold cancel. mstep.
  destruct (currentItem s) as [c|] eqn:Hc; simpl; [|reflexivity].
  destruct (callbacks c) as [cb|]; [destruct (StreamCallbacks.onError cb)|]; simpl;
    destruct (wrapped c) eqn:Hw; simpl; destruct (process s) eqn:Hp; simpl;
    try (unfold books, b_gone, b_settle, unarm, tag; simpl; rewrite Hc; simpl;
         rewrite Hw; reflexivity);
    match goal with |- context [processNext now ?X] =>
      pose proof (processNext_books now X) as HV; destruct (processNext now X) end;
    simpl in *; rewrite HV; unfold books, b_settle, unarm, tag; simpl; rewrite Hc; simpl;
    rewrite Hw; reflexivity.
Qed.

Lemma shutdown_books (s : t) :
  books (state_of (shutdown s))
  = match process s with
    | Some _ => b_settle (b_drop_queue (b_gone (b_shutting (books s))))
    | None => books s
    end.
Proof.
  unfold shutdown. unfold bind at 1. unfold get at 1.
  destruct (process s) as [p|]; [|reflexivity].
  unfold bind at 1 2 3 4. unfold modify at 1. unfold emit at 1. unfold modify at 1.
  unfold kill_process. unfold bind at 1 2 3. unfold emit at 1. unfold modify at 1 2 3 4.
  unfold get at 1. unfold bind at 1. rewrite for_each_reject.
  unfold bind at 1. unfold modify at 1.
  rewrite SessionFacts.with_current_reject. simpl state_of.
  rewrite drop_current_books. f_equal.
  match goal with |- books (set_queue [] (rejected_all ?l ?e ?X)) = _ =>
    pose proof (rejected_all_books l e X) as HV;
    change (books (set_queue [] (rejected_all l e X)))
      with (mkBooks [] (b_cur (books (rejected_all l e X)))
              (b_timers (books (rejected_all l e X)))
              (b_started (books (rejected_all l e X)))
              (b_process (books (rejected_all l e X)))
              (b_alive (books (rejected_all l e X)))
              (b_nextPid (books (rejected_all l e X)))
              (b_nextReq (books (rejected_all l e X)))
              (b_shut (books (rejected_all l e X)))) end.
  rewrite HV, fold_reject. reflexivity.
Qed.

Lemma onClose_books (code : option Z) (now : Z) (s : t) :
  books (state_of (onClose code now s))
  = if shuttingDown s then b_gone (books s)
    else if cancelling s then b_next (breaker_open now s) (b_gone (books s))
    else if (crashCount s + 1 <? MAX_CRASHES)
         then b_next false (b_settle (b_gone (books s)))
         else b_drop_queue (b_settle (b_gone (books s))).
Proof.
  destruct (shuttingDown s) eqn:Hsd.
  - now rewrite SessionFacts.onClose_ignored_when_shut_down.
  - destruct (cancelling s) eqn:Hca.
    + rewrite SessionFacts.onClose_after_cancel_eq by assumption. cbv zeta.
      destruct (queue s) as [|q l] eqn:Hq; simpl.
      * unfold b_next, books. simpl. rewrite Hq. simpl.
        now destruct (option_map tag (currentItem s)).
      * rewrite processNext_books. reflexivity.
    + rewrite SessionFacts.onClose_crash_eq by assumption. cbv zeta.
      set (s1 := SessionFacts.drop_current (ProcessExited code) (SessionFacts.crashed now s)).
      assert (B1 : books s1 = b_settle (b_gone (books s))).
      { unfold s1. now rewrite drop_current_books. }
      destruct (SessionFacts.drop_current_fields (ProcessExited code)
                  (SessionFacts.crashed now s))
        as (_&_&_&A4&A5&_&_&A8&A9&_).
      fold s1 in A4, A5, A8, A9. simpl in A4, A8, A9. rewrite A8.
      destruct (crashCount s + 1 <? MAX_CRASHES) eqn:Hlt.
      * rewrite andb_true_r.
        assert (Hb : breaker_open now s1 = false).
        { unfold breaker_open, getCircuitBreakerStatus. simpl. rewrite A8.
          apply Z.ltb_lt in Hlt. apply Z.leb_gt in Hlt. now rewrite Hlt. }
        destruct (Nat.ltb 0 (List.length (queue s1))) eqn:Hl.
        -- now rewrite processNext_books, Hb, B1.
        -- apply Z.ltb_lt in Hlt. apply Z.leb_gt in Hlt. rewrite Hlt. simpl.
           rewrite <- B1. unfold b_next, books. simpl.
           destruct (queue s1); [|discriminate]. simpl.
           now destruct (option_map tag (currentItem s1)).
      * rewrite andb_false_r.
        apply Z.ltb_ge in Hlt. apply Z.leb_le in Hlt. rewrite Hlt. simpl.
        rewrite <- B1.
        pose proof (rejected_all_books (queue s1) CircuitOpenQueued s1) as HV.
        change (books (set_queue [] (rejected_all (queue s1) CircuitOpenQueued s1)))
          with (mkBooks [] (b_cur (books (rejected_all (queue s1) CircuitOpenQueued s1)))
              (b_timers (books (rejected_all (queue s1) CircuitOpenQueued s1)))
              (b_started (books (rejected_all (queue s1) CircuitOpenQueued s1)))
              (b_process (books (rejected_all (queue s1) CircuitOpenQueued s1)))
              (b_alive (books (rejected_all (queue s1) CircuitOpenQueued s1)))
              (b_nextPid (books (rejected_all (queue s1) CircuitOpenQueued s1)))
              (b_nextReq (books (rejected_all (queue s1) CircuitOpenQueued s1)))
              (b_shut (books (rejected_all (queue s1) CircuitOpenQueued s1)))).
        rewrite HV, fold_reject. reflexivity.
Qed.

Lemma store_session_id_books (json : Json) (s : t) :
  exists s', store_session_id json s = Ret tt s' /\ books s' = books s
    /\ (forall now, breaker_open now s' = breaker_open now s).
Proof.
  unfold store_session_id. mstep.
  destruct (session_id json) as [sid|]; [destruct (truthy sid)|]; simpl; eauto.
Qed.

Lemma streamed_books (chunks : list string) (s : t) :
  books (SessionFacts.streamed chunks s) = books s.
Proof.
  unfold SessionFacts.streamed, SessionFacts.text_log, books. simpl.
  rewrite started_ids_app.
  assert (H : forall i l acc,
             started_ids (List.rev (SessionFacts.text_events i acc l)) = []).
  { intros i l. induction l as [|c l IH]; intros acc; simpl; [reflexivity|].
    rewrite started_ids_app, IH. reflexivity. }
  destruct (currentItem s) as [c|]; [destruct (SessionFacts.wants_text c)|]; simpl;
    rewrite ?H; reflexivity.
Qed.

Lemma handleJsonMessage_books (now : Z) (json : Json) (s : t) :
  books (state_of (handleJsonMessage now json s))
  = if String.eqb (type json) "result"
    then b_next (breaker_open now s) (b_settle (books s))
    else books s.
Proof.
  unfold handleJsonMessage.
  unfold bind at 1. unfold when at 1.
  assert (H1 : exists s1,
             (if String.eqb (type json) "system" then store_session_id json else ret tt) s
             = Ret tt s1 /\ books s1 = books s
             /\ (forall now, breaker_open now s1 = breaker_open now s)).
  { destruct (String.eqb (type json) "system"); [|unfold ret; eauto].
    apply store_session_id_books. }
  destruct H1 as (s1 & E1 & V1 & O1). rewrite E1. rewrite <- V1, <- O1. clear E1 V1 O1 s.
  unfold bind at 1. unfold when at 1.
  assert (H2 : exists s2,
             (if String.eqb (type json) "assistant"
              then match content json with
                   | Some blocks => for_each blocks handle_block
                   | None => ret tt
                   end
              else ret tt) s1 = Ret tt s2 /\ books s2 = books s1
             /\ (forall now, breaker_open now s2 = breaker_open now s1)).
  { destruct (String.eqb (type json) "assistant"); [|unfold ret; eauto].
    destruct (content json) as [bl|]; [|unfold ret; eauto].
    rewrite SessionFacts.for_each_blocks_eq. eexists. split; [reflexivity|].
    split; [apply streamed_books|reflexivity]. }
  destruct H2 as (s2 & E2 & V2 & O2). rewrite E2. rewrite <- V2, <- O2. clear E2 V2 O2 s1.
  unfold when. destruct (String.eqb (type json) "result"); [|reflexivity].
  unfold bind at 1.
  destruct (store_session_id_books json s2) as (s3 & E3 & V3 & O3).
  rewrite E3. rewrite <- V3, <- O3. clear E3 V3 O3 s2.
  mstep.
  destruct (is_error json); simpl.
  - destruct (currentItem s3) as [c|] eqn:Hc; simpl.
    + destruct (callbacks c) as [cb|]; [destruct (StreamCallbacks.onError cb)|]; simpl;
        rewrite ?Hc; simpl; destruct (wrapped c) eqn:Hw; simpl; rewrite processNext_books;
        unfold books, b_settle, unarm, tag; simpl; rewrite Hc; simpl; rewrite Hw;
        reflexivity.
    + rewrite Hc. simpl. rewrite processNext_books.
      unfold books, b_settle; simpl; rewrite Hc; reflexivity.
  - destruct (result json) as [r|]; [destruct (truthy r)|]; simpl;
    (destruct (currentItem s3) as [c|] eqn:Hc; simpl;
      [ destruct (callbacks c) as [cb|]; [destruct (StreamCallbacks.onComplete cb)|];
        simpl; rewrite ?Hc; simpl; destruct (wrapped c) eqn:Hw; simpl;
        rewrite processNext_books; unfold books, b_settle, unarm, tag; simpl;
        rewrite Hc; simpl; rewrite Hw; reflexivity
      | rewrite ?Hc; simpl; rewrite processNext_books;
        unfold books, b_settle; simpl; rewrite Hc; reflexivity ]).
Qed.

(** ** The moves, and what they keep *)

Inductive move (v : Books) : Books -> Prop :=
| move_gone : move v (b_gone v)
| move_settle : move v (b_settle v)
| move_push : move v (b_push v)
| move_drop_queue : move v (b_drop_queue v)
| move_next (refused : bool) : move v (b_next refused v)
| move_shutting : move v (b_shutting v)
| move_expire (i : nat) : move v (b_settle (b_unarm i v))
| move_unarm_idle (i : nat) : b_cur v = None -> move v (b_unarm i v).

Inductive moves : Books -> Books -> Prop :=
| moves_refl v : moves v v
| moves_step v1 v2 v3 : move v1 v2 -> moves v2 v3 -> moves v1 v3.

Lemma moves_trans v1 v2 v3 : moves v1 v2 -> moves v2 v3 -> moves v1 v3.
Proof. induction 1; [auto|]. intros. eapply moves_step; eauto. Qed.

Lemma moves_one v1 v2 : move v1 v2 -> moves v1 v2.
Proof. intros. eapply moves_step; [eassumption|apply moves_refl]. Qed.

Lemma moves_kill v : moves v (b_kill v).
Proof.
  unfold b_kill. destruct (b_process v); [apply moves_one, move_gone|apply moves_refl].
Qed.

Ltac chain :=
  lazymatch goal with
  | |- moves ?v ?v => apply moves_refl
  | |- moves _ (b_next ?o ?x) =>
      apply moves_trans with x; [chain | apply moves_one, move_next]
  | |- moves _ (b_settle (b_unarm ?i ?x)) =>
      apply moves_trans with x; [chain | apply moves_one, move_expire]
  | |- moves _ (b_settle ?x) =>
      apply moves_trans with x; [chain | apply moves_one, move_settle]
  | |- moves _ (b_kill ?x) =>
      apply moves_trans with x; [chain | apply moves_kill]
  | |- moves _ (b_gone ?x) =>
      apply moves_trans with x; [chain | apply moves_one, move_gone]
  | |- moves _ (b_push ?x) =>
      apply moves_trans with x; [chain | apply moves_one, move_push]
  | |- moves _ (b_drop_queue ?x) =>
      apply moves_trans with x; [chain | apply moves_one, move_drop_queue]
  | |- moves _ (b_shutting ?x) =>
      apply moves_trans with x; [chain | apply moves_one, move_shutting]
  end.

Lemma fire_moves (e : Event) (s : t) : moves (books s) (books (fire e s)).
Proof.
  destruct e as [now p o|now p cb o|now json|now i|now code|err|now| |]; simpl.
  - unfold run. rewrite enqueue_books. chain.
  - unfold runStream. rewrite enqueue_books. chain.
  - rewrite handleJsonMessage_books. destruct (String.eqb (type json) "result"); chain.
  - rewrite fire_timer_books. destruct (List.existsb (Nat.eqb i) (timers s)); [|chain].
    destruct (currentItem s) as [c|] eqn:Hc.
    + chain.
    + apply moves_one, move_unarm_idle. unfold books. simpl. now rewrite Hc.
  - rewrite onClose_books. destruct (shuttingDown s); [chain|].
    destruct (cancelling s); [chain|].
    destruct (crashCount s + 1 <? MAX_CRASHES); chain.
  - rewrite onProcessError_books. chain.
  - rewrite cancel_books. destruct (currentItem s); [destruct (process s)|]; chain.
  - rewrite shutdown_books. destruct (process s); chain.
  - apply moves_refl.
Qed.

(** The timers that should be armed: the one of a wrapped request in
    flight. *)
Definition armed (cur : option (nat * bool)) : list nat :=
  match cur with
  | Some (i, true) => [i]
  | _ => []
  end.

Definition waiting (v : Books) : list nat :=
  match b_cur v with
  | Some iw => fst iw :: List.map fst (b_queue v)
  | None => List.map fst (b_queue v)
  end.

Record tidy (v : Books) : Prop := mkTidy
  { t_alive : b_alive v = isSome (b_process v);
    t_pid : forall p, b_process v = Some p -> S p = b_nextPid v;
    t_timers : b_timers v = armed (b_cur v);
    t_unwrapped : Forall (fun iw => snd iw = false) (b_queue v);
    t_sorted : StronglySorted Nat.lt (waiting v);
    t_fresh : Forall (fun i => (i < b_nextReq v)%nat) (waiting v);
    t_started : StronglySorted descending (b_started v);
    t_started_queue :
      Forall (fun j => Forall (Nat.lt j) (List.map fst (b_queue v))) (b_started v);
    t_started_fresh : Forall (fun j => (j < b_nextReq v)%nat) (b_started v) }.

Lemma fold_unarm_unwrapped (q : list (nat * bool)) : forall tm,
  Forall (fun iw => snd iw = false) q ->
  List.fold_left (fun tm iw => unarm iw tm) q tm = tm.
Proof.
  induction q as [|[i w] q IH]; intros tm H; simpl; [reflexivity|].
  apply Forall_cons_iff in H as [Hw H]. simpl in Hw. subst w.
  unfold unarm at 2. simpl. now apply IH.
Qed.

Lemma tidy_gone v : tidy v -> tidy (b_gone v).
Proof. intros []. constructor; simpl; auto. discriminate. Qed.

Lemma tidy_shutting v : tidy v -> tidy (b_shutting v).
Proof. intros []. constructor; simpl; auto. Qed.

Lemma tidy_settle v : tidy v -> tidy (b_settle v).
Proof.
  intros [H1 H2 H3 H4 H5 H6 H7 H8 H9]. unfold b_settle, waiting in *.
  destruct (b_cur v) as [[i w]|] eqn:Hc; [|constructor; unfold waiting; rewrite ?Hc; auto].
  apply StronglySorted_inv in H5 as [H5 _]. apply Forall_cons_iff in H6 as [_ H6].
  constructor; unfold waiting; simpl; auto.
  rewrite H3. unfold unarm, armed. simpl. destruct w; simpl; [|reflexivity].
  now destruct (Nat.eq_dec i i).
Qed.

Lemma tidy_push v : tidy v -> tidy (b_push v).
Proof.
  intros [H1 H2 H3 H4 H5 H6 H7 H8 H9].
  assert (W : waiting (b_push v) = (waiting v ++ [b_nextReq v])%list).
  { unfold waiting, b_push. simpl. rewrite map_app. simpl. now destruct (b_cur v). }
  constructor; rewrite ?W; simpl; auto.
  - apply Forall_app. split; [assumption|]. repeat constructor.
  - apply sorted_app; [assumption|repeat constructor|].
    intros x y Hx [<-|[]]. rewrite Forall_forall in H6. now apply H6.
  - apply Forall_app. split.
    + eapply Forall_impl; [|exact H6]. simpl. intros; lia.
    + repeat constructor.
  - rewrite map_app. simpl. rewrite Forall_forall in *. intros j Hj.
    apply Forall_app. split; [auto|]. repeat constructor. unfold Nat.lt. auto.
  - eapply Forall_impl; [|exact H9]. simpl. intros; lia.
Qed.

Lemma tidy_drop_queue v : tidy v -> tidy (b_drop_queue v).
Proof.
  intros [H1 H2 H3 H4 H5 H6 H7 H8 H9]. unfold waiting in *.
  constructor; unfold waiting; simpl; auto.
  - now rewrite fold_unarm_unwrapped.
  - destruct (b_cur v); repeat constructor.
  - destruct (b_cur v) as [iw|]; [|constructor].
    apply Forall_cons_iff in H6 as [H6 _]. repeat constructor. assumption.
  - apply Forall_forall. intros; constructor.
Qed.

Lemma tidy_next refused v : tidy v -> tidy (b_next refused v).
Proof.
  intros [H1 H2 H3 H4 H5 H6 H7 H8 H9]. unfold b_next, waiting in *.
  destruct (b_cur v) as [iw|] eqn:Hc;
    [constructor; unfold waiting; rewrite ?Hc; auto|].
  destruct (b_queue v) as [|[i w] rest] eqn:Hq;
    [constructor; unfold waiting; rewrite ?Hc, ?Hq; auto|].
  simpl in *.
  apply Forall_cons_iff in H4 as [Hw H4]. simpl in Hw. subst w.
  pose proof H5 as H5'. apply StronglySorted_inv in H5' as [H5a H5b].
  assert (S1 : StronglySorted descending (i :: b_started v)).
  { constructor; [assumption|]. eapply Forall_impl; [|exact H8].
    intros j Hj. now apply Forall_cons_iff in Hj as [Hj _]. }
  assert (S2 : Forall (fun j => Forall (Nat.lt j) (List.map fst rest)) (i :: b_started v)).
  { constructor; [assumption|]. eapply Forall_impl; [|exact H8].
    intros j Hj. now apply Forall_cons_iff in Hj as [_ Hj]. }
  assert (S3 : Forall (fun j => (j < b_nextReq v)%nat) (i :: b_started v)).
  { constructor; [|assumption]. now apply Forall_cons_iff in H6 as [H6 _]. }
  assert (S4 : Forall (fun j => Forall (Nat.lt j) (List.map fst rest)) (b_started v)).
  { eapply Forall_impl; [|exact H8].
    intros j Hj. now apply Forall_cons_iff in Hj as [_ Hj]. }
  destruct (isSome (b_process v) && b_alive v); [|destruct refused];
    constructor; unfold waiting; simpl; auto; try (now rewrite H3);
    try (intros p [= <-]; reflexivity).
Qed.

Lemma tidy_expire i v : tidy v -> tidy (b_settle (b_unarm i v)).
Proof.
  intros [H1 H2 H3 H4 H5 H6 H7 H8 H9]. unfold b_settle, b_unarm, waiting in *. simpl.
  destruct (b_cur v) as [[j w]|] eqn:Hc.
  - apply StronglySorted_inv in H5 as [H5 _]. apply Forall_cons_iff in H6 as [_ H6].
    constructor; unfold waiting; simpl; auto.
    rewrite H3. unfold unarm, armed. simpl. destruct w; simpl; [|reflexivity].
    destruct (Nat.eq_dec i j); simpl; [reflexivity|]. now destruct (Nat.eq_dec j j).
  - constructor; unfold waiting; simpl; rewrite ?Hc; auto.
    rewrite H3. reflexivity.
Qed.

Lemma tidy_unarm_idle i v : b_cur v = None -> tidy v -> tidy (b_unarm i v).
Proof.
  intros Hc [H1 H2 H3 H4 H5 H6 H7 H8 H9]. unfold waiting in *.
  constructor; unfold waiting; simpl; auto.
  rewrite H3, Hc. reflexivity.
Qed.

Lemma tidy_move v v' : move v v' -> tidy v -> tidy v'.
Proof.
  destruct 1; auto using tidy_gone, tidy_settle, tidy_push, tidy_drop_queue,
    tidy_next, tidy_shutting, tidy_expire, tidy_unarm_idle.
Qed.

Lemma tidy_moves v v' : moves v v' -> tidy v -> tidy v'.
Proof. induction 1; eauto using tidy_move. Qed.

Lemma tidy_new (c : Config) : tidy (books (new c)).
Proof. constructor; simpl; try constructor. discriminate. Qed.

Lemma tidy_fire_all (es : list Event) : forall s,
  tidy (books s) -> tidy (books (fire_all es s)).
Proof.
  induction es as [|e es IH]; intros s H; simpl; [assumption|].
  apply IH. eapply tidy_moves; [apply fire_moves|assumption].
Qed.

Lemma shut_move v v' : move v v' -> b_shut v = true -> b_shut v' = true.
Proof.
  destruct 1; simpl; auto.
  - unfold b_settle. destruct (b_cur v); auto.
  - unfold b_next. destruct (b_cur v); auto. destruct (b_queue v) as [|[i w] r]; auto.
    destruct (isSome (b_process v) && b_alive v); [|destruct refused]; auto.
  - unfold b_settle. simpl. destruct (b_cur v); auto.
Qed.

Lemma shut_moves v v' : moves v v' -> b_shut v = true -> b_shut v' = true.
Proof. induction 1; eauto using shut_move. Qed.

(** X10.  In every reachable state the armed timers are exactly the timer
    of the request in flight, when [processNext] got as far as arming it:
    no timer outlives its request, and none is armed while nothing is in
    flight. *)
Theorem timers_follow_the_request_in_flight (c : Config) (es : list Event) :
  let s := fire_all es (new c) in
  timers s = match currentItem s with
             | Some item => if wrapped item then [id item] else []
             | None => []
             end.
Proof.
  intros s.
  pose proof (t_timers _ (tidy_fire_all es (new c) (tidy_new c))) as H.
  fold s in H. simpl in H. rewrite H.
  destruct (currentItem s) as [item|]; [|reflexivity].
  unfold tag. simpl. now destruct (wrapped item).
Qed.

(** X11.  In every reachable state [isAlive()] is true exactly when a
    process handle is held, and the handle held is the process spawned
    last. *)
Theorem alive_iff_process_handle (c : Config) (es : list Event) :
  let s := fire_all es (new c) in
  isAlive s = isSome (process s)
  /\ (forall p, process s = Some p -> S p = nextPid s).
Proof.
  intros s.
  pose proof (tidy_fire_all es (new c) (tidy_new c)) as [H1 H2 _ _ _ _ _ _ _].
  fold s in H1, H2. split; assumption.
Qed.

(** X12.  In every history, requests are written to a process in the
    order in which they were enqueued, each at most once. *)
Theorem requests_dispatched_in_enqueue_order (c : Config) (es : list Event) :
  StronglySorted Nat.lt (dispatch_order (fire_all es (new c))).
Proof.
  unfold dispatch_order. apply (sorted_rev descending).
  apply (t_started _ (tidy_fire_all es (new c) (tidy_new c))).
Qed.

Lemma shut_fire_all (es : list Event) : forall s,
  shuttingDown s = true -> shuttingDown (fire_all es s) = true.
Proof.
  induction es as [|e es IH]; intros s H; simpl; [assumption|].
  apply IH. apply (shut_moves _ _ (fire_moves e s)). exact H.
Qed.

(** X13.  [shuttingDown], once raised by [shutdown()], stays raised
    whatever happens to the runner afterwards; from then on the 'close'
    handler only drops the process handle and the buffer: it counts no
    crash, rejects nothing and restarts nothing. *)
Theorem exits_are_ignored_after_shutdown
    (s : t) (p : nat) (es : list Event) (now : Z) (code : option Z) :
  process s = Some p ->
  let s1 := fire_all es (state_of (shutdown s)) in
  shuttingDown s1 = true
  /\ onClose code now s1
     = Ret tt (set_buffer "" (set_processAlive false (set_process None s1))).
Proof.
  intros Hp s1.
  assert (H : shuttingDown s1 = true).
  { apply shut_fire_all.
    destruct (shutdown_with_process s p Hp) as (s' & E & _ & _ & Sd & _).
    now rewrite E. }
  split; [assumption|]. now apply SessionFacts.onClose_ignored_when_shut_down.
Qed.

Lemma exits_are_ignored_after_shutdown_witness :
  shuttingDown
    (fire_all [ERun 10 "c" None]
       (state_of (shutdown SessionFacts.one_in_flight_one_queued))) = true.
Proof.
  destruct (exits_are_ignored_after_shutdown SessionFacts.one_in_flight_one_queued
              0%nat [ERun 10 "c" None] 11 None eq_refl) as [H _].
  exact H.
Defined.
End Bookkeeping.

(* ===================================================================== *)
(** * Standard output: handleOutput                                        *)
(* ===================================================================== *)

Module Output.
Import PersistentRunner Session.
#[local] Open Scope string_scope.

(** [s.split('\n')]: the pieces between the newlines, at least one. *)
Fixpoint split_lines (s : string) : list string :=
  match s with
  | EmptyString => [EmptyString]
  | String c rest =>
      if Ascii.eqb c (ascii_of_nat 10) then EmptyString :: split_lines rest
      else match split_lines rest with
           | first :: others => String c first :: others
           | [] => [String c EmptyString]
           end
  end.

(** [try { ... } catch (e) { console.warn(...) }] *)
Definition catch (m : M unit) : M unit :=
  fun s => match m s with
           | Ret a s' => Ret a s'
           | Throw _ s' => Ret tt s'
           end.

Section HandleOutput.

(** [JSON.parse] followed by the reading of the fields of the message;
    [None] when [JSON.parse] throws. *)
Variable parse : string -> option Json.

(** [!line.trim()] *)
Variable blank : string -> bool.

(** The body of the loop over the complete lines. *)
Definition handle_line (now : Z) (line : string) : M unit :=
  if blank line then ret tt
  else catch (match parse line with
              | Some json => handleJsonMessage now json
              | None => ret tt
              end).

Definition handleOutput (now : Z) (data : string) : M unit :=
  modify (fun s => set_buffer (buffer s ++ data) s) ;;
  s <- get ;;
  let lines := split_lines (buffer s) in
  (* this.buffer = lines.pop() || '' *)
  modify (set_buffer (List.last lines "")) ;;
  for_each (List.removelast lines) (handle_line now).

End HandleOutput.

(** ** Splitting *)

Lemma split_lines_nonempty (s : string) : split_lines s <> [].
Proof.
  destruct s as [|c r]; simpl; [discriminate|].
  destruct (Ascii.eqb c (ascii_of_nat 10)); [discriminate|].
  destruct (split_lines r); discriminate.
Qed.

Lemma split_lines_app (x y : string) :
  split_lines (x ++ y)
  = (List.removelast (split_lines x)
     ++ split_lines (List.last (split_lines x) "" ++ y))%list.
Proof.
  induction x as [|c x IH]; [reflexivity|].
  cbn [String.append split_lines].
  pose proof (split_lines_nonempty x) as Hx.
  destruct (Ascii.eqb c (ascii_of_nat 10)) eqn:Ec.
  - rewrite IH. destruct (split_lines x) as [|h t]; [congruence|]. reflexivity.
  - rewrite IH. destruct (split_lines x) as [|h [|h2 t2]]; [congruence| |].
    + cbn [List.removelast List.last List.app String.append split_lines].
      now rewrite Ec.
    + reflexivity.
Qed.

Lemma last_app_nonempty {A} (l1 l2 : list A) (d : A) :
  l2 <> [] -> List.last (l1 ++ l2)%list d = List.last l2 d.
Proof.
  intros H. induction l1 as [|a l1 IH]; [reflexivity|].
  simpl. destruct (l1 ++ l2)%list eqn:E; [|assumption].
  apply app_eq_nil in E as [_ E]. congruence.
Qed.

Lemma removelast_app_nonempty {A} (l1 l2 : list A) :
  l2 <> [] -> List.removelast (l1 ++ l2)%list = (l1 ++ List.removelast l2)%list.
Proof. intros H. now apply removelast_app. Qed.

(** ** Handlers that do not look at the buffer *)

Definition res_map {A} (f : t -> t) (r : Res A) : Res A :=
  match r with
  | Ret a s => Ret a (f s)
  | Throw e s => Throw e (f s)
  end.

Definition buffer_blind {A} (m : M A) : Prop :=
  forall x s, m (set_buffer x s) = res_map (set_buffer x) (m s).

Lemma blind_ret {A} (a : A) : buffer_blind (ret a).
Proof. intros x s. reflexivity. Qed.

Lemma blind_throw {A} (e : Error) : buffer_blind (@throw A e).
Proof. intros x s. reflexivity. Qed.

Lemma blind_bind {A B} (m : M A) (k : A -> M B) :
  buffer_blind m -> (forall a, buffer_blind (k a)) -> buffer_blind (bind m k).
Proof.
  intros Hm Hk x s. unfold bind. rewrite Hm.
  destruct (m s) as [a s'|e s']; simpl; [apply Hk|reflexivity].
Qed.

Lemma blind_get {A} (k : t -> M A) :
  (forall s0, buffer_blind (k s0)) ->
  (forall x s0, k (set_buffer x s0) = k s0) ->
  buffer_blind (bind get k).
Proof.
  intros H1 H2 x s. unfold bind, get. rewrite H2. apply H1.
Qed.

Lemma blind_modify (f : t -> t) :
  (forall x s, f (set_buffer x s) = set_buffer x (f s)) -> buffer_blind (modify f).
Proof. intros H x s. unfold modify. simpl. now rewrite H. Qed.

Lemma blind_emit (e : Effect) : buffer_blind (emit e).
Proof. apply blind_modify. reflexivity. Qed.

Lemma blind_when (b : bool) (m : M unit) : buffer_blind m -> buffer_blind (when b m).
Proof. intros H. destruct b; [exact H|apply blind_ret]. Qed.

Lemma blind_for_each {A} (l : list A) (f : A -> M unit) :
  (forall a, buffer_blind (f a)) -> buffer_blind (for_each l f).
Proof.
  intros H. induction l as [|a l IH]; simpl; [apply blind_ret|].
  apply blind_bind; auto.
Qed.

Lemma blind_catch (m : M unit) : buffer_blind m -> buffer_blind (catch m).
Proof.
  intros H x s. unfold catch. rewrite H. now destruct (m s).
Qed.

Ltac blind :=
  repeat first
    [ apply blind_ret | apply blind_throw | apply blind_emit
    | apply blind_modify; reflexivity
    | apply blind_when | apply blind_catch
    | apply blind_for_each; intros
    | apply blind_get; [intros | reflexivity]
    | apply blind_bind; [|intros]
    | progress cbv zeta ].

Lemma blind_clearTimeout i : buffer_blind (clearTimeout i).
Proof. unfold clearTimeout. blind. Qed.

Lemma blind_item_reject it e : buffer_blind (item_reject it e).
Proof. unfold item_reject. blind. Qed.

Lemma blind_item_resolve it r : buffer_blind (item_resolve it r).
Proof. unfold item_resolve. blind. Qed.

Lemma blind_call_onError it e : buffer_blind (call_onError it e).
Proof. unfold call_onError. destruct (callbacks it); blind. Qed.

Lemma blind_call_onComplete it r : buffer_blind (call_onComplete it r).
Proof. unfold call_onComplete. destruct (callbacks it); blind. Qed.

Lemma blind_call_onText it a b : buffer_blind (call_onText it a b).
Proof. unfold call_onText. destruct (callbacks it); blind. Qed.

Lemma blind_with_current f :
  (forall it, buffer_blind (f it)) -> buffer_blind (with_current f).
Proof.
  intros H. unfold with_current. apply blind_get; [|reflexivity].
  intros s0. destruct (currentItem s0); [apply H|apply blind_ret].
Qed.

Lemma blind_ensureProcess_start now : buffer_blind (ensureProcess_start now).
Proof.
  unfold ensureProcess_start. apply blind_get; [|reflexivity]. intros s0.
  apply blind_bind.
  - destruct (MAX_CRASHES <=? crashCount s0)%Z; [|apply blind_ret].
    cbv zeta. destruct (now - lastCrashTime s0 <? CRASH_WINDOW_MS)%Z; blind.
  - intros _. blind.
Qed.

Lemma blind_ensureProcess now : buffer_blind (ensureProcess now).
Proof.
  unfold ensureProcess. apply blind_get; [|reflexivity]. intros s0.
  destruct (process s0); [destruct (processAlive s0)|];
    try apply blind_ret; apply blind_ensureProcess_start.
Qed.

Lemma blind_processNext now : buffer_blind (processNext now).
Proof.
  unfold processNext. apply blind_get; [|reflexivity]. intros s0.
  destruct (isSome (currentItem s0) || Nat.eqb (List.length (queue s0)) 0);
    [apply blind_ret|].
  destruct (queue s0) as [|item rest]; [apply blind_ret|].
  apply blind_bind; [apply blind_modify; reflexivity|intros _].
  apply blind_bind; [apply blind_modify; reflexivity|intros _].
  apply blind_bind; [apply blind_modify; reflexivity|intros _].
  apply blind_bind; [apply blind_ensureProcess|intros proc].
  apply blind_bind; [apply blind_emit|intros _].
  apply blind_get; [|reflexivity]. intros s1.
  apply blind_bind; [apply blind_emit|intros _].
  apply blind_bind; [apply blind_modify; reflexivity|intros _].
  apply blind_modify; reflexivity.
Qed.

Lemma blind_handle_block b : buffer_blind (handle_block b).
Proof.
  unfold handle_block. destruct (text b); [|apply blind_ret].
  apply blind_when. apply blind_bind; [apply blind_modify; reflexivity|].
  intros _. apply blind_get; [|reflexivity]. intros s0.
  apply blind_with_current. intros it. apply blind_call_onText.
Qed.

Lemma blind_store_session_id json : buffer_blind (store_session_id json).
Proof.
  unfold store_session_id. destruct (session_id json); [|apply blind_ret].
  apply blind_when. apply blind_modify. reflexivity.
Qed.

Lemma blind_handleJsonMessage now json : buffer_blind (handleJsonMessage now json).
Proof.
  unfold handleJsonMessage.
  apply blind_bind; [apply blind_when, blind_store_session_id|intros _].
  apply blind_bind.
  { apply blind_when. destruct (content json); [|apply blind_ret].
    apply blind_for_each. apply blind_handle_block. }
  intros _. apply blind_when.
  apply blind_bind; [apply blind_store_session_id|intros _].
  apply blind_bind.
  { destruct (is_error json).
    - cbv zeta. apply blind_bind; [|intros _]; apply blind_with_current; intros it;
        [apply blind_call_onError|apply blind_item_reject].
    - apply blind_bind.
      { destruct (result json); [|apply blind_ret].
        apply blind_when, blind_modify. reflexivity. }
      intros _. apply blind_get; [|reflexivity]. intros s0. cbv zeta.
      apply blind_bind; [|intros _]; apply blind_with_current; intros it;
        [apply blind_call_onComplete|apply blind_item_resolve]. }
  intros _.
  apply blind_bind; [apply blind_modify; reflexivity|intros _].
  apply blind_bind; [apply blind_modify; reflexivity|intros _].
  apply blind_processNext.
Qed.

Section HandleOutputFacts.
Variable parse : string -> option Json.
Variable blank : string -> bool.

Lemma blind_handle_line now line : buffer_blind (handle_line parse blank now line).
Proof.
  unfold handle_line. destruct (blank line); [apply blind_ret|].
  apply blind_catch. destruct (parse line);
    [apply blind_handleJsonMessage|apply blind_ret].
Qed.

Lemma handle_line_returns now line s :
  handle_line parse blank now line s
  = Ret tt (state_of (handle_line parse blank now line s)).
Proof.
  unfold handle_line. destruct (blank line); [reflexivity|].
  unfold catch. destruct (parse line) as [json|]; [|reflexivity].
  destruct (handleJsonMessage now json s) as [[] s'|e s']; reflexivity.
Qed.

Definition handle_lines (now : Z) (lines : list string) : M unit :=
  for_each lines (handle_line parse blank now).

Lemma handle_lines_returns now lines s :
  handle_lines now lines s = Ret tt (state_of (handle_lines now lines s)).
Proof.
  revert s. induction lines as [|l lines IH]; intros s; [reflexivity|].
  unfold handle_lines in *. cbn [for_each]. unfold bind.
  rewrite handle_line_returns. apply IH.
Qed.

Lemma handle_lines_app now l1 l2 s :
  handle_lines now (l1 ++ l2) s
  = handle_lines now l2 (state_of (handle_lines now l1 s)).
Proof.
  revert s. induction l1 as [|l l1 IH]; intros s; [reflexivity|].
  unfold handle_lines in *. cbn [for_each List.app]. unfold bind.
  rewrite handle_line_returns. apply IH.
Qed.

Lemma blind_handle_lines now lines : buffer_blind (handle_lines now lines).
Proof. apply blind_for_each. intros. apply blind_handle_line. Qed.

Lemma handleOutput_eq now data s :
  handleOutput parse blank now data s
  = Ret tt (set_buffer (List.last (split_lines (buffer s ++ data)) "")
              (state_of (handle_lines now
                           (List.removelast (split_lines (buffer s ++ data))) s))).
Proof.
  unfold handleOutput. unfold bind at 1. unfold modify at 1.
  unfold bind at 1. unfold get at 1.
  cbn [buffer set_buffer]. unfold bind at 1. unfold modify at 1.
  fold (handle_lines now (List.removelast (split_lines (buffer s ++ data)))).
  rewrite !(blind_handle_lines now _ _ _).
  rewrite handle_lines_returns. reflexivity.
Qed.

Fixpoint has_newline (s : string) : bool :=
  match s with
  | EmptyString => false
  | String c rest => Ascii.eqb c (ascii_of_nat 10) || has_newline rest
  end.

Lemma split_lines_one (x : string) : has_newline x = false -> split_lines x = [x].
Proof.
  induction x as [|c x IH]; [reflexivity|]. cbn [has_newline split_lines].
  intros H. apply orb_false_iff in H as [Hc Hx]. rewrite Hc, (IH Hx). reflexivity.
Qed.

Lemma split_lines_no_newline (x l : string) :
  In l (split_lines x) -> has_newline l = false.
Proof.
  revert l. induction x as [|c x IH]; intros l.
  - intros [<-|[]]. reflexivity.
  - cbn [split_lines]. destruct (Ascii.eqb c (ascii_of_nat 10)) eqn:Ec.
    + intros [<-|H]; [reflexivity|auto].
    + pose proof (split_lines_nonempty x) as Hx.
      destruct (split_lines x) as [|h t]; [congruence|].
      intros [<-|H].
      * cbn [has_newline]. rewrite Ec. apply IH. now left.
      * apply IH. now right.
Qed.

Lemma last_In {A} (l : list A) (d : A) : l <> [] -> In (List.last l d) l.
Proof.
  induction l as [|a [|b l] IH]; [congruence|now left|].
  intros _. right. apply IH. congruence.
Qed.

Lemma set_buffer_twice x y s : set_buffer x (set_buffer y s) = set_buffer x s.
Proof. reflexivity. Qed.

Lemma blind_state {A} (m : M A) x s :
  buffer_blind m -> state_of (m (set_buffer x s)) = set_buffer x (state_of (m s)).
Proof. intros H. rewrite H. now destruct (m s). Qed.

(** X14.  Where the text handed to [handleOutput] is cut does not matter:
    feeding the strings [a] and then [b] leaves the runner in the same
    state, with the same effects, as feeding [a ++ b] at once.  This is
    about the strings [handleOutput] receives; the listener turns each chunk
    of bytes into a string ([data.toString()]) before, and that step is not
    part of the statement. *)
Theorem handleOutput_chunking now a b s :
  handleOutput parse blank now b (state_of (handleOutput parse blank now a s))
  = handleOutput parse blank now (a ++ b) s.
Proof.
  rewrite (handleOutput_eq now (a ++ b) s).
  rewrite (handleOutput_eq now a s). cbn [state_of].
  rewrite handleOutput_eq. cbn [buffer set_buffer].
  set (La := split_lines (buffer s ++ a)).
  assert (HL : split_lines (buffer s ++ (a ++ b))
               = (List.removelast La ++ split_lines (List.last La "" ++ b))%list).
  { rewrite <- MergeFacts.app_assoc. apply split_lines_app. }
  rewrite HL. set (Lb := split_lines (List.last La "" ++ b)).
  assert (Hb : Lb <> []) by apply split_lines_nonempty.
  rewrite (last_app_nonempty _ _ _ Hb), (removelast_app_nonempty _ _ Hb).
  rewrite handle_lines_app.
  rewrite (blind_state _ _ _ (blind_handle_lines now _)).
  reflexivity.
Qed.

(** X15.  [handleOutput] never throws, whatever the lines contain and
    whatever the handlers of the messages do, and the buffer it leaves is
    the text after the last newline: it holds no newline. *)
Theorem handleOutput_keeps_only_the_unfinished_line now data s :
  exists s',
    handleOutput parse blank now data s = Ret tt s'
    /\ buffer s' = List.last (split_lines (buffer s ++ data)) ""
    /\ has_newline (buffer s') = false.
Proof.
  eexists. split; [apply handleOutput_eq|].
  assert (E : forall x s0, buffer (set_buffer x s0) = x) by reflexivity.
  rewrite E. split; [reflexivity|].
  apply (split_lines_no_newline (buffer s ++ data)).
  apply last_In, split_lines_nonempty.
Qed.

(** X16.  Output without a newline is only buffered: no message is handled,
    no effect happens, and nothing but the buffer changes. *)
Theorem handleOutput_buffers_partial_line now data s :
  has_newline (buffer s ++ data) = false ->
  handleOutput parse blank now data s = Ret tt (set_buffer (buffer s ++ data) s).
Proof.
  intros H. rewrite handleOutput_eq, (split_lines_one _ H). reflexivity.
Qed.

Lemma split_lines_terminated (line : string) :
  has_newline line = false -> split_lines (line ++ nl) = [line; ""].
Proof.
  induction line as [|c line IH]; [reflexivity|].
  cbn [has_newline String.append split_lines]. intros H.
  apply orb_false_iff in H as [Hc Hx]. rewrite Hc, (IH Hx). reflexivity.
Qed.

(** X17.  When the buffered text and the new data make up exactly one
    line that parses, that message is handled as [handleJsonMessage] does,
    an exception of the handler is swallowed, and the buffer is emptied. *)
Theorem handleOutput_delivers_complete_line now data line json s :
  buffer s ++ data = line ++ nl ->
  has_newline line = false ->
  blank line = false ->
  parse line = Some json ->
  handleOutput parse blank now data s
  = Ret tt (set_buffer "" (state_of (handleJsonMessage now json s))).
Proof.
  intros Hd Hl Hb Hp. rewrite handleOutput_eq, Hd, (split_lines_terminated _ Hl).
  cbn [List.last List.removelast]. unfold handle_lines. cbn [for_each].
  unfold bind, ret, handle_line. rewrite Hb, Hp. unfold catch.
  destruct (handleJsonMessage now json s); reflexivity.
Qed.

(** X18.  A line that is blank or does not parse is dropped without any
    effect. *)
Theorem handleOutput_skips_noise now data line s :
  buffer s ++ data = line ++ nl ->
  has_newline line = false ->
  blank line = true \/ parse line = None ->
  handleOutput parse blank now data s = Ret tt (set_buffer "" s).
Proof.
  intros Hd Hl H. rewrite handleOutput_eq, Hd, (split_lines_terminated _ Hl).
  cbn [List.last List.removelast]. unfold handle_lines. cbn [for_each].
  unfold bind, ret, handle_line.
  destruct (blank line); [reflexivity|].
  destruct H as [H|H]; [discriminate|]. rewrite H. reflexivity.
Qed.
End HandleOutputFacts.

(** A stand-in for [JSON.parse]: the line "init" is a system message that
    carries a session id, every other line fails to parse. *)
Definition parse_init (line : string) : option Json :=
  if String.eqb line "init"
  then Some (mkJson "system" (Some "session-1") None None false)
  else None.

(** A stand-in for [!line.trim()] on lines without white space. *)
Definition blank_empty (line : string) : bool := String.eqb line "".

Lemma handleOutput_buffers_partial_line_witness :
  handleOutput parse_init blank_empty 1 "in"
    (PersistentRunner.new sample_config)
  = Ret tt (set_buffer "in" (PersistentRunner.new sample_config)).
Proof.
  apply (handleOutput_buffers_partial_line parse_init blank_empty 1 "in"
           (PersistentRunner.new sample_config)).
  reflexivity.
Defined.

Lemma handleOutput_delivers_complete_line_witness :
  sessionId
    (state_of (handleOutput parse_init blank_empty 1 ("it" ++ nl)
                 (set_buffer "in" (PersistentRunner.new sample_config))))
  = "session-1".
Proof.
  rewrite (handleOutput_delivers_complete_line parse_init blank_empty 1 ("it" ++ nl)
             "init" (mkJson "system" (Some "session-1") None None false)
             (set_buffer "in" (PersistentRunner.new sample_config))
             eq_refl eq_refl eq_refl eq_refl).
  reflexivity.
Defined.

Lemma handleOutput_skips_noise_witness :
  handleOutput parse_init blank_empty 1 ("warning" ++ nl)
    (PersistentRunner.new sample_config)
  = Ret tt (PersistentRunner.new sample_config).
Proof.
  rewrite (handleOutput_skips_noise parse_init blank_empty 1 ("warning" ++ nl)
             "warning" (PersistentRunner.new sample_config)
             eq_refl eq_refl (or_intror eq_refl)).
  reflexivity.
Defined.

End Output.

(* ===================================================================== *)
(** * The pool: idle sweep, cancel, destroy                                *)
(* ===================================================================== *)

Module PoolFacts.
Import RunnerManager Pool PersistentRunner.
#[local] Open Scope Z_scope.

Lemma set_pool_same (m : RunnerManager.t) : set_pool (pool m) m = m.
Proof. now destruct m. Qed.

(** ** cleanupIdle *)

Lemma delete_filter {V} k (p : list (string * V)) :
  JsMap.delete k p = List.filter (fun kv => negb (String.eqb k (fst kv))) p.
Proof.
  induction p as [|[k' v] p IH]; [reflexivity|]. simpl.
  destruct (String.eqb k k'); simpl; now rewrite IH.
Qed.

Lemma cleanup_step_pool m k :
  pool (cleanup_step m k) = JsMap.delete k (pool m).
Proof.
  unfold cleanup_step. destruct (JsMap.get k (pool m)) eqn:E; [reflexivity|].
  symmetry. now apply delete_absent.
Qed.

Definition mem (k : string) (ks : list string) : bool :=
  List.existsb (String.eqb k) ks.

Lemma cleanup_fold_pool ks : forall m,
  pool (List.fold_left cleanup_step ks m)
  = List.filter (fun kv => negb (mem (fst kv) ks)) (pool m).
Proof.
  induction ks as [|k ks IH]; intros m; simpl.
  - induction (pool m) as [|kv p IHp]; [reflexivity|]. simpl. now rewrite <- IHp.
  - rewrite IH, cleanup_step_pool, delete_filter.
    induction (pool m) as [|[k' v] p IHp]; [reflexivity|]. simpl.
    rewrite (String.eqb_sym k' k).
    destruct (String.eqb k k'); simpl; [assumption|].
    destruct (mem k' ks); simpl; now rewrite IHp.
Qed.

Lemma mem_In k ks : mem k ks = true <-> In k ks.
Proof.
  unfold mem. rewrite existsb_exists. split.
  - intros (x & Hx & E). apply String.eqb_eq in E. now subst.
  - intros H. exists k. split; [assumption|apply String.eqb_refl].
Qed.

Lemma filter_ext_In' {A} (f g : A -> bool) (l : list A) :
  (forall a, In a l -> f a = g a) -> List.filter f l = List.filter g l.
Proof. apply filter_ext_in. Qed.

Lemma mem_idle_keys now m (p : list (string * PoolEntry)) kv :
  NoDup (JsMap.keys p) -> In kv p ->
  mem (fst kv) (JsMap.keys (List.filter (is_idle now m) p)) = is_idle now m kv.
Proof.
  intros Hnd Hin. destruct (is_idle now m kv) eqn:E.
  - apply mem_In. apply in_map. apply filter_In. now split.
  - destruct (mem (fst kv) _) eqn:Em; [|reflexivity]. exfalso.
    apply mem_In in Em. apply in_map_iff in Em as ([k' e'] & Hk & Hf).
    apply filter_In in Hf as [Hin' Hidle]. simpl in Hk. destruct kv as [k e].
    simpl in Hk. subst k'.
    assert (e' = e).
    { apply (in_get _ _ _ Hnd) in Hin. apply (in_get _ _ _ Hnd) in Hin'. congruence. }
    subst e'. congruence.
Qed.

Lemma NoDup_keys_filter {V} (f : string * V -> bool) (p : list (string * V)) :
  NoDup (JsMap.keys p) -> NoDup (JsMap.keys (List.filter f p)).
Proof.
  induction p as [|[k v] p IH]; simpl; intros H; [constructor|].
  inversion H as [|? ? Hni Hnd]; subst. destruct (f (k, v)); simpl; [|auto].
  constructor; [|auto]. intros Hin. apply Hni.
  unfold JsMap.keys in *. apply in_map_iff in Hin as (kv & E & Hf).
  apply filter_In in Hf as [Hf _]. apply in_map_iff. now exists kv.
Qed.

Lemma cleanup_fold_retired (l : list (string * PoolEntry)) : forall m,
  NoDup (JsMap.keys l) ->
  (forall k e, In (k, e) l -> JsMap.get k (pool m) = Some e) ->
  retired (List.fold_left cleanup_step (JsMap.keys l) m)
  = (List.rev (List.map (fun kv => (fst kv, shut (snd kv))) l) ++ retired m)%list.
Proof.
  induction l as [|[k e] l IH]; intros m Hnd Hin; [reflexivity|].
  inversion Hnd as [|? ? Hni Hnd']; subst. cbn [JsMap.keys List.map fst fold_left].
  fold (JsMap.keys l). rewrite IH; [| assumption |].
  - unfold cleanup_step at 1. rewrite (Hin k e) by now left.
    cbn [List.rev List.map fst snd]. rewrite <- List.app_assoc. reflexivity.
  - intros k' e' H'. rewrite cleanup_step_pool, get_delete_other.
    + apply Hin. now right.
    + intros ->. apply Hni. change k with (fst (k, e')). now apply in_map.
Qed.

(** X21.  The idle sweep removes exactly the entries that are idle and
    shuts each of their runners down: what stays is the rest of the pool,
    in its order. *)
Theorem cleanupIdle_removes_exactly_the_idle now (m : RunnerManager.t) :
  NoDup (JsMap.keys (pool m)) ->
  pool (cleanupIdle now m)
  = List.filter (fun kv => negb (is_idle now m kv)) (pool m)
  /\ retired (cleanupIdle now m)
     = (List.rev (List.map (fun kv => (fst kv, shut (snd kv)))
                    (List.filter (is_idle now m) (pool m)))
        ++ retired m)%list.
Proof.
  intros Hnd. split.
  - rewrite cleanupIdle_fold, cleanup_fold_pool.
    apply filter_ext_in. intros kv Hin. f_equal.
    now apply mem_idle_keys.
  - rewrite cleanupIdle_fold. apply cleanup_fold_retired.
    + now apply NoDup_keys_filter.
    + intros k e Hin. apply filter_In in Hin as [Hin _]. now apply in_get.
Qed.

Lemma cleanupIdle_removes_exactly_the_idle_witness :
  JsMap.keys (pool (cleanupIdle 1300 two_channels)) = ["ch2"]%string
  /\ List.map fst (retired (cleanupIdle 1300 two_channels)) = ["ch1"]%string.
Proof.
  destruct (cleanupIdle_removes_exactly_the_idle 1300 two_channels) as [Hp Hr].
  - vm_compute. repeat constructor; intros H; repeat destruct H as [H|H];
      try discriminate; auto.
  - rewrite Hp, Hr. vm_compute. split; reflexivity.
Defined.

(** ** cancel *)

Definition idle_entry (kv : string * PoolEntry) : Prop :=
  currentItem (runner (snd kv)) = None.

(** What [cancel()] of one runner gives the caller of the manager. *)
Definition outcome (r : Res bool) : Error + bool :=
  match r with
  | Ret b _ => inr b
  | Throw e _ => inl e
  end.

Definition true_or_throws (m : M bool) : Prop :=
  forall s, outcome (m s) = inr true \/ exists e, outcome (m s) = inl e.

Lemma true_or_throws_bind {A} (m : M A) (k : A -> M bool) :
  (forall a, true_or_throws (k a)) -> true_or_throws (bind m k).
Proof.
  intros H s. unfold bind. destruct (m s) as [a s'|e s']; [apply H|].
  right. now exists e.
Qed.

Lemma cancel_busy now s item :
  currentItem s = Some item ->
  outcome (PersistentRunner.cancel now s) = inr true
  \/ exists e, outcome (PersistentRunner.cancel now s) = inl e.
Proof.
  intros H. remember (PersistentRunner.cancel now s) as r eqn:E.
  unfold PersistentRunner.cancel in E. unfold bind at 1, get at 1 in E.
  rewrite H in E. cbv zeta in E. subst r. clear H.
  match goal with |- outcome (?m s) = _ \/ _ => generalize s; change (true_or_throws m) end.
  repeat (apply true_or_throws_bind; intros).
  intros s0. now left.
Qed.

Lemma cancel_values_idle now (p : list (string * PoolEntry)) :
  Forall idle_entry p -> cancel_values now p = (inr false, p).
Proof.
  induction 1 as [|[k e] p Hk Hp IH]; [reflexivity|].
  cbn [cancel_values]. unfold idle_entry in Hk. simpl in Hk.
  rewrite (Session.cancel_idle now _ Hk), IH. now destruct e.
Qed.

Lemma cancel_values_first now (before after : list (string * PoolEntry)) k e item :
  Forall idle_entry before ->
  currentItem (runner e) = Some item ->
  cancel_values now (before ++ (k, e) :: after)
  = (outcome (PersistentRunner.cancel now (runner e)),
     (before ++ (k, mkEntry (state_of (PersistentRunner.cancel now (runner e)))
                    (lastUsed e)) :: after)%list).
Proof.
  intros Hb Hc. induction Hb as [|[k0 e0] p Hk Hp IH].
  - cbn [List.app cancel_values].
    destruct (cancel_busy now _ _ Hc) as [H|[err H]];
      destruct (PersistentRunner.cancel now (runner e)) as [[|] r|e' r];
      simpl in *; congruence.
  - cbn [List.app cancel_values]. unfold idle_entry in Hk. simpl in Hk.
    rewrite (Session.cancel_idle now _ Hk), IH. now destruct e0.
Qed.

(** X22.  [cancel()] without a channel, or with the empty string as
    channel, walks the pool in insertion order, leaves the runners with
    nothing in flight untouched, and cancels the request of the first runner
    that has one, whatever its channel; the runners behind it are not
    reached.  The caller gets [true], or the exception of that runner's
    [cancel()]. *)
Theorem cancel_without_channel_hits_first_busy_runner
    now (channelId : option string) (m : RunnerManager.t) before after k e item :
  channelId = None \/ channelId = Some ""%string ->
  pool m = (before ++ (k, e) :: after)%list ->
  Forall idle_entry before ->
  currentItem (runner e) = Some item ->
  RunnerManager.cancel now channelId m
  = (outcome (PersistentRunner.cancel now (runner e)),
     set_pool (before
               ++ (k, mkEntry (state_of (PersistentRunner.cancel now (runner e)))
                      (lastUsed e)) :: after)%list m)
  /\ outcome (PersistentRunner.cancel now (runner e)) <> inr false.
Proof.
  intros Hc Hp Hb Hi. split.
  - assert (E : RunnerManager.cancel now channelId m
                = let '(res, p) := cancel_values now (pool m) in (res, set_pool p m)).
    { destruct Hc as [->| ->]; reflexivity. }
    rewrite E, Hp, (cancel_values_first now before after k e item Hb Hi). reflexivity.
  - destruct (cancel_busy now _ _ Hi) as [H|[err H]]; rewrite H; discriminate.
Qed.

(** X23.  With nothing in flight anywhere, [cancel()] without a channel
    returns [false] and changes nothing. *)
Theorem cancel_without_channel_is_a_no_op_when_idle now (m : RunnerManager.t) :
  Forall idle_entry (pool m) ->
  RunnerManager.cancel now None m = (inr false, m).
Proof.
  intros H. unfold RunnerManager.cancel.
  rewrite (cancel_values_idle now _ H). now rewrite set_pool_same.
Qed.

(** X24.  [cancel(channelId)] for a channel that is not the empty string
    reaches the runner of that channel only: an unknown channel gives
    [false] and no change; otherwise the entry keeps its position and its
    [lastUsed], and every other entry is as before. *)
Theorem cancel_by_channel_touches_only_that_runner now c (m : RunnerManager.t) :
  c <> ""%string ->
  (JsMap.get c (pool m) = None ->
   RunnerManager.cancel now (Some c) m = (inr false, m))
  /\ (forall e, JsMap.get c (pool m) = Some e ->
      let r := PersistentRunner.cancel now (runner e) in
      RunnerManager.cancel now (Some c) m
      = (outcome r,
         set_pool (JsMap.set c (mkEntry (state_of r) (lastUsed e)) (pool m)) m)
      /\ JsMap.keys (pool (snd (RunnerManager.cancel now (Some c) m)))
         = JsMap.keys (pool m)
      /\ forall k, k <> c ->
           JsMap.get k (pool (snd (RunnerManager.cancel now (Some c) m)))
           = JsMap.get k (pool m)).
Proof.
  intros Hc. apply truthy_true_iff in Hc. split.
  - intros G. unfold RunnerManager.cancel, on_runner. now rewrite Hc, G.
  - intros e G.
    assert (E : RunnerManager.cancel now (Some c) m
                = (outcome (PersistentRunner.cancel now (runner e)),
                   set_pool (JsMap.set c
                     (mkEntry (state_of (PersistentRunner.cancel now (runner e)))
                        (lastUsed e)) (pool m)) m)).
    { unfold RunnerManager.cancel, on_runner. rewrite Hc, G.
      destruct (PersistentRunner.cancel now (runner e)); reflexivity. }
    cbv zeta. rewrite E. split; [reflexivity|]. split.
    + simpl. now apply keys_set_present with (v0 := e).
    + intros k Hk. simpl. now apply get_set_other.
Qed.

(** Two channels; the request of the first was cancelled, the request of
    the second is in flight. *)
Definition idle_then_busy : RunnerManager.t :=
  Eval vm_compute in
    apply_all [ORun 0 "a" (channel "ch1"); ORun 1000 "b" (channel "ch2");
               ORunnerEvent "ch1" (Session.ECancel 1100)]
      (RunnerManager.new Session.sample_config (Some 5) (Some 1000)).

Definition entry_at (n : nat) : string * PoolEntry :=
  List.nth n (pool idle_then_busy)
    (""%string, mkEntry (PersistentRunner.new Session.sample_config) 0).

Definition in_flight_at (n : nat) : QueueItem :=
  match currentItem (runner (snd (entry_at n))) with
  | Some item => item
  | None => mkItem 0 "" None None false
  end.

Lemma cancel_without_channel_hits_first_busy_runner_witness :
  fst (RunnerManager.cancel 1200 None idle_then_busy) = inr true
  /\ fst (RunnerManager.cancel 1200 (Some ""%string) idle_then_busy) = inr true.
Proof.
  split.
  - destruct (cancel_without_channel_hits_first_busy_runner 1200 None
                idle_then_busy [entry_at 0] [] (fst (entry_at 1)) (snd (entry_at 1))
                (in_flight_at 1)) as [E _];
      [now left | reflexivity | repeat constructor | reflexivity |].
    rewrite E. reflexivity.
  - destruct (cancel_without_channel_hits_first_busy_runner 1200 (Some ""%string)
                idle_then_busy [entry_at 0] [] (fst (entry_at 1)) (snd (entry_at 1))
                (in_flight_at 1)) as [E _];
      [now right | reflexivity | repeat constructor | reflexivity |].
    rewrite E. reflexivity.
Defined.

Lemma cancel_without_channel_is_a_no_op_when_idle_witness :
  RunnerManager.cancel 5 None
    (RunnerManager.getOrCreateRunner 0 "ch1"
       (RunnerManager.new Session.sample_config None None))
  = (inr false,
     RunnerManager.getOrCreateRunner 0 "ch1"
       (RunnerManager.new Session.sample_config None None)).
Proof.
  apply cancel_without_channel_is_a_no_op_when_idle.
  repeat constructor.
Defined.

Lemma cancel_by_channel_touches_only_that_runner_witness :
  JsMap.keys (pool (snd (RunnerManager.cancel 1200 (Some "ch2"%string) idle_then_busy)))
  = JsMap.keys (pool idle_then_busy)
  /\ RunnerManager.cancel 1200 (Some "ch9"%string) idle_then_busy
     = (inr false, idle_then_busy).
Proof.
  destruct (cancel_by_channel_touches_only_that_runner 1200 "ch2" idle_then_busy)
    as [_ H]; [discriminate|].
  destruct (cancel_by_channel_touches_only_that_runner 1200 "ch9" idle_then_busy)
    as [H0 _]; [discriminate|].
  split.
  - edestruct H as (_ & K & _); [reflexivity|exact K].
  - apply H0. reflexivity.
Defined.

(** ** destroy *)

(** X25.  After [destroy(channelId)] the next request for that channel is
    served by a new runner: the old one was shut down and removed, and
    nothing of it (session, crash count, queue) is seen by the request. *)
Theorem destroy_then_request_starts_fresh
    now prompt options k (m : RunnerManager.t) e :
  JsMap.get k (pool m) = Some e ->
  channel_of options = k ->
  supplied_session options = None ->
  let m1 := snd (destroy k m) in
  fst (destroy k m) = true
  /\ JsMap.get k (pool m1) = None
  /\ retired m1 = (k, shut e) :: retired m
  /\ JsMap.get k (pool (RunnerManager.run now prompt options m1))
     = Some (mkEntry
               (state_of (PersistentRunner.run now prompt options
                            (PersistentRunner.new (agentConfig m))))
               now).
Proof.
  intros G Hk Hs. cbv zeta. unfold destroy. rewrite G.
  cbn [fst snd]. split; [reflexivity|].
  assert (Hn : JsMap.get k (pool (shutdown_and_delete k e m)) = None)
    by apply get_delete_same.
  split; [exact Hn|]. split; [reflexivity|].
  unfold RunnerManager.run.
  destruct (forward_entry now options (PersistentRunner.run now prompt options)
              (shutdown_and_delete k e m)) as (target & Ht & Hf).
  rewrite Hk, Hs in *. rewrite Hf. do 3 f_equal.
  destruct (getOrCreateRunner_entry now k (shutdown_and_delete k e m))
    as (r & Hr & _ & Hnew).
  rewrite Hr in Ht. injection Ht as <-. now rewrite (Hnew Hn).
Qed.

Lemma destroy_then_request_starts_fresh_witness :
  exists r,
    JsMap.get "ch1"
      (pool (RunnerManager.run 2000 "again" (channel "ch1")
               (snd (destroy "ch1" two_channels))))
    = Some (mkEntry r 2000)
    /\ sessionId r = ""%string /\ crashCount r = 0.
Proof.
  edestruct (destroy_then_request_starts_fresh 2000 "again" (channel "ch1") "ch1"
               two_channels) as (_ & _ & _ & H);
    [reflexivity | reflexivity | reflexivity |].
  eexists. split; [exact H|]. split; reflexivity.
Defined.

End PoolFacts.

(* ===================================================================== *)
(** * The continuation token of a request                                  *)
(* ===================================================================== *)

Module Resume.
Import RunnerManager Pool PersistentRunner.
#[local] Open Scope Z_scope.
#[local] Open Scope string_scope.

(** ** Computations that neither read nor write one field *)

Section Commutes.
Variable f : t -> t.

(** [m] runs the same way whether [f] is applied before or after it. *)
Definition commutes {A} (m : M A) : Prop :=
  forall s, m (f s) = Output.res_map f (m s).

Lemma commutes_ret {A} (a : A) : commutes (ret a).
Proof. intros s. reflexivity. Qed.

Lemma commutes_throw {A} (e : Error) : commutes (@throw A e).
Proof. intros s. reflexivity. Qed.

Lemma commutes_bind {A B} (m : M A) (k : A -> M B) :
  commutes m -> (forall a, commutes (k a)) -> commutes (bind m k).
Proof.
  intros Hm Hk s. unfold bind. rewrite Hm.
  destruct (m s) as [a s'|e s']; simpl; [apply Hk|reflexivity].
Qed.

Lemma commutes_get {A} (k : t -> M A) :
  (forall s0, commutes (k s0)) -> (forall s0, k (f s0) = k s0) -> commutes (bind get k).
Proof. intros H1 H2 s. unfold bind, get. rewrite H2. apply H1. Qed.

Lemma commutes_modify (g : t -> t) :
  (forall s, g (f s) = f (g s)) -> commutes (modify g).
Proof. intros H s. unfold modify. simpl. now rewrite H. Qed.

Lemma commutes_when (b : bool) (m : M unit) : commutes m -> commutes (when b m).
Proof. intros H. destruct b; [exact H|apply commutes_ret]. Qed.

Lemma commutes_executor (i : nat) (body : M unit) :
  (forall s, log (f s) = log s) ->
  (forall e s, set_log (e :: log s) (f s) = f (set_log (e :: log s) s)) ->
  commutes body -> commutes (promise_executor i body).
Proof.
  intros Hl Hc H s. unfold promise_executor. rewrite H.
  destruct (body s) as [[] s'|e s']; simpl; [reflexivity|].
  unfold emit, modify. simpl. now rewrite Hl, Hc.
Qed.
End Commutes.

(** ** The token and the dispatch of a request *)

Definition token_blind {A} (m : M A) : Prop :=
  forall token, commutes (set_sessionId token) m.

Ltac step_modify := apply commutes_modify; reflexivity.

Lemma ensureProcess_token_blind now : token_blind (ensureProcess now).
Proof.
  intros token. unfold ensureProcess. apply commutes_get; [|reflexivity]. intros s0.
  assert (H : commutes (set_sessionId token) (ensureProcess_start now)).
  { unfold ensureProcess_start. apply commutes_get; [|reflexivity]. intros s1.
    apply commutes_bind.
    - destruct (MAX_CRASHES <=? crashCount s1)%Z; [|apply commutes_ret].
      cbv zeta. destruct (now - lastCrashTime s1 <? CRASH_WINDOW_MS)%Z;
        [apply commutes_throw|step_modify].
    - intros _. apply commutes_get; [|reflexivity]. intros s2. cbv zeta.
      do 4 (apply commutes_bind; [step_modify|intros _]).
      apply commutes_ret. }
  destruct (process s0); [destruct (processAlive s0)|];
    try apply commutes_ret; exact H.
Qed.

Lemma processNext_token_blind now : token_blind (processNext now).
Proof.
  intros token. unfold processNext. apply commutes_get; [|reflexivity]. intros s0.
  destruct (isSome (currentItem s0) || Nat.eqb (List.length (queue s0)) 0);
    [apply commutes_ret|].
  destruct (queue s0) as [|item rest]; [apply commutes_ret|].
  do 3 (apply commutes_bind; [step_modify|intros _]).
  apply commutes_bind; [apply ensureProcess_token_blind|intros proc].
  apply commutes_bind; [step_modify|intros _].
  apply commutes_get; [|reflexivity]. intros s1.
  apply commutes_bind; [step_modify|intros _].
  apply commutes_bind; [step_modify|intros _].
  step_modify.
Qed.

Lemma enqueue_token_blind now prompt options callbacks :
  token_blind (enqueue now prompt options callbacks).
Proof.
  intros token. unfold enqueue. apply commutes_get; [|reflexivity]. intros s0. cbv zeta.
  apply commutes_bind; [step_modify|intros _].
  apply commutes_bind; [|intros _; apply commutes_ret].
  apply commutes_executor; [reflexivity|reflexivity|].
  apply commutes_bind; [step_modify|intros _].
  apply processNext_token_blind.
Qed.

(** [run] and [runStream] never read the continuation token of the
    runner: with any token stored they spawn, write and arm the same, and
    storing the token before or after them comes to the same. *)
Lemma dispatch_ignores_token now prompt options token s :
  PersistentRunner.run now prompt options (set_sessionId token s)
  = Output.res_map (set_sessionId token) (PersistentRunner.run now prompt options s)
  /\ forall callbacks,
       PersistentRunner.runStream now prompt callbacks options (set_sessionId token s)
       = Output.res_map (set_sessionId token)
           (PersistentRunner.runStream now prompt callbacks options s).
Proof.
  split; [|intros callbacks].
  - exact (enqueue_token_blind now prompt options None token s).
  - exact (enqueue_token_blind now prompt options (Some callbacks) token s).
Qed.


(** ** A request that carries a token *)





End Resume.
